(** * clawkit / stt: the hot Whisper service and its term normalizer

    A shallow embedding of [stt/mlx_hot_service.py]:
    - Python [str] values are lists of Unicode code points;
    - the regular expressions of [_normalize_terms] are run by a small
      backtracking matcher that follows CPython's [re] on the three
      constructs the five patterns use ([\b], a literal under
      [re.IGNORECASE], [\s+]);
    - the service, its temporary files and the external transcription
      capability are modelled by explicit state passing with an exception
      outcome; what the operating system does at a file step is an
      argument of the handlers ([transcribe_io], [warmup_io]);
    - floats are IEEE 754 binary64 numbers, written by their exact value;

    and of its benchmark client [stt/benchmark_latency.py], with the
    server, the clock and the temporary names as what is outside it. *)

From Stdlib Require Import NArith ZArith QArith Qabs List String Ascii Bool Lia DecimalString.
From stdpp Require Import gmap strings.
Import ListNotations.
#[local] Set Warnings "-register-all".

(** ** Python strings *)

(** A Python [str]: a sequence of code points. *)
Definition pystr := list N.

(** A literal of the source, written as a Rocq string of ASCII characters. *)
Definition py (s : string) : pystr := map N_of_ascii (list_ascii_of_string s).

(** ** Character classes (CPython's Unicode database)

    The ASCII rows are written out.  Of the rows beyond ASCII, the white
    space set and the four code points that fold onto an ASCII letter are
    written out too; the alphanumeric and case properties of the other
    code points are parameters ([unicode_tables]). *)

Record unicode_tables := {
  uni_alnum : N -> bool;      (* Py_UNICODE_ISALNUM, code points >= 128 *)
  uni_isupper : N -> bool;    (* Py_UNICODE_ISUPPER, code points >= 128 *)
  uni_islower : N -> bool;    (* Py_UNICODE_ISLOWER, code points >= 128 *)
  uni_istitle : N -> bool     (* Py_UNICODE_ISTITLE, code points >= 128 *)
}.

Definition between (lo hi x : N) : bool := (lo <=? x)%N && (x <=? hi)%N.

Definition ascii_isupper (x : N) : bool := between 65 90 x.
Definition ascii_islower (x : N) : bool := between 97 122 x.
Definition ascii_isdigit (x : N) : bool := between 48 57 x.
Definition ascii_isalnum (x : N) : bool :=
  ascii_isdigit x || ascii_isupper x || ascii_islower x.

(** Py_UNICODE_ISSPACE beyond ASCII: U+0085, U+00A0, U+1680, U+2000..U+200A,
    U+2028, U+2029, U+202F, U+205F, U+3000. *)
Definition unicode_spaces : list N :=
  [133; 160; 5760; 8192; 8193; 8194; 8195; 8196; 8197; 8198; 8199; 8200;
   8201; 8202; 8232; 8233; 8239; 8287; 12288]%N.

(** [str.isspace] on one character, also the class [\s] of [re]. *)
Definition is_space (x : N) : bool :=
  if (x <? 128)%N then between 9 13 x || between 28 32 x
  else existsb (N.eqb x) unicode_spaces.

(** The code points beyond ASCII whose lower case is an ASCII letter
    (U+0130 -> i, U+212A -> k), and the two lower-case letters that share
    their upper case with one (U+0131 with i, U+017F with s;
    [_equivalences] in CPython's [sre_compile]). *)
Definition fold_specials : list N := [304; 305; 383; 8490]%N.

(** [sre_lower_unicode], as far as ASCII results go: a code point that does
    not fold onto ASCII is left alone, since every literal of the five
    patterns is an ASCII letter. *)
Definition sre_lower (x : N) : N :=
  if ascii_isupper x then (x + 32)%N
  else if (x =? 304)%N then 105
  else if (x =? 8490)%N then 107
  else x.

(** The rows of [_equivalences] that hold an ASCII letter. *)
Definition fixes (lo : N) : list N :=
  if (lo =? 105)%N then [305%N] else if (lo =? 115)%N then [383%N] else [].

(** A literal [c] of a pattern compiled with [re.IGNORECASE] against the
    subject character [x]. *)
Definition lit_match (c x : N) : bool :=
  let lo := sre_lower c in
  let lx := sre_lower x in
  (lx =? lo)%N || existsb (N.eqb lx) (fixes lo).

Section Tables.

Variable U : unicode_tables.

(** The class [\w] of [re] on [str]: alphanumeric or underscore. *)
Definition is_word (x : N) : bool :=
  if (x <? 128)%N then ascii_isalnum x || (x =? 95)%N else uni_alnum U x.

Definition ch_isupper (x : N) : bool :=
  if (x <? 128)%N then ascii_isupper x else uni_isupper U x.
Definition ch_islower (x : N) : bool :=
  if (x <? 128)%N then ascii_islower x else uni_islower U x.
Definition ch_istitle (x : N) : bool :=
  if (x <? 128)%N then false else uni_istitle U x.

(** [str.isupper]: no lower-case or title-case character and at least one
    upper-case one. *)
Definition isupper (s : pystr) : bool :=
  forallb (fun x => negb (ch_islower x || ch_istitle x)) s && existsb ch_isupper s.

(** [str.islower]: no upper-case or title-case character and at least one
    lower-case one. *)
Definition islower (s : pystr) : bool :=
  forallb (fun x => negb (ch_isupper x || ch_istitle x)) s && existsb ch_islower s.

(** ** The matcher *)

Inductive atom :=
  | Bound              (* \b *)
  | Lit (c : N)        (* a literal, under re.IGNORECASE *)
  | SpacePlus.         (* \s+ *)

Definition regex := list atom.

Definition word_opt (o : option N) : bool :=
  match o with Some x => is_word x | None => false end.

(** SRE_AT_BOUNDARY: the characters before and after the position differ in
    being word characters; outside the string counts as not a word
    character. *)
Definition at_boundary (prev : option N) (s : pystr) : bool :=
  negb (Bool.eqb (word_opt prev) (word_opt (head s))).

(** [match_at p prev s]: the length of the match of [p] at the start of [s],
    where [prev] is the character before it.  [\s+] is greedy and gives
    characters back one at a time. *)
Fixpoint match_at (p : regex) (prev : option N) (s : pystr) {struct p} : option nat :=
  match p with
  | [] => Some 0
  | Bound :: p' => if at_boundary prev s then match_at p' prev s else None
  | Lit c :: p' =>
      match s with
      | x :: s' => if lit_match c x then option_map S (match_at p' (Some x) s') else None
      | [] => None
      end
  | SpacePlus :: p' =>
      (fix plus (s : pystr) {struct s} : option nat :=
         match s with
         | x :: s' =>
             if is_space x then
               match plus s' with
               | Some n => Some (S n)
               | None => option_map S (match_at p' (Some x) s')
               end
             else None
         | [] => None
         end) s
  end.

(** [re.sub]: scan left to right; at a match, the replacement of the matched
    text is written and the scan goes on after the match; elsewhere the
    character is copied.  [skip] counts the characters of the current match
    still to pass.  The five patterns start with a literal, so a match is
    never empty (lemma [match_at_lit_pos]); an empty match is treated as no
    match. *)
Fixpoint sub_from (p : regex) (repl : pystr -> pystr)
    (prev : option N) (s : pystr) (skip : nat) {struct s} : pystr :=
  match s with
  | [] => []
  | x :: s' =>
      match skip with
      | S k => sub_from p repl (Some x) s' k
      | O =>
          match match_at p prev s with
          | Some (S n) => repl (firstn (S n) s) ++ sub_from p repl (Some x) s' n
          | _ => x :: sub_from p repl (Some x) s' 0
          end
      end
  end.

Definition re_sub (p : regex) (repl : pystr -> pystr) (s : pystr) : pystr :=
  sub_from p repl None s 0.

(** The five patterns. *)
Definition lits (s : string) : regex := map Lit (py s).

Definition re_SubsiderAgent : regex := Bound :: lits "SubsiderAgent" ++ [Bound].
Definition re_Subsider_Agent : regex :=
  Bound :: lits "Subsider" ++ SpacePlus :: lits "Agent" ++ [Bound].
Definition re_CLA : regex := Bound :: lits "CLA" ++ [Bound].
Definition re_Fallback : regex := Bound :: lits "Fallback" ++ [Bound].
Definition re_Open_claw : regex :=
  Bound :: lits "Open" ++ SpacePlus :: lits "claw" ++ [Bound].

(** [_case_aware_cli], on the matched token.  [token[0]] and [token[1:]] are
    taken with [firstn] and [skipn]; the token is never empty when [re.sub]
    calls the function. *)
Definition _case_aware_cli (token : pystr) : pystr :=
  if isupper token then py "CLI"
  else if islower token then py "cli"
  else if isupper (firstn 1 token) && islower (skipn 1 token) then py "Cli"
  else py "CLI".

Definition _normalize_terms (text : pystr) : pystr :=
  let out := text in
  let out := re_sub re_SubsiderAgent (fun _ => py "subagent") out in
  let out := re_sub re_Subsider_Agent (fun _ => py "subagent") out in
  let out := re_sub re_CLA _case_aware_cli out in
  let out := re_sub re_Fallback (fun _ => py "fallback") out in
  let out := re_sub re_Open_claw (fun _ => py "OpenClaw") out in
  out.

End Tables.

(** The smallest tables: beyond ASCII only the four folding letters are
    alphanumeric, and nothing is cased. *)
Definition minimal_tables : unicode_tables :=
  {| uni_alnum := fun x => existsb (N.eqb x) fold_specials;
     uni_isupper := fun x => (x =? 304)%N || (x =? 8490)%N;
     uni_islower := fun x => (x =? 305)%N || (x =? 383)%N;
     uni_istitle := fun _ => false |}.

(** ** Values, dictionaries, exceptions *)

Inductive pyval :=
  | PyNone
  | PyBool (b : bool)
  | PyInt (z : Z)
  | PyFloat (q : Q)                (* a finite float, by the decimal it is written with *)
  | PyStr (s : pystr)
  | PyList (l : list pyval)
  | PyDict (kv : list (string * pyval))
  | PyBytes (b : list N)
  | PyInf (negative : bool)      (* the floats inf and -inf *)
  | PyNaN.                       (* the float nan *)

(** A [dict] with [str] keys, as the capability returns and the handlers
    build. *)
Abbreviation pydict := (gmap string pyval).

(** Truth value of an object, as [or] tests it. *)
Definition truthy (v : pyval) : bool :=
  match v with
  | PyNone => false
  | PyBool b => b
  | PyInt z => negb (z =? 0)%Z
  | PyFloat q => negb (Qeq_bool q 0)
  | PyStr s => match s with [] => false | _ => true end
  | PyList l => match l with [] => false | _ => true end
  | PyDict kv => match kv with [] => false | _ => true end
  | PyBytes b => match b with [] => false | _ => true end
  | PyInf _ => true
  | PyNaN => true
  end.

(** [d.get(k)] and [d.get(k, default)]. *)
Definition dict_get (d : pydict) (k : string) : pyval := default PyNone (d !! k).
Definition dict_get_default (d : pydict) (k : string) (dflt : pyval) : pyval :=
  default dflt (d !! k).

(** [a or b]. *)
Definition py_or (a b : pyval) : pyval := if truthy a then a else b.

Inductive exn :=
  | HTTPException (status_code : Z) (detail : pystr)
  | AttributeError
  | CapabilityError (code : N)    (* raised by the transcription capability *)
  | TypeError
  | ValueError
  | OverflowError
  | MemoryError
  | StructError                   (* struct.error *)
  | OSError (errno : N)
  | FileNotFoundError
  | RequestException (code : N)   (* raised by [requests.post] *)
  | HTTPError (status_code : Z).  (* raised by [raise_for_status] *)

Inductive outcome (A : Type) :=
  | Return (a : A)
  | Raise (e : exn).
Arguments Return {A} a.
Arguments Raise {A} e.

(** [str.strip()] with no argument: white space gone from both ends. *)
Fixpoint lstrip (s : pystr) : pystr :=
  match s with
  | x :: s' => if is_space x then lstrip s' else s
  | [] => []
  end.
Definition rstrip (s : pystr) : pystr := rev (lstrip (rev s)).
Definition strip (s : pystr) : pystr := rstrip (lstrip s).

(** [bytes.strip()] with no argument: ASCII white space gone from both
    ends. *)
Definition bytes_space (x : N) : bool :=
  (x =? 32)%N || ((9 <=? x)%N && (x <=? 13)%N).
Fixpoint bytes_lstrip (b : list N) : list N :=
  match b with
  | x :: b' => if bytes_space x then bytes_lstrip b' else b
  | [] => []
  end.
Definition bytes_strip (b : list N) : list N :=
  rev (bytes_lstrip (rev (bytes_lstrip b))).

(** [v.strip()] on an object: [str] and [bytes] have the method, the other
    values of [pyval] do not. *)
Definition py_strip (v : pyval) : outcome pyval :=
  match v with
  | PyStr s => Return (PyStr (strip s))
  | PyBytes b => Return (PyBytes (bytes_strip b))
  | _ => Raise AttributeError
  end.

(** ** Numbers: a reading of a clock is a finite float, written by its exact
    value, a rational; [round(x, ndigits)] rounds the exact value of the
    float half to even. *)
Definition round_half_even (x : Q) : Z :=
  let n := Qnum x in
  let d := Zpos (Qden x) in
  let q := (n / d)%Z in
  let r := (n mod d)%Z in
  match (2 * r ?= d)%Z with
  | Lt => q
  | Gt => (q + 1)%Z
  | Eq => if Z.even q then q else (q + 1)%Z
  end.

Definition py_round (x : Q) (ndigits : nat) : Q :=
  let scale := Pos.pow 10 (Pos.of_nat ndigits) in
  match ndigits with
  | O => inject_Z (round_half_even x)
  | _ => Qmake (round_half_even (x * inject_Z (Zpos scale))) scale
  end.

(** [int(x)] on a finite float: truncation toward zero. *)
Definition py_int (x : Q) : Z := Z.quot (Qnum x) (Zpos (Qden x)).

(** ** Floats

    A [float] is an IEEE 754 binary64 number: a finite one is written by its
    exact value, a rational; the sign of a zero is not tracked.  An
    operation gives the float nearest to the exact result, ties to the even
    mantissa, and an infinity when that is out of range. *)
Inductive pyfloat :=
  | Finite (q : Q)
  | Infinite (negative : bool)
  | NaN.

(** [q * 2^k]. *)
Definition Qshift (q : Q) (k : Z) : Q :=
  match k with
  | Z0 => q
  | Zpos p => Qmake (Qnum q * 2 ^ Zpos p) (Qden q)
  | Zneg p => Qmake (Qnum q) (Qden q * 2 ^ p)
  end.

(** The whole part of the binary logarithm of [|q|], for [q] other than
    zero: the difference of the logarithms of numerator and denominator, or
    one less. *)
Definition Qlog2 (q : Q) : Z :=
  let e := (Z.log2 (Z.abs (Qnum q)) - Z.log2 (Zpos (Qden q)))%Z in
  if Qle_bool 1 (Qshift (Qabs q) (- e)) then e else (e - 1)%Z.

(** The float nearest to a rational: 53 bits of mantissa, the least exponent
    of the last place [-1074], overflow from [2^1024] on. *)
Definition to_double (q : Q) : pyfloat :=
  if Qeq_bool q 0 then Finite 0
  else
    let u := Z.max (Qlog2 q - 52) (-1074) in
    let m := round_half_even (Qshift q (- u)) in
    if (971 <? u)%Z || ((u =? 971)%Z && (Z.abs m =? 2 ^ 53)%Z)
    then Infinite (Qnum q <? 0)%Z
    else Finite (Qred (Qshift (inject_Z m) u)).

Definition Qneg_bool (q : Q) : bool := (Qnum q <? 0)%Z.

(** [x - y] and [x * y] on floats. *)
Definition float_sub (x y : pyfloat) : pyfloat :=
  match x, y with
  | Finite a, Finite b => to_double (a - b)
  | NaN, _ | _, NaN => NaN
  | Infinite s, Finite _ => Infinite s
  | Finite _, Infinite t => Infinite (negb t)
  | Infinite s, Infinite t => if Bool.eqb s t then NaN else Infinite s
  end.

Definition float_mul (x y : pyfloat) : pyfloat :=
  match x, y with
  | Finite a, Finite b => to_double (a * b)
  | NaN, _ | _, NaN => NaN
  | Infinite s, Finite b =>
      if Qeq_bool b 0 then NaN else Infinite (xorb s (Qneg_bool b))
  | Finite a, Infinite t =>
      if Qeq_bool a 0 then NaN else Infinite (xorb (Qneg_bool a) t)
  | Infinite s, Infinite t => Infinite (xorb s t)
  end.

(** [int(x)] on a float. *)
Definition py_int_float (x : pyfloat) : outcome Z :=
  match x with
  | Finite q => Return (py_int q)
  | Infinite _ => Raise OverflowError
  | NaN => Raise ValueError
  end.

(** [round(x, ndigits)] on a float, [ndigits] given: the decimal nearest to
    the exact value (the float returned is the one nearest to that decimal);
    an infinity and nan come back as they are. *)
Definition py_round_float (x : pyfloat) (ndigits : nat) : pyval :=
  match x with
  | Finite q => PyFloat (py_round q ndigits)
  | Infinite s => PyInf s
  | NaN => PyNaN
  end.

(** ** Configuration (module constants, read from the environment) *)

Record config := {
  DEFAULT_MODEL : pystr;
  WARMUP_SECONDS : pyfloat;
  INITIAL_PROMPT : pystr;
  app_title : pystr
}.

Definition default_config : config :=
  {| DEFAULT_MODEL := py "mlx-community/whisper-small-mlx";
     WARMUP_SECONDS := to_double (6 # 10);
     INITIAL_PROMPT := py "Terms: subagent, codex, claude, cli, fallback, OpenClaw";
     app_title := py "mlx-whisper-hot-service" |}.

(** ** The service *)

Record HotWhisperService := {
  model : pystr;
  warmed : bool;
  startup_ts : Q
}.

(** [HotWhisperService.__init__], with the reading of [time.time()]. *)
Definition HotWhisperService_init (model : pystr) (now : Q) : HotWhisperService :=
  {| model := model; warmed := false; startup_ts := now |}.

(** [_language_arg]. *)
Definition _language_arg (language : option pystr) : outcome (option pystr) :=
  match language with
  | None => Return None
  | Some l =>
      if bool_decide (l = py "") || bool_decide (l = py "auto") then Return None
      else if negb (bool_decide (l = py "zh") || bool_decide (l = py "en"))
      then Raise (HTTPException 400 (py "language must be one of: auto|zh|en"))
      else Return (Some l)
  end.

(** The arguments of one call of [mlx_whisper.transcribe]. *)
Record cap_args := {
  audio_path : pystr;
  path_or_hf_repo : pystr;
  cap_language : option pystr;
  word_timestamps : bool;
  initial_prompt : pystr
}.

(** An uploaded file ([UploadFile]): its name, if any, and its bytes. *)
Record UploadFile := {
  filename : option pystr;
  content : list N
}.

(** The process state the handlers see: the files on disk, the module-level
    [service] object, the state of the external capability, and (as a ghost
    trace) the calls made to the capability. *)
Record world (E : Type) := {
  fs : gmap pystr (list N);
  service : HotWhisperService;
  cap_state : E;
  cap_calls : list cap_args
}.
Arguments fs {E} w.
Arguments service {E} w.
Arguments cap_state {E} w.
Arguments cap_calls {E} w.

(** A computation: it ends by returning or raising, and leaves a world. *)
Definition M (E A : Type) : Type := world E -> outcome A * world E.

Definition ret {E A : Type} (a : A) : M E A := fun w => (Return a, w).
Definition bind {E A B : Type} (c : M E A) (k : A -> M E B) : M E B :=
  fun w => match c w with
           | (Return a, w') => k a w'
           | (Raise e, w') => (Raise e, w')
           end.
Definition lift {E A : Type} (o : outcome A) : M E A := fun w => (o, w).

Notation "'let*' x ':=' c 'in' k" := (bind c (fun x => k))
  (at level 10, x name, c at level 100, k at level 200).

(** [try: body finally: final]: [final] runs on both exits; if it raises, its
    exception replaces the outcome of [body]. *)
Definition try_finally {E A : Type} (body : M E A) (final : M E unit) : M E A :=
  fun w => match body w with
           | (r, w1) => match final w1 with
                        | (Return _, w2) => (r, w2)
                        | (Raise e, w2) => (Raise e, w2)
                        end
           end.

Definition set_fs {E : Type} (f : gmap pystr (list N)) (w : world E) : world E :=
  {| fs := f; service := service w; cap_state := cap_state w; cap_calls := cap_calls w |}.
Definition set_service {E : Type} (s : HotWhisperService) (w : world E) : world E :=
  {| fs := fs w; service := s; cap_state := cap_state w; cap_calls := cap_calls w |}.

(** The name [tempfile] gives a new file: the directory, a prefix, a random
    stem and the suffix asked for.  The stem is an input of the model. *)
Definition temp_name (stem suffix : pystr) : pystr := py "/tmp/tmp" ++ stem ++ suffix.

(** [tempfile.NamedTemporaryFile(suffix=suffix, delete=False)]: when the
    operating system refuses ([error]) the call raises and no file is made;
    otherwise an empty file exists under the new name.  Closing a file
    nothing was written to, and [unlink] on the process's own temporary
    file, are taken to succeed. *)
Definition NamedTemporaryFile {E : Type} (error : option exn) (stem suffix : pystr)
    : M E pystr :=
  fun w => match error with
           | Some e => (Raise e, w)
           | None => let p := temp_name stem suffix in
                     (Return p, set_fs (<[p := []]> (fs w)) w)
           end.

(** What the operating system does at the file steps of one request:
    making the temporary file, reading the upload, writing the bytes (with
    the bytes that reached the file when the write fails).  [None]: the step
    succeeds. *)
Record upload_io := {
  create_error : option exn;
  read_error : option exn;
  write_error : option (exn * list N)
}.

Definition io_ok : upload_io :=
  {| create_error := None; read_error := None; write_error := None |}.

(** What can go wrong, from outside, when a clip is built: opening the file
    for writing, allocating the frames, writing them. *)
Record clip_faults := {
  open_error : option exn;
  alloc_error : option exn;
  wave_error : option exn
}.

Definition no_faults : clip_faults :=
  {| open_error := None; alloc_error := None; wave_error := None |}.

(** [b"\x00\x00" * frames]; a count below zero gives no bytes. *)
Definition silence (frames : Z) : list N :=
  concat (repeat [0%N; 0%N] (Z.to_nat frames)).

(** The first exception, if any, of building a clip of [frames] frames of
    two bytes on a 64-bit CPython: [wave.open(path, "wb")]; the repetition
    [b"\x00\x00" * frames], which overflows from [2^62] frames on;
    [writeframes], whose header holds the length in 32 bits. *)
Definition clip_exception (cf : clip_faults) (frames : Z) : option exn :=
  match open_error cf with
  | Some e => Some e
  | None =>
      if (2 ^ 62 <=? frames)%Z then Some OverflowError
      else match alloc_error cf with
           | Some e => Some e
           | None =>
               if (4294967295 <? 36 + 2 * Z.max 0 frames)%Z then Some StructError
               else wave_error cf
           end
  end.

(** What the operating system does at the file steps of [warmup]. *)
Record warmup_faults := {
  tmp_error : option exn;
  clip_errors : clip_faults
}.

(** [Path.unlink(missing_ok=True)]. *)
Definition unlink_missing_ok {E : Type} (p : pystr) : M E unit :=
  fun w => (Return tt, set_fs (delete p (fs w)) w).

(** Reading the module-level [service]. *)
Definition get_service {E : Type} : M E HotWhisperService := fun w => (Return (service w), w).

(** What the module takes from outside: the Unicode tables, the
    configuration, the capability [mlx_whisper.transcribe] (from its
    arguments, its own state and the files: a result dictionary or an
    exception, and the new state and files), [pathlib.PurePath(name).suffix],
    and the bytes [wave] writes for the given channels, sample width, frame
    rate and frames. *)
Record runtime (E : Type) := {
  tables : unicode_tables;
  cfg : config;
  mlx_transcribe :
    cap_args -> E -> gmap pystr (list N) -> outcome pydict * E * gmap pystr (list N);
  path_suffix : pystr -> pystr;
  wave_file : Z -> Z -> Z -> list N -> list N
}.
Arguments tables {E} r.
Arguments cfg {E} r.
Arguments mlx_transcribe {E} r.
Arguments path_suffix {E} r.
Arguments wave_file {E} r.

Section Service.

Context {E : Type}.
Variable X : runtime E.

(** The call [_transcribe] makes to the capability. *)
Definition cap_request (audio_path : pystr) (lang : option pystr) (w : world E) : cap_args :=
  {| audio_path := audio_path;
     path_or_hf_repo := model (service w);
     cap_language := lang;
     word_timestamps := false;
     initial_prompt := INITIAL_PROMPT (cfg X) |}.

(** [HotWhisperService._transcribe]. *)
Definition _transcribe (audio_path : pystr) (language : option pystr) : M E pydict :=
  fun w =>
    match _language_arg language with
    | Raise e => (Raise e, w)
    | Return lang =>
        let args := cap_request audio_path lang w in
        match mlx_transcribe X args (cap_state w) (fs w) with
        | (r, e', fs') =>
            (r, {| fs := fs'; service := service w; cap_state := e';
                   cap_calls := cap_calls w ++ [args] |})
        end
    end.

(** [frames = int(sample_rate * WARMUP_SECONDS)]: a product of floats. *)
Definition warmup_frames : outcome Z :=
  let sample_rate := 16000%Z in
  py_int_float (float_mul (Finite (inject_Z sample_rate)) (WARMUP_SECONDS (cfg X))).

(** The silent clip of [warmup], when it can be built: one channel, 16-bit
    samples, 16 kHz, [frames] frames. *)
Definition warmup_audio : list N :=
  wave_file X 1 2 16000
    (silence (match warmup_frames with Return frames => frames | Raise _ => 0%Z end)).

(** How the building of the clip ends, lines 73 to 79: the frame count can
    raise, and so can the steps of [clip_exception]. *)
Definition build_clip (cf : clip_faults) : outcome (list N) :=
  match warmup_frames with
  | Raise e => Raise e
  | Return frames =>
      match clip_exception cf frames with
      | Some e => Raise e
      | None => Return (wave_file X 1 2 16000 (silence frames))
      end
  end.

(** The clip on disk, or the exception of building it. *)
Definition write_wave (path : pystr) (built : outcome (list N)) : M E unit :=
  fun w => match built with
           | Return clip => (Return tt, set_fs (<[path := clip]> (fs w)) w)
           | Raise e => (Raise e, w)
           end.

(** [self.warmed = True]. *)
Definition set_warmed : M E unit :=
  fun w => (Return tt,
            set_service {| model := model (service w); warmed := true;
                           startup_ts := startup_ts (service w) |} w).

(** [HotWhisperService.warmup], given whether making the file raised and
    how building the clip ended. *)
Definition warmup_with (created : option exn) (built : outcome (list N)) (stem : pystr)
    : M E unit :=
  let* warmup_path := NamedTemporaryFile created stem (py ".wav") in
  try_finally
    (let* _ := write_wave warmup_path built in
     let* _ := _transcribe warmup_path (Some (py "auto")) in
     set_warmed)
    (unlink_missing_ok warmup_path).

(** [HotWhisperService.warmup], with what the operating system does at its
    file steps. *)
Definition warmup_io (io : warmup_faults) (stem : pystr) : M E unit :=
  warmup_with (tmp_error io) (build_clip (clip_errors io)) stem.

(** [HotWhisperService.warmup] on the runs in which its clip is written: the
    file is made and the clip built, so that the capability is called. *)
Definition warmup (stem : pystr) : M E unit :=
  warmup_with None (Return warmup_audio) stem.

(** [startup_event]: [await asyncio.to_thread(service.warmup)]. *)
Definition startup_event_io (io : warmup_faults) (stem : pystr) : M E unit :=
  warmup_io io stem.
Definition startup_event (stem : pystr) : M E unit := warmup stem.

(** [health], with the reading of [time.time()].  The difference of two
    readings of [time.time()] is taken as exact: they lie within a factor of
    two of each other, where float subtraction does not round. *)
Definition health (now : Q) : M E pydict :=
  fun w =>
    (Return (<["ok" := PyBool true]>
            (<["service" := PyStr (app_title (cfg X))]>
            (<["model" := PyStr (model (service w))]>
            (<["warmed" := PyBool (warmed (service w))]>
            (<["uptime_sec" := PyFloat (py_round (now - startup_ts (service w)) 3)]> ∅))))),
     w).

(** [Path(file.filename or "upload.wav").suffix or ".wav"]. *)
Definition upload_suffix (file : UploadFile) : pystr :=
  let name := match filename file with
              | Some ((_ :: _) as n) => n
              | _ => py "upload.wav"
              end in
  match path_suffix X name with
  | (_ :: _) as sfx => sfx
  | [] => py ".wav"
  end.

(** [await file.read()] and [tmp.write(content)], inside the [with] block. *)
Definition upload_read (error : option exn) (file : UploadFile) : M E (list N) :=
  fun w => match error with
           | Some e => (Raise e, w)
           | None => (Return (content file), w)
           end.

Definition tmp_write (error : option (exn * list N)) (path : pystr) (data : list N)
    : M E unit :=
  fun w => match error with
           | Some (e, reached) => (Raise e, set_fs (<[path := reached]> (fs w)) w)
           | None => (Return tt, set_fs (<[path := data]> (fs w)) w)
           end.

(** [service._normalize_terms(v)] on an object: [re.sub] takes a [str]; on
    [bytes], and on any other value, it raises [TypeError]. *)
Definition normalize_value (v : pyval) : outcome pystr :=
  match v with
  | PyStr s => Return (_normalize_terms (tables X) s)
  | _ => Raise TypeError
  end.

(** [round((time.perf_counter() - started) * 1000, 2)], from the two
    readings of the clock. *)
Definition elapsed_ms_of (started finished : Q) : pyval :=
  py_round_float
    (float_mul (float_sub (Finite finished) (Finite started)) (Finite (inject_Z 1000))) 2.

(** The response of [transcribe]. *)
Definition transcribe_response (text : pystr) (detected_lang : pyval) (language : pystr)
    (elapsed_ms : pyval) (segments : pyval) (model : pystr) : pydict :=
  <["text" := PyStr text]>
  (<["language" := detected_lang]>
  (<["requested_language" := PyStr language]>
  (<["elapsed_ms" := elapsed_ms]>
  (<["segments" := segments]>
  (<["model" := PyStr model]> ∅))))).

(** [transcribe], the handler of [POST /transcribe], with what the
    operating system does at its file steps.  [stem] is the name [tempfile]
    picks; [started] and [finished] are the two readings of
    [time.perf_counter()], finite floats.  The upload is read and written
    inside the [with] block, before the [try]. *)
Definition transcribe_io (io : upload_io) (file : UploadFile) (language : pystr)
    (stem : pystr) (started finished : Q) : M E pydict :=
  let suffix := upload_suffix file in
  let* tmp_path := NamedTemporaryFile (create_error io) stem suffix in
  let* content := upload_read (read_error io) file in
  let* _ := tmp_write (write_error io) tmp_path content in
  try_finally
    (let* result := _transcribe tmp_path (Some language) in
     let elapsed_ms := elapsed_ms_of started finished in
     let* stripped := lift (py_strip (py_or (dict_get result "text") (PyStr (py "")))) in
     let* text := lift (normalize_value stripped) in
     let detected_lang := dict_get result "language" in
     let* svc := get_service in
     ret (transcribe_response text detected_lang language elapsed_ms
            (dict_get_default result "segments" (PyList [])) (model svc)))
    (unlink_missing_ok tmp_path).

(** [transcribe] on the runs in which its file steps succeed. *)
Definition transcribe (file : UploadFile) (language : pystr)
    (stem : pystr) (started finished : Q) : M E pydict :=
  transcribe_io io_ok file language stem started finished.

(** What a client or the framework can make the process do, on the runs in
    which the file steps succeed. *)
Inductive operation :=
  | OpStartup (stem : pystr)
  | OpHealth (now : Q)
  | OpTranscribe (file : UploadFile) (language : pystr) (stem : pystr) (started finished : Q)
  | OpServiceTranscribe (audio_path : pystr) (language : option pystr).

Definition run_op (op : operation) (w : world E) : world E :=
  match op with
  | OpStartup stem => snd (startup_event stem w)
  | OpHealth now => snd (health now w)
  | OpTranscribe file language stem started finished =>
      snd (transcribe file language stem started finished w)
  | OpServiceTranscribe audio_path language => snd (_transcribe audio_path language w)
  end.

(** The worlds a sequence of operations goes through, the first one
    included. *)
Fixpoint run_trace (ops : list operation) (w : world E) : list (world E) :=
  w :: match ops with
       | [] => []
       | op :: ops' => run_trace ops' (run_op op w)
       end.

End Service.

(** Changes of a flag along a trace: from false to true, and back. *)
Fixpoint rises (l : list bool) : nat :=
  match l with
  | a :: t => (match t with
               | b :: _ => if negb a && b then 1 else 0
               | [] => 0
               end + rises t)%nat
  | [] => 0%nat
  end.

Fixpoint falls (l : list bool) : nat :=
  match l with
  | a :: t => (match t with
               | b :: _ => if a && negb b then 1 else 0
               | [] => 0
               end + falls t)%nat
  | [] => 0%nat
  end.

(** The process right after the module is loaded: [service =
    HotWhisperService()], nothing else done yet. *)
Definition initial_world {E : Type} (cfg : config) (files : gmap pystr (list N))
    (e : E) (now : Q) : world E :=
  {| fs := files; service := HotWhisperService_init (DEFAULT_MODEL cfg) now;
     cap_state := e; cap_calls := [] |}.

(** ** Words and gaps

    A text read as words (runs of [\w] characters) with the gap before each
    of them, and the gap after the last one.  On this reading the five
    substitutions are maps over the words, or over pairs of neighbours. *)

Definition item := (pystr * pystr)%type.

Definition flatten (its : list item) (tail : pystr) : pystr :=
  flat_map (fun it : item => fst it ++ snd it) its ++ tail.

(** The literals [l] against the whole of [w]. *)
Fixpoint lits_match (l w : pystr) : bool :=
  match l, w with
  | [], [] => true
  | c :: l', x :: w' => lit_match c x && lits_match l' w'
  | _, _ => false
  end.

Definition word_rule (l : pystr) (repl : pystr -> pystr) (w : pystr) : pystr :=
  if lits_match l w then repl w else w.

Definition map_words (f : pystr -> pystr) (its : list item) : list item :=
  map (fun it : item => (fst it, f (snd it))) its.

Definition pair_match (l1 l2 : pystr) (w1 g2 w2 : pystr) : bool :=
  lits_match l1 w1 && forallb is_space g2 && lits_match l2 w2.

Fixpoint merge_pairs (l1 l2 new : pystr) (its : list item) : list item :=
  match its with
  | [] => []
  | it1 :: rest =>
      match rest with
      | it2 :: rest' =>
          if pair_match l1 l2 (snd it1) (fst it2) (snd it2)
          then (fst it1, new) :: merge_pairs l1 l2 new rest'
          else it1 :: merge_pairs l1 l2 new rest
      | [] => [it1]
      end
  end.

Fixpoint no_pair (l1 l2 : pystr) (its : list item) : bool :=
  match its with
  | [] => true
  | it1 :: rest =>
      match rest with
      | it2 :: _ => negb (pair_match l1 l2 (snd it1) (fst it2) (snd it2))
      | [] => true
      end && no_pair l1 l2 rest
  end.

Definition fixed_by (f : pystr -> pystr) (its : list item) : Prop :=
  Forall (fun it : item => f (snd it) = snd it) its.

(** The character before the text that follows [u], when [prev] is the one
    before [u]. *)
Fixpoint last_opt (prev : option N) (u : pystr) : option N :=
  match u with
  | [] => prev
  | x :: u' => last_opt (Some x) u'
  end.

Section Words.

Variable U : unicode_tables.

Definition gap_ok (g : pystr) : bool := forallb (fun x => negb (is_word U x)) g.
Definition word_ok (w : pystr) : bool :=
  forallb (is_word U) w && match w with [] => false | _ => true end.

(** The text after a word: empty, or starting with a character that is not
    a word character. *)
Definition starts_nonword (s : pystr) : Prop := word_opt U (head s) = false.

Definition item_ok (first : bool) (it : item) : bool :=
  gap_ok (fst it) && word_ok (snd it)
  && (first || match fst it with [] => false | _ => true end).

Fixpoint items_ok (first : bool) (its : list item) : bool :=
  match its with
  | [] => true
  | it :: rest => item_ok first it && items_ok false rest
  end.

(** The five substitutions of [_normalize_terms], on words and gaps. *)
Definition normalize_items (its : list item) : list item :=
  let its := map_words (word_rule (py "SubsiderAgent") (fun _ => py "subagent")) its in
  let its := merge_pairs (py "Subsider") (py "Agent") (py "subagent") its in
  let its := map_words (word_rule (py "CLA") (_case_aware_cli U)) its in
  let its := map_words (word_rule (py "Fallback") (fun _ => py "fallback")) its in
  let its := merge_pairs (py "Open") (py "claw") (py "OpenClaw") its in
  its.

End Words.

(** The tables agree with CPython's on what the proofs need: no white space
    character is alphanumeric, and the four folding letters are. *)
Definition tables_ok (U : unicode_tables) : bool :=
  forallb (fun x => negb (uni_alnum U x)) unicode_spaces
  && forallb (uni_alnum U) fold_specials.

Definition is_letter (c : N) : bool := ascii_isupper c || ascii_islower c.

(** A non-empty run of ASCII letters: what the literal parts of the five
    patterns are. *)
Definition letters (l : pystr) : bool :=
  forallb is_letter l && match l with [] => false | _ => true end.

(** [s] is [p] with each ASCII letter in either case. *)
Fixpoint case_variant (p s : pystr) : bool :=
  match p, s with
  | [], [] => true
  | c :: p', x :: s' =>
      ((x =? c)%N || (ascii_isupper c && (x =? c + 32)%N)
       || (ascii_islower c && (x =? c - 32)%N))
      && case_variant p' s'
  | _, _ => false
  end.

(** Texts of ASCII characters only. *)
Definition is_ascii (s : pystr) : bool := forallb (fun x => (x <? 128)%N) s.
Definition ascii_opt (o : option N) : bool :=
  match o with Some x => (x <? 128)%N | None => true end.

(** The decision table of the abbreviation rule, on the spelling of the
    token. *)
Definition cli_table (token : pystr) : pystr :=
  if bool_decide (token = py "CLA") then py "CLI"
  else if bool_decide (token = py "cla") then py "cli"
  else if bool_decide (token = py "Cla") then py "Cli"
  else py "CLI".

(** The text of a capability result: the string under ["text"], or the empty
    string when the key is missing or holds [None]. *)
Definition text_field (d : pydict) (t : pystr) : Prop :=
  d !! "text" = Some (PyStr t)
  \/ ((d !! "text" = None \/ d !! "text" = Some PyNone) /\ t = []).

Definition invalid_language_error : exn :=
  HTTPException 400 (py "language must be one of: auto|zh|en").

(** ** Concrete capabilities and worlds, for the examples *)

(** A capability that always raises. *)
Definition failing_capability (a : cap_args) (e : unit) (f : gmap pystr (list N))
    : outcome pydict * unit * gmap pystr (list N) :=
  (Raise (CapabilityError 1), e, f).

(** A capability that returns the same dictionary on every call. *)
Definition constant_capability (d : pydict) (a : cap_args) (e : unit)
    (f : gmap pystr (list N)) : outcome pydict * unit * gmap pystr (list N) :=
  (Return d, e, f).

Definition sample_result : pydict :=
  <["text" := PyStr (py " Open claw ")]>
  (<["language" := PyStr (py "en")]>
  (<["segments" := PyList []]> ∅)).

Definition world0 : world unit := initial_world default_config ∅ tt 0.

Definition sample_upload : UploadFile :=
  {| filename := Some (py "clip.wav"); content := [82; 73; 70; 70]%N |}.

(** [pathlib.PurePosixPath(path).name] and [.suffix] (CPython 3.11): the
    name is the last component that is neither empty nor ["."]; the suffix
    starts at the last dot of the name, when that dot is neither its first
    nor its last character. *)
Fixpoint split_on (sep : N) (s : pystr) : list pystr :=
  match s with
  | [] => [[]]
  | x :: s' =>
      if (x =? sep)%N then [] :: split_on sep s'
      else match split_on sep s' with
           | part :: parts => (x :: part) :: parts
           | [] => [[x]]
           end
  end.

Definition pure_path_name (path : pystr) : pystr :=
  List.last (List.filter (fun part => negb (bool_decide (part = [])
                                       || bool_decide (part = py ".")))
          (split_on 47 path)) [].

Fixpoint rfind_dot (name : pystr) : option nat :=
  match name with
  | [] => None
  | x :: name' =>
      match rfind_dot name' with
      | Some i => Some (Datatypes.S i)
      | None => if (x =? 46)%N then Some 0%nat else None
      end
  end.

Definition pure_path_suffix (path : pystr) : pystr :=
  let name := pure_path_name path in
  match rfind_dot name with
  | Some i => if (0 <? i)%nat && (i <? length name - 1)%nat then skipn i name else []
  | None => []
  end.

(** The bytes [wave] writes: the 44 bytes of the RIFF header, then the
    frames. *)
Fixpoint le_bytes (n : nat) (z : Z) : list N :=
  match n with
  | O => []
  | Datatypes.S n' => Z.to_N (z mod 256) :: le_bytes n' (z / 256)
  end.

Definition wave_bytes (nchannels sampwidth framerate : Z) (frames : list N) : list N :=
  let datalength := Z.of_nat (length frames) in
  py "RIFF" ++ le_bytes 4 (36 + datalength) ++ py "WAVE" ++ py "fmt "
  ++ le_bytes 4 16 ++ le_bytes 2 1 ++ le_bytes 2 nchannels ++ le_bytes 4 framerate
  ++ le_bytes 4 (nchannels * framerate * sampwidth)
  ++ le_bytes 2 (nchannels * sampwidth) ++ le_bytes 2 (sampwidth * 8)
  ++ py "data" ++ le_bytes 4 datalength ++ frames.

(** A runtime whose capability fails, and one whose capability answers
    [sample_result]. *)
Definition failing_runtime : runtime unit :=
  {| tables := minimal_tables; cfg := default_config;
     mlx_transcribe := failing_capability;
     path_suffix := pure_path_suffix; wave_file := wave_bytes |}.

Definition sample_runtime : runtime unit :=
  {| tables := minimal_tables; cfg := default_config;
     mlx_transcribe := constant_capability sample_result;
     path_suffix := pure_path_suffix; wave_file := wave_bytes |}.

(** * More of the code: definitions *)

(** ** The normalizer: what a match takes and what matches *)

(** The least number of characters a match of [p] takes. *)
Fixpoint min_len (p : regex) : nat :=
  match p with
  | [] => 0
  | Bound :: p' => min_len p'
  | _ :: p' => S (min_len p')
  end.

(** [re.findall] for a pattern without groups: the matched texts, left to
    right, found as [re.sub] finds them. *)
Fixpoint findall_from (U : unicode_tables) (p : regex) (prev : option N) (s : pystr)
    (skip : nat) {struct s} : list pystr :=
  match s with
  | [] => []
  | x :: s' =>
      match skip with
      | S k => findall_from U p (Some x) s' k
      | O =>
          match match_at U p prev s with
          | Some (S n) => firstn (S n) s :: findall_from U p (Some x) s' n
          | _ => findall_from U p (Some x) s' 0
          end
      end
  end.

Definition re_findall (U : unicode_tables) (p : regex) (s : pystr) : list pystr :=
  findall_from U p None s 0.

(** The texts of the neighbour pairs that [merge_pairs] merges. *)
Fixpoint pair_texts (l1 l2 : pystr) (its : list item) : list pystr :=
  match its with
  | [] => []
  | it1 :: rest =>
      match rest with
      | it2 :: rest' =>
          if pair_match l1 l2 (snd it1) (fst it2) (snd it2)
          then (snd it1 ++ fst it2 ++ snd it2) :: pair_texts l1 l2 rest'
          else pair_texts l1 l2 rest
      | [] => []
      end
  end.

(** [g] put before the first gap of a text read as words and gaps. *)
Definition prepend_gap (g : pystr) (its : list item) : list item :=
  match its with
  | [] => []
  | it :: rest => (g ++ fst it, snd it) :: rest
  end.

(** The gap before the first word, when it holds a character that is not
    white space: no two-word rule joins across it. *)
Definition first_gap_blocks (its : list item) : Prop :=
  match its with
  | [] => True
  | it :: _ => forallb is_space (fst it) = false
  end.

(** A text with no white space at either end; the last character is read
    with [last_opt]. *)
Definition nonspace_opt (o : option N) : Prop :=
  match o with Some x => is_space x = false | None => True end.
Definition trimmed (c : pystr) : Prop :=
  nonspace_opt (head c) /\ nonspace_opt (last_opt None c).
(** ** The service: what a call to the capability looks like *)

(** A call as [_transcribe] makes it for a service with model [mdl]: that
    model, no word time stamps, the configured prompt, and a language that is
    [None] (detect), ["zh"] or ["en"]. *)
Definition call_ok {E : Type} (X : runtime E) (mdl : pystr) (a : cap_args) : Prop :=
  path_or_hf_repo a = mdl
  /\ word_timestamps a = false
  /\ initial_prompt a = INITIAL_PROMPT (cfg X)
  /\ (cap_language a = None \/ cap_language a = Some (py "zh")
      \/ cap_language a = Some (py "en")).

(** A capability that reads the files and leaves them as they are. *)
Definition keeps_files {E : Type} (X : runtime E) : Prop :=
  forall a e f, snd (mlx_transcribe X a e f) = f.

(** A runtime whose capability answers [bytes] where the text should be,
    and one whose [WARMUP_SECONDS] is nan. *)
Definition bytes_runtime : runtime unit :=
  {| tables := minimal_tables; cfg := default_config;
     mlx_transcribe := constant_capability (<["text" := PyBytes [111; 107]%N]> ∅);
     path_suffix := pure_path_suffix; wave_file := wave_bytes |}.


Definition warmup_ok : warmup_faults :=
  {| tmp_error := None; clip_errors := no_faults |}.

(** ** The benchmark client, [stt/benchmark_latency.py]

    The client runs in a process of its own: its files, the lines it has
    printed, the requests it has posted (a ghost trace), and the state of
    what is outside it (the network and the server behind it, the clock, the
    choice of temporary names, the operating system). *)

(** One call of [requests.post]. *)
Record post_request := {
  url : pystr;
  file_name : pystr;
  file_bytes : list N;
  content_type : pystr;
  form_language : pystr;
  post_timeout : Z
}.

(** What a [print] writes: the arguments of the three format strings of
    [main]. *)
Inductive line :=
  | Banner (base_url language : pystr)   (* Benchmarking {base_url} ({args.language=}) *)
  | Header                               (* duration_sec,latency_ms *)
  | Row (d : Z) (latency : pyfloat).     (* {d},{latency:.2f} *)

Record client_world (S : Type) := {
  cfs : gmap pystr (list N);
  net : S;
  posts : list post_request;
  stdout : list line
}.
Arguments cfs {S} _.
Arguments net {S} _.
Arguments posts {S} _.
Arguments stdout {S} _.

(** The steps at which the operating system can refuse. *)
Inductive os_step :=
  | CreateTemp (suffix : pystr)
  | OpenWrite (path : pystr)
  | Allocate (nbytes : Z)
  | WriteFrames (path : pystr)
  | OpenRead (path : pystr).

(** What the client takes from outside: the bytes [wave] writes,
    [Path.name], the answer to a request (a status code or an exception of
    [requests]), the clock [time.perf_counter] (a finite float), the stem
    [tempfile] picks, and the refusals of the operating system. *)
Record client_runtime (S : Type) := {
  c_wave_file : Z -> Z -> Z -> list N -> list N;
  c_path_name : pystr -> pystr;
  c_post : post_request -> S -> outcome Z * S;
  c_perf_counter : S -> Q * S;
  c_temp_stem : S -> pystr * S;
  c_os_error : os_step -> S -> option exn
}.
Arguments c_wave_file {S} _.
Arguments c_path_name {S} _.
Arguments c_post {S} _.
Arguments c_perf_counter {S} _.
Arguments c_temp_stem {S} _.
Arguments c_os_error {S} _.

(** The parsed command line. *)
Record Namespace := {
  args_base_url : pystr;
  args_language : pystr;
  args_min_sec : Z;
  args_max_sec : Z
}.

Definition C (S A : Type) : Type := client_world S -> outcome A * client_world S.

Definition cret {S A : Type} (a : A) : C S A := fun w => (Return a, w).
Definition cbind {S A B : Type} (c : C S A) (k : A -> C S B) : C S B :=
  fun w => match c w with
           | (Return a, w') => k a w'
           | (Raise e, w') => (Raise e, w')
           end.

Notation "'let+' x ':=' c 'in' k" := (cbind c (fun x => k))
  (at level 10, x name, c at level 100, k at level 200).

Definition ctry_finally {S A : Type} (body : C S A) (final : C S unit) : C S A :=
  fun w => match body w with
           | (r, w1) => match final w1 with
                        | (Return _, w2) => (r, w2)
                        | (Raise e, w2) => (Raise e, w2)
                        end
           end.

Definition set_cfs {S : Type} (f : gmap pystr (list N)) (w : client_world S)
    : client_world S :=
  {| cfs := f; net := net w; posts := posts w; stdout := stdout w |}.
Definition set_net {S : Type} (n : S) (w : client_world S) : client_world S :=
  {| cfs := cfs w; net := n; posts := posts w; stdout := stdout w |}.

Definition SAMPLE_RATE : Z := 16000.

(** [str(d)] on an [int]. *)
Definition str_int (d : Z) : pystr := py (NilZero.string_of_int (Z.to_int d)).

(** [range(lo, hi)]. *)
Definition py_range (lo hi : Z) : list Z :=
  map (fun i => (lo + Z.of_nat i)%Z) (seq 0 (Z.to_nat (hi - lo))).

Section Client.

Context {S : Type}.
Variable R : client_runtime S.

(** [b"\x00\x00" * frames] for a clip of [duration_sec] seconds. *)
Definition silent_frames (duration_sec : Z) : list N :=
  let frames := (SAMPLE_RATE * duration_sec)%Z in
  silence frames.

(** What the operating system does while the clip at [path] is built. *)
Definition client_faults (path : pystr) (frames : Z) (n : S) : clip_faults :=
  {| open_error := c_os_error R (OpenWrite path) n;
     alloc_error := c_os_error R (Allocate (2 * frames)) n;
     wave_error := c_os_error R (WriteFrames path) n |}.

(** [make_silent_wav]. *)
Definition make_silent_wav (path : pystr) (duration_sec : Z) : C S unit :=
  fun w =>
    let frames := (SAMPLE_RATE * duration_sec)%Z in
    match clip_exception (client_faults path frames (net w)) frames with
    | Some e => (Raise e, w)
    | None =>
        (Return tt,
         set_cfs (<[path := c_wave_file R 1 2 SAMPLE_RATE (silent_frames duration_sec)]>
                    (cfs w)) w)
    end.

Definition perf_counter : C S Q :=
  fun w => let (t, n) := c_perf_counter R (net w) in (Return t, set_net n w).

(** [audio_path.open("rb")], and the bytes read through the handle. *)
Definition open_rb (path : pystr) : C S (list N) :=
  fun w => match c_os_error R (OpenRead path) (net w) with
           | Some e => (Raise e, w)
           | None =>
               match cfs w !! path with
               | Some b => (Return b, w)
               | None => (Raise FileNotFoundError, w)
               end
           end.

Definition requests_post (req : post_request) : C S Z :=
  fun w => let (r, n) := c_post R req (net w) in
           (r, {| cfs := cfs w; net := n; posts := posts w ++ [req]; stdout := stdout w |}).

(** [resp.raise_for_status()]: client and server errors raise. *)
Definition raise_for_status (status : Z) : C S unit :=
  fun w => if (400 <=? status)%Z && (status <? 600)%Z
           then (Raise (HTTPError status), w)
           else (Return tt, w).

(** [run_once]: the latency is a product of floats. *)
Definition run_once (base_url audio_path language : pystr) : C S pyfloat :=
  let+ started := perf_counter in
  let+ fh := open_rb audio_path in
  let+ status :=
    requests_post {| url := base_url ++ py "/transcribe";
                     file_name := c_path_name R audio_path;
                     file_bytes := fh;
                     content_type := py "audio/wav";
                     form_language := language;
                     post_timeout := 120 |} in
  let+ _ := raise_for_status status in
  let+ finished := perf_counter in
  cret (float_mul (float_sub (Finite finished) (Finite started)) (Finite (inject_Z 1000))).

Definition py_print (l : line) : C S unit :=
  fun w => (Return tt,
            {| cfs := cfs w; net := net w; posts := posts w; stdout := stdout w ++ [l] |}).

(** [tempfile.NamedTemporaryFile(suffix=suffix, delete=False)], left at
    once: an empty file under a new name, unless the operating system
    refuses. *)
Definition client_tempfile (suffix : pystr) : C S pystr :=
  fun w => match c_os_error R (CreateTemp suffix) (net w) with
           | Some e => (Raise e, w)
           | None =>
               let (stem, n) := c_temp_stem R (net w) in
               let p := temp_name stem suffix in
               (Return p,
                {| cfs := <[p := []]> (cfs w); net := n; posts := posts w;
                   stdout := stdout w |})
           end.

Definition client_unlink (p : pystr) : C S unit :=
  fun w => (Return tt, set_cfs (delete p (cfs w)) w).

(** The suffix of the clip of [d] seconds. *)
Definition clip_suffix (d : Z) : pystr := py "_" ++ str_int d ++ py "s.wav".

(** The body of the loop of [main], for one duration. *)
Definition iteration (args : Namespace) (d : Z) : C S unit :=
  let+ path := client_tempfile (clip_suffix d) in
  ctry_finally
    (let+ _ := make_silent_wav path d in
     let+ latency := run_once (args_base_url args) path (args_language args) in
     py_print (Row d latency))
    (client_unlink path).

Fixpoint for_each (ds : list Z) (body : Z -> C S unit) : C S unit :=
  match ds with
  | [] => cret tt
  | d :: ds' => let+ _ := body d in for_each ds' body
  end.

(** [main], after the command line is parsed. *)
Definition main (args : Namespace) : C S unit :=
  let+ _ := py_print (Banner (args_base_url args) (args_language args)) in
  let+ _ := py_print Header in
  for_each (py_range (args_min_sec args) (args_max_sec args + 1)) (iteration args).

(** The request [main] posts for the clip of [d] seconds. *)
Definition sent (args : Namespace) (req : post_request) (d : Z) : Prop :=
  url req = args_base_url args ++ py "/transcribe"
  /\ form_language req = args_language args
  /\ content_type req = py "audio/wav"
  /\ post_timeout req = 120%Z
  /\ file_bytes req = c_wave_file R 1 2 16000 (silent_frames d)
  /\ exists stem, file_name req = c_path_name R (temp_name stem (clip_suffix d)).

(** How a turn of the loop for [d] seconds fails before its request: the
    operating system refused a step, or the clip is too long to build. *)
Definition fails_before_post (d : Z) (e : exn) : Prop :=
  (exists step n, c_os_error R step n = Some e)
  \/ (e = OverflowError /\ (2 ^ 62 <= SAMPLE_RATE * d)%Z)
  \/ (e = StructError /\ (4294967295 < 36 + 2 * (SAMPLE_RATE * d))%Z).

(** How a turn of the loop fails at its request: [requests.post] raised, or
    the status was an error status. *)
Definition fails_at_post (e : exn) : Prop :=
  (exists req n, fst (c_post R req n) = Raise e)
  \/ (exists status, e = HTTPError status /\ (400 <= status < 600)%Z).

End Client.

(** An outside for the examples: the state counts the readings of the
    clock, every request is answered with the status [status], the
    temporary names all share one stem, and the operating system refuses
    nothing. *)
Definition counting_client (status : Z) : client_runtime nat :=
  {| c_wave_file := wave_bytes;
     c_path_name := pure_path_name;
     c_post := fun _ n => (Return status, n);
     c_perf_counter := fun n => (inject_Z (Z.of_nat n), Datatypes.S n);
     c_temp_stem := fun n => (py "a1b2", n);
     c_os_error := fun _ _ => None |}.

Definition client_world0 : client_world nat :=
  {| cfs := ∅; net := 0%nat; posts := []; stdout := [] |}.

Definition sample_args : Namespace :=
  {| args_base_url := py "http://127.0.0.1:8099"; args_language := py "auto";
     args_min_sec := 2; args_max_sec := 4 |}.

(** * Properties *)

(** ** The model on the repository's own inputs *)

(** The sentence of [check_term_normalization.py] and its assertions. *)
Example check_term_normalization_sample U :
  _normalize_terms U (py "CLASS CLAUDE CLA cla Cla cLa")
  = py "CLASS CLAUDE CLI cli Cli CLI".
Proof. reflexivity. Qed.

Example normalize_mixed_sentence U :
  _normalize_terms U (py "say Open   claw and subsider agent, FALLBACK!")
  = py "say OpenClaw and subagent, fallback!".
Proof. reflexivity. Qed.

(** An underscore and a digit are word characters: no boundary, no match. *)
Example normalize_underscore U :
  _normalize_terms U (py "CLA_x 9cla Open_claw") = py "CLA_x 9cla Open_claw".
Proof. reflexivity. Qed.

(** U+017F (long s) and U+212A (Kelvin sign) match [s] and [k] under
    [re.IGNORECASE]. *)
Example normalize_folding_letters :
  _normalize_terms minimal_tables ([383; 117; 98; 115; 105; 100; 101; 114] ++ py " agent")%N
  = py "subagent"
  /\ _normalize_terms minimal_tables (py "Fallbac" ++ [8490%N]) = py "fallback".
Proof. split; reflexivity. Qed.

Example strip_sample : strip (py "  Open claw 	") = py "Open claw".
Proof. reflexivity. Qed.

Example upload_suffix_samples :
  upload_suffix sample_runtime sample_upload = py ".wav"
  /\ upload_suffix sample_runtime {| filename := Some (py "talk.mp3"); content := [] |}
     = py ".mp3"
  /\ upload_suffix sample_runtime {| filename := None; content := [] |} = py ".wav"
  /\ upload_suffix sample_runtime {| filename := Some (py "noext"); content := [] |}
     = py ".wav".
Proof. repeat split. Qed.

(** [.name] and [.suffix] as [pathlib] gives them: a dot that starts or
    ends the name, or sits in a directory name, starts no suffix. *)
Example pure_path_samples :
  pure_path_suffix (py ".bashrc") = []
  /\ pure_path_suffix (py "file.") = []
  /\ pure_path_suffix (py "dir.d/name") = []
  /\ pure_path_suffix (py "a.tar.gz") = py ".gz"
  /\ pure_path_name (py "/tmp/tmpa1b2_2s.wav") = py "tmpa1b2_2s.wav"
  /\ upload_suffix sample_runtime {| filename := Some (py ".bashrc"); content := [] |}
     = py ".wav".
Proof. repeat split. Qed.

(** The bytes of a clip of one frame, as [wave] writes them. *)
Example wave_bytes_sample :
  wave_bytes 1 2 16000 [0; 0]%N = [82; 73; 70; 70; 38; 0; 0; 0; 87; 65; 86; 69; 102; 109; 116; 32; 16; 0; 0; 0; 1; 0; 1; 0; 128; 62; 0; 0; 0; 125; 0; 0; 2; 0; 16; 0; 100; 97; 116; 97; 2; 0; 0; 0; 0; 0]%N.
Proof. reflexivity. Qed.

(** Floats: ["0.6"] read as a float lies below the decimal; a request of
    0.000165 seconds shows as 0.17 milliseconds, since the float product is
    the float written 0.165, above the decimal; equal readings give zero;
    an infinity or nan has no integer. *)
Example float_samples :
  to_double (6 # 10) = Finite (Qmake 5404319552844595 9007199254740992)
  /\ elapsed_ms_of 0 (Qmake 760928193040519 4611686018427387904) = PyFloat (Qmake 17 100)
  /\ elapsed_ms_of (3 # 2) (3 # 2) = PyFloat (Qmake 0 100)
  /\ to_double (2 ^ 1024 # 1) = Infinite false
  /\ py_int_float (float_mul (Finite 16000) (Infinite false)) = Raise OverflowError
  /\ py_int_float (float_mul (Finite 16000) NaN) = Raise ValueError.
Proof. vm_compute. repeat split. Qed.

(** A request that succeeds leaves no temporary file; one whose capability
    raises leaves none either and raises. *)
Example transcribe_sample_run :
  let p := temp_name (py "a1b2") (py ".wav") in
  fs (snd (transcribe sample_runtime sample_upload (py "auto") (py "a1b2") 0 (1 # 2) world0))
    !! p = None
  /\ fst (transcribe failing_runtime sample_upload (py "auto") (py "a1b2") 0 (1 # 2) world0)
     = Raise (CapabilityError 1)
  /\ fs (snd (transcribe failing_runtime sample_upload (py "auto") (py "a1b2") 0 (1 # 2) world0))
    !! p = None.
Proof. repeat split. Qed.

(** A request whose upload cannot be read, or whose file cannot be made:
    the handler raises before its [try]; in the first case the file, empty,
    stays on disk. *)
Example transcribe_file_steps_sample :
  let p := temp_name (py "a1b2") (py ".wav") in
  let unread := {| create_error := None; read_error := Some (OSError 5);
                   write_error := None |} in
  let unmade := {| create_error := Some (OSError 36); read_error := None;
                   write_error := None |} in
  transcribe_io sample_runtime unread sample_upload (py "auto") (py "a1b2") 0 (1 # 2) world0
  = (Raise (OSError 5), set_fs (<[p := []]> (fs world0)) world0)
  /\ transcribe_io sample_runtime unmade sample_upload (py "auto") (py "a1b2") 0 (1 # 2)
       world0
     = (Raise (OSError 36), world0).
Proof. split; reflexivity. Qed.

(** After a startup whose warmup returns, [health] reports the flag set;
    before it, and after one whose warmup raises, it does not. *)
Example health_sample_run :
  match health sample_runtime 2 (snd (startup_event sample_runtime (py "a1b2") world0)) with
  | (Return h, _) => h !! "warmed" = Some (PyBool true)
                     /\ h !! "uptime_sec" = Some (PyFloat (Qmake 2000 1000))
  | _ => False
  end
  /\ match health sample_runtime 2 world0 with
     | (Return h, _) => h !! "warmed" = Some (PyBool false)
     | _ => False
     end.
Proof. repeat split. Qed.

(** ** Characters *)

Lemma between_spec lo hi x : between lo hi x = true <-> (lo <= x <= hi)%N.
Proof.
  unfold between. rewrite andb_true_iff, !N.leb_le. tauto.
Qed.

Lemma between_false lo hi x : between lo hi x = false <-> (x < lo \/ hi < x)%N.
Proof.
  unfold between. rewrite andb_false_iff, !N.leb_gt. tauto.
Qed.

Lemma sre_lower_cases x :
  ((65 <= x <= 90)%N /\ sre_lower x = (x + 32)%N)
  \/ (x = 304%N /\ sre_lower x = 105%N)
  \/ (x = 8490%N /\ sre_lower x = 107%N)
  \/ ((x < 65 \/ 90 < x)%N /\ x <> 304%N /\ x <> 8490%N /\ sre_lower x = x).
Proof.
  unfold sre_lower, ascii_isupper.
  destruct (between 65 90 x) eqn:Hb.
  - apply between_spec in Hb. auto.
  - apply between_false in Hb.
    destruct (N.eqb_spec x 304); [auto |].
    destruct (N.eqb_spec x 8490); [auto |].
    do 3 right. auto.
Qed.

Lemma is_letter_spec c :
  is_letter c = true <-> ((65 <= c <= 90) \/ (97 <= c <= 122))%N.
Proof.
  unfold is_letter, ascii_isupper, ascii_islower.
  rewrite orb_true_iff, !between_spec. tauto.
Qed.

Lemma lit_match_spec c x :
  lit_match c x = true <->
  sre_lower x = sre_lower c
  \/ (sre_lower c = 105%N /\ sre_lower x = 305%N)
  \/ (sre_lower c = 115%N /\ sre_lower x = 383%N).
Proof.
  unfold lit_match, fixes. cbv zeta.
  rewrite orb_true_iff, N.eqb_eq.
  destruct (N.eqb_spec (sre_lower c) 105) as [-> | H1]; simpl.
  - rewrite orb_false_r, N.eqb_eq. split; intros [H | H]; auto.
    destruct H as [[_ H] | [H _]]; [auto | discriminate].
  - destruct (N.eqb_spec (sre_lower c) 115) as [-> | H2]; simpl.
    + rewrite orb_false_r, N.eqb_eq. split; intros [H | H]; auto.
      destruct H as [[H _] | [_ H]]; [discriminate | auto].
    + split; intros [H | H]; auto; try discriminate.
      destruct H as [[H _] | [H _]]; contradiction.
Qed.

Lemma lit_match_letter c x :
  is_letter c = true -> lit_match c x = true ->
  is_letter x = true \/ In x fold_specials.
Proof.
  rewrite lit_match_spec, !is_letter_spec. intros Hc H.
  unfold fold_specials. simpl.
  destruct (sre_lower_cases c) as [Hc' | [Hc' | [Hc' | Hc']]];
    destruct (sre_lower_cases x) as [Hx | [Hx | [Hx | Hx]]]; lia.
Qed.

Lemma is_word_letter U x : is_letter x = true -> is_word U x = true.
Proof.
  intros H. unfold is_word.
  assert (Hlt : (x <? 128)%N = true) by (apply N.ltb_lt; apply is_letter_spec in H; lia).
  rewrite Hlt. unfold ascii_isalnum. unfold is_letter in H.
  apply orb_true_iff in H as [H | H]; rewrite H; now rewrite ?orb_true_r.
Qed.

Section CharFacts.

Variable U : unicode_tables.
Hypothesis HU : tables_ok U = true.

Lemma tables_spaces x : In x unicode_spaces -> uni_alnum U x = false.
Proof.
  intros Hin. unfold tables_ok in HU. apply andb_prop in HU as [H _].
  rewrite forallb_forall in H. specialize (H x Hin).
  now apply negb_true_iff in H.
Qed.

Lemma tables_specials x : In x fold_specials -> uni_alnum U x = true.
Proof.
  intros Hin. unfold tables_ok in HU. apply andb_prop in HU as [_ H].
  rewrite forallb_forall in H. now apply H.
Qed.

Lemma space_not_word x : is_space x = true -> is_word U x = false.
Proof.
  unfold is_space, is_word.
  destruct (N.ltb_spec x 128) as [Hlt | Hge].
  - rewrite orb_true_iff, !between_spec. intros H.
    unfold ascii_isalnum, ascii_isdigit, ascii_isupper, ascii_islower.
    rewrite !orb_false_iff, !between_false, N.eqb_neq. lia.
  - intros H. apply existsb_exists in H as (y & Hin & Hy).
    apply N.eqb_eq in Hy. subst y. now apply tables_spaces.
Qed.

Lemma lit_match_word c x :
  is_letter c = true -> lit_match c x = true -> is_word U x = true.
Proof.
  intros Hc H. destruct (lit_match_letter c x Hc H) as [Hx | Hx].
  - now apply is_word_letter.
  - unfold is_word.
    assert (Hge : (x <? 128)%N = false).
    { apply N.ltb_ge. unfold fold_specials in Hx. simpl in Hx. lia. }
    rewrite Hge. now apply tables_specials.
Qed.

End CharFacts.

(** ** The matcher on words and gaps *)

Section Matcher.

Variable U : unicode_tables.
Hypothesis HU : tables_ok U = true.

Lemma match_at_bound p prev s :
  match_at U (Bound :: p) prev s
  = if at_boundary U prev s then match_at U p prev s else None.
Proof. reflexivity. Qed.

Lemma match_at_lit c p prev x s :
  match_at U (Lit c :: p) prev (x :: s)
  = if lit_match c x then option_map S (match_at U p (Some x) s) else None.
Proof. reflexivity. Qed.

Lemma match_at_space p prev x s :
  match_at U (SpacePlus :: p) prev (x :: s)
  = if is_space x then
      match match_at U (SpacePlus :: p) (Some x) s with
      | Some n => Some (S n)
      | None => option_map S (match_at U p (Some x) s)
      end
    else None.
Proof. reflexivity. Qed.

Lemma match_at_space_prev p prev prev' s :
  match_at U (SpacePlus :: p) prev s = match_at U (SpacePlus :: p) prev' s.
Proof. reflexivity. Qed.

Lemma sub_from_cons p repl prev x s :
  sub_from U p repl prev (x :: s) 0
  = match match_at U p prev (x :: s) with
    | Some (S n) => repl (firstn (S n) (x :: s)) ++ sub_from U p repl (Some x) s n
    | _ => x :: sub_from U p repl (Some x) s 0
    end.
Proof. reflexivity. Qed.

Lemma letters_cons c l :
  letters (c :: l) = true -> is_letter c = true /\ (l = [] \/ letters l = true).
Proof.
  unfold letters. simpl. rewrite andb_true_r. intros H.
  apply andb_prop in H as [Hc Hl]. split; [assumption |].
  destruct l; [now left | right]. now rewrite Hl.
Qed.

Lemma match_lit_nonword c p prev s :
  is_letter c = true -> starts_nonword U s -> match_at U (Lit c :: p) prev s = None.
Proof.
  intros Hc Hs. destruct s as [| y s]; [reflexivity |].
  rewrite match_at_lit. destruct (lit_match c y) eqn:Hm; [| reflexivity].
  apply (lit_match_word U HU) in Hm; [| assumption].
  unfold starts_nonword in Hs. simpl in Hs. congruence.
Qed.

Lemma match_bound_inword p prev x s :
  word_opt U prev = true -> is_word U x = true ->
  match_at U (Bound :: p) prev (x :: s) = None.
Proof.
  intros Hp Hx. rewrite match_at_bound. unfold at_boundary. simpl.
  now rewrite Hp, Hx.
Qed.

Lemma match_bound_lit_nonword c p prev s :
  is_letter c = true -> starts_nonword U s ->
  match_at U (Bound :: Lit c :: p) prev s = None.
Proof.
  intros Hc Hs. rewrite match_at_bound.
  destruct (at_boundary U prev s); [| reflexivity].
  now apply match_lit_nonword.
Qed.

(** A pattern that starts with [\b] and a literal has no empty match. *)
Lemma match_at_lit_pos c p prev s : match_at U (Bound :: Lit c :: p) prev s <> Some 0%nat.
Proof.
  rewrite match_at_bound. destruct (at_boundary U prev s); [| discriminate].
  destruct s as [| x s]; [discriminate |].
  rewrite match_at_lit. destruct (lit_match c x); [| discriminate].
  now destruct (match_at U p (Some x) s).
Qed.

(** The literals of a word pattern and its closing [\b], against a word and
    what follows it. *)
Lemma match_word_end l : forall w prev rest,
  (l = [] \/ letters l = true) ->
  forallb (is_word U) w = true ->
  starts_nonword U rest ->
  (l = [] -> word_opt U prev = true) ->
  match_at U (map Lit l ++ [Bound]) prev (w ++ rest)
  = if lits_match l w then Some (length w) else None.
Proof.
  induction l as [| c l IH]; intros w prev rest Hl Hw Hrest Hprev.
  - simpl map. simpl app at 1. rewrite match_at_bound. unfold at_boundary.
    rewrite (Hprev eq_refl). destruct w as [| x w]; simpl.
    + unfold starts_nonword in Hrest. now rewrite Hrest.
    + simpl in Hw. apply andb_prop in Hw as [Hx _]. now rewrite Hx.
  - destruct Hl as [Hl | Hl]; [discriminate |].
    apply letters_cons in Hl as [Hc Hl].
    destruct w as [| x w].
    + simpl. change (match_at U (Lit c :: map Lit l ++ [Bound]) prev rest = None).
      now apply match_lit_nonword.
    + simpl in Hw. apply andb_prop in Hw as [Hx Hw].
      change (match_at U (Lit c :: (map Lit l ++ [Bound])) prev (x :: (w ++ rest))
              = if lit_match c x && lits_match l w then Some (S (length w)) else None).
      rewrite match_at_lit. destruct (lit_match c x); [| reflexivity].
      rewrite IH; auto. simpl. now destruct (lits_match l w).
Qed.

Lemma match_word l w prev rest :
  letters l = true -> word_ok U w = true -> starts_nonword U rest ->
  word_opt U prev = false ->
  match_at U (Bound :: map Lit l ++ [Bound]) prev (w ++ rest)
  = if lits_match l w then Some (length w) else None.
Proof.
  intros Hl Hw Hrest Hprev. unfold word_ok in Hw. apply andb_prop in Hw as [Hw Hne].
  rewrite match_at_bound. unfold at_boundary. rewrite Hprev.
  destruct w as [| x w]; [discriminate |].
  assert (Hx : is_word U x = true) by (simpl in Hw; now apply andb_prop in Hw as [Hx _]).
  simpl head. simpl word_opt. rewrite Hx. simpl negb. cbv iota.
  apply match_word_end; auto.
  intros ->. discriminate.
Qed.

(** [\s+] and what follows it, against a gap and what follows it. *)
Lemma match_spaces p2 : forall g prev rest,
  (forall prev' s, starts_nonword U s -> match_at U p2 prev' s = None) ->
  gap_ok U g = true ->
  match rest with [] => True | y :: _ => is_word U y = true end ->
  match_at U (SpacePlus :: p2) prev (g ++ rest)
  = if forallb is_space g && match g with [] => false | _ => true end
    then option_map (Nat.add (length g)) (match_at U p2 (last_opt prev g) rest)
    else None.
Proof.
  intros g prev rest Hp2. revert prev.
  induction g as [| x g IH]; intros prev Hg Hrest.
  - change (match_at U (SpacePlus :: p2) prev rest = None).
    destruct rest as [| y rest]; [reflexivity |].
    rewrite match_at_space. destruct (is_space y) eqn:Hy; [| reflexivity].
    apply (space_not_word U HU) in Hy. congruence.
  - simpl in Hg. apply andb_prop in Hg as [Hx Hg]. apply negb_true_iff in Hx.
    change ((x :: g) ++ rest) with (x :: (g ++ rest)).
    rewrite match_at_space. simpl forallb.
    destruct (is_space x) eqn:Hsx; [| reflexivity].
    rewrite (IH (Some x) Hg Hrest). simpl andb.
    destruct g as [| y g'].
    + simpl. now destruct (match_at U p2 (Some x) rest).
    + rewrite andb_true_r.
      assert (Hfb : match_at U p2 (Some x) ((y :: g') ++ rest) = None).
      { apply Hp2. unfold starts_nonword. simpl. simpl in Hg.
        apply andb_prop in Hg as [Hy _]. now apply negb_true_iff in Hy. }
      rewrite Hfb. simpl option_map at 2.
      change (last_opt prev (x :: y :: g')) with (last_opt (Some x) (y :: g')).
      destruct (forallb is_space (y :: g')); [| reflexivity].
      now destruct (match_at U p2 (last_opt (Some x) (y :: g')) rest).
Qed.

(** The literals of the first word of a two-word pattern. *)
Lemma match_pair_head l1 p2 : forall w prev rest,
  (l1 = [] \/ letters l1 = true) ->
  forallb (is_word U) w = true ->
  starts_nonword U rest ->
  match_at U (map Lit l1 ++ SpacePlus :: p2) prev (w ++ rest)
  = if lits_match l1 w
    then option_map (Nat.add (length w)) (match_at U (SpacePlus :: p2) None rest)
    else None.
Proof.
  induction l1 as [| c l IH]; intros w prev rest Hl Hw Hrest.
  - simpl map. simpl app at 1. destruct w as [| x w].
    + simpl. rewrite (match_at_space_prev p2 prev None).
      now destruct (match_at U (SpacePlus :: p2) None rest).
    + simpl in Hw. apply andb_prop in Hw as [Hx _].
      change ((x :: w) ++ rest) with (x :: (w ++ rest)).
      rewrite match_at_space. simpl lits_match.
      destruct (is_space x) eqn:Hsx; [| reflexivity].
      apply (space_not_word U HU) in Hsx. congruence.
  - destruct Hl as [Hl | Hl]; [discriminate |].
    apply letters_cons in Hl as [Hc Hl].
    destruct w as [| x w].
    + simpl. change (match_at U (Lit c :: map Lit l ++ SpacePlus :: p2) prev rest = None).
      now apply match_lit_nonword.
    + simpl in Hw. apply andb_prop in Hw as [Hx Hw].
      change (match_at U (Lit c :: (map Lit l ++ SpacePlus :: p2)) prev (x :: (w ++ rest))
              = if lit_match c x && lits_match l w
                then option_map (Nat.add (S (length w))) (match_at U (SpacePlus :: p2) None rest)
                else None).
      rewrite match_at_lit. destruct (lit_match c x); [| reflexivity].
      rewrite IH; auto. cbn [andb].
      destruct (lits_match l w); [| reflexivity].
      now destruct (match_at U (SpacePlus :: p2) None rest).
Qed.

End Matcher.

(** ** [re.sub] on words and gaps *)

Section Substitution.

Variable U : unicode_tables.
Hypothesis HU : tables_ok U = true.

Lemma word_ok_cons w :
  word_ok U w = true ->
  exists x w', w = x :: w' /\ is_word U x = true /\ forallb (is_word U) w' = true.
Proof.
  unfold word_ok. intros H. apply andb_prop in H as [Hw Hne].
  destruct w as [| x w']; [discriminate |].
  simpl in Hw. apply andb_prop in Hw as [Hx Hw]. eauto.
Qed.

Lemma word_ok_all w : word_ok U w = true -> forallb (is_word U) w = true.
Proof. unfold word_ok. intros H. now apply andb_prop in H as [Hw _]. Qed.

Lemma starts_nonword_gap g s :
  gap_ok U g = true -> (g <> [] \/ starts_nonword U s) -> starts_nonword U (g ++ s).
Proof.
  intros Hg Hor. destruct g as [| x g].
  - destruct Hor as [Hne | Hs]; [congruence | exact Hs].
  - simpl in Hg. apply andb_prop in Hg as [Hx _]. apply negb_true_iff in Hx.
    exact Hx.
Qed.

Lemma starts_nonword_nil : starts_nonword U [].
Proof. reflexivity. Qed.

Lemma last_opt_app prev u v : last_opt prev (u ++ v) = last_opt (last_opt prev u) v.
Proof. revert prev. induction u as [| x u IH]; intros prev; simpl; auto. Qed.

Lemma last_opt_word prev w :
  word_ok U w = true -> word_opt U (last_opt prev w) = true.
Proof.
  intros H. apply word_ok_cons in H as (x & w' & -> & Hx & Hw). simpl.
  revert x Hx. induction w' as [| y w' IH]; intros x Hx; simpl.
  - exact Hx.
  - simpl in Hw. apply andb_prop in Hw as [Hy Hw]. now apply IH.
Qed.

Lemma last_opt_gap prev g :
  gap_ok U g = true -> word_opt U prev = false \/ g <> [] ->
  word_opt U (last_opt prev g) = false.
Proof.
  revert prev. induction g as [| x g IH]; intros prev Hg Hor; simpl.
  - destruct Hor as [Hp | Hne]; [exact Hp | congruence].
  - simpl in Hg. apply andb_prop in Hg as [Hx Hg]. apply negb_true_iff in Hx.
    apply IH; [exact Hg | now left].
Qed.

Lemma anchored_nonword l q prev s :
  letters l = true -> starts_nonword U s ->
  match_at U (Bound :: map Lit l ++ q) prev s = None.
Proof.
  intros Hl Hs. destruct l as [| c l]; [discriminate |].
  apply letters_cons in Hl as [Hc _].
  now apply match_bound_lit_nonword.
Qed.

Lemma match_pair l1 l2 w1 g2 w2 rest prev :
  letters l1 = true -> letters l2 = true ->
  word_ok U w1 = true -> gap_ok U g2 = true -> g2 <> [] -> word_ok U w2 = true ->
  starts_nonword U rest -> word_opt U prev = false ->
  match_at U (Bound :: map Lit l1 ++ SpacePlus :: map Lit l2 ++ [Bound]) prev
    (w1 ++ g2 ++ w2 ++ rest)
  = if pair_match l1 l2 w1 g2 w2
    then Some (length w1 + (length g2 + length w2))%nat
    else None.
Proof.
  intros Hl1 Hl2 Hw1 Hg2 Hne Hw2 Hrest Hprev.
  rewrite match_at_bound. unfold at_boundary. rewrite Hprev.
  destruct (word_ok_cons _ Hw1) as (x & w1' & -> & Hx & Hw1').
  simpl head. simpl word_opt. rewrite Hx. simpl negb. cbv iota.
  rewrite (match_pair_head U HU); auto.
  2:{ simpl. now rewrite Hx, Hw1'. }
  2:{ apply starts_nonword_gap; auto. }
  unfold pair_match.
  destruct (lits_match l1 (x :: w1')); [| reflexivity]. cbn [andb].
  rewrite (match_spaces U HU).
  - destruct g2 as [| y g2]; [congruence |]. rewrite andb_true_r.
    destruct (forallb is_space (y :: g2)); [| reflexivity]. cbn [andb].
    rewrite (match_word_end U HU); auto.
    + destruct (lits_match l2 w2); reflexivity.
    + now apply word_ok_all.
    + intros ->. discriminate.
  - intros prev' s Hs. destruct l2 as [| c l2]; [discriminate |].
    apply letters_cons in Hl2 as [Hc _]. now apply match_lit_nonword.
  - exact Hg2.
  - destruct (word_ok_cons _ Hw2) as (y & w2' & -> & Hy & _). exact Hy.
Qed.

Lemma match_pair_last l1 l2 w1 tail prev :
  letters l1 = true -> letters l2 = true ->
  word_ok U w1 = true -> gap_ok U tail = true -> word_opt U prev = false ->
  match_at U (Bound :: map Lit l1 ++ SpacePlus :: map Lit l2 ++ [Bound]) prev
    (w1 ++ tail) = None.
Proof.
  intros Hl1 Hl2 Hw1 Htail Hprev.
  rewrite match_at_bound. destruct (at_boundary U prev (w1 ++ tail)); [| reflexivity].
  rewrite (match_pair_head U HU); auto.
  2:{ now apply word_ok_all. }
  2:{ rewrite <- (app_nil_r tail). apply starts_nonword_gap; auto.
      right. apply starts_nonword_nil. }
  destruct (lits_match l1 w1); [| reflexivity].
  rewrite <- (app_nil_r tail).
  rewrite (match_spaces U HU); auto.
  - assert (Hnil : forall prev', match_at U (map Lit l2 ++ [Bound]) prev' [] = None).
    { intros prev'. destruct l2 as [| c l2]; [discriminate | reflexivity]. }
    rewrite Hnil. now destruct (forallb is_space tail && _).
  - intros prev' s Hs. destruct l2 as [| c l2]; [discriminate |].
    apply letters_cons in Hl2 as [Hc _]. now apply match_lit_nonword.
Qed.

Lemma sub_skip p repl : forall u prev rest,
  sub_from U p repl prev (u ++ rest) (length u)
  = sub_from U p repl (last_opt prev u) rest 0.
Proof.
  induction u as [| x u IH]; intros prev rest.
  - reflexivity.
  - simpl. destruct rest; apply IH.
Qed.

Lemma sub_gap l q repl : letters l = true -> forall g prev rest,
  gap_ok U g = true ->
  sub_from U (Bound :: map Lit l ++ q) repl prev (g ++ rest) 0
  = g ++ sub_from U (Bound :: map Lit l ++ q) repl (last_opt prev g) rest 0.
Proof.
  intros Hl. induction g as [| x g IH]; intros prev rest Hg.
  - reflexivity.
  - simpl in Hg. apply andb_prop in Hg as [Hx Hg].
    change ((x :: g) ++ rest) with (x :: (g ++ rest)).
    rewrite sub_from_cons, anchored_nonword; auto.
    + rewrite IH; auto.
    + apply negb_true_iff in Hx. exact Hx.
Qed.

Lemma sub_inword p repl : forall u prev rest,
  forallb (is_word U) u = true -> word_opt U prev = true ->
  sub_from U (Bound :: p) repl prev (u ++ rest) 0
  = u ++ sub_from U (Bound :: p) repl (last_opt prev u) rest 0.
Proof.
  induction u as [| x u IH]; intros prev rest Hu Hprev.
  - reflexivity.
  - simpl in Hu. apply andb_prop in Hu as [Hx Hu].
    change ((x :: u) ++ rest) with (x :: (u ++ rest)).
    rewrite sub_from_cons, match_bound_inword; auto.
    rewrite IH; auto.
Qed.

Lemma sub_word l repl w prev rest :
  letters l = true -> word_ok U w = true -> starts_nonword U rest ->
  word_opt U prev = false ->
  sub_from U (Bound :: map Lit l ++ [Bound]) repl prev (w ++ rest) 0
  = word_rule l repl w
    ++ sub_from U (Bound :: map Lit l ++ [Bound]) repl (last_opt prev w) rest 0.
Proof.
  intros Hl Hw Hrest Hprev.
  pose proof (match_word U HU l w prev rest Hl Hw Hrest Hprev) as Hm.
  destruct (word_ok_cons _ Hw) as (x & w' & -> & Hx & Hw').
  change ((x :: w') ++ rest) with (x :: (w' ++ rest)) in *.
  rewrite sub_from_cons, Hm. unfold word_rule.
  destruct (lits_match l (x :: w')).
  - simpl length. cbv iota beta.
    change (x :: w' ++ rest) with ((x :: w') ++ rest) at 1.
    replace (firstn (S (length w')) ((x :: w') ++ rest)) with (x :: w')
      by (symmetry; apply (take_app_length (x :: w'))).
    now rewrite sub_skip.
  - rewrite sub_inword; auto.
Qed.

End Substitution.

(** ** The five substitutions as maps over words *)

Lemma list_pair_ind {A : Type} (P : list A -> Prop) :
  P [] -> (forall x, P [x]) ->
  (forall x y l, P l -> P (y :: l) -> P (x :: y :: l)) ->
  forall l, P l.
Proof.
  intros Hnil Hone Hstep.
  assert (H : forall l, P l /\ forall x, P (x :: l)).
  { induction l as [| y l [IH1 IH2]].
    - split; [exact Hnil | exact Hone].
    - split; [apply IH2 |]. intros x. apply Hstep; [exact IH1 | apply IH2]. }
  intros l. apply H.
Qed.

Lemma flatten_nil tail : flatten [] tail = tail.
Proof. reflexivity. Qed.

Lemma flatten_cons g w its tail :
  flatten ((g, w) :: its) tail = g ++ w ++ flatten its tail.
Proof. unfold flatten. simpl. now rewrite <- !app_assoc. Qed.

Section Bridge.

Variable U : unicode_tables.
Hypothesis HU : tables_ok U = true.

Lemma item_ok_inv first g w :
  item_ok U first (g, w) = true ->
  gap_ok U g = true /\ word_ok U w = true /\ (first = true \/ g <> []).
Proof.
  unfold item_ok. simpl. intros H.
  apply andb_prop in H as [H Hf]. apply andb_prop in H as [Hg Hw].
  repeat split; auto.
  destruct first; [now left | right]. destruct g; [discriminate | congruence].
Qed.

Lemma starts_nonword_tail g : gap_ok U g = true -> starts_nonword U g.
Proof.
  intros Hg. rewrite <- (app_nil_r g). apply starts_nonword_gap; auto.
  right. apply starts_nonword_nil.
Qed.

Lemma starts_nonword_flatten its tail :
  items_ok U false its = true -> gap_ok U tail = true ->
  starts_nonword U (flatten its tail).
Proof.
  intros Hits Htail. destruct its as [| [g w] its].
  - rewrite flatten_nil. now apply starts_nonword_tail.
  - simpl in Hits. apply andb_prop in Hits as [Hit _].
    apply item_ok_inv in Hit as (Hg & _ & [Hf | Hne]); [discriminate |].
    rewrite flatten_cons. apply starts_nonword_gap; auto.
Qed.

Lemma sub_tail l q repl tail prev :
  letters l = true -> gap_ok U tail = true ->
  sub_from U (Bound :: map Lit l ++ q) repl prev tail 0 = tail.
Proof.
  intros Hl Htail. rewrite <- (app_nil_r tail) at 1.
  rewrite (sub_gap U HU); auto. simpl. apply app_nil_r.
Qed.

Lemma sub_word_items l repl tail :
  letters l = true -> gap_ok U tail = true ->
  forall its first prev,
    items_ok U first its = true ->
    (first = true -> word_opt U prev = false) ->
    sub_from U (Bound :: map Lit l ++ [Bound]) repl prev (flatten its tail) 0
    = flatten (map_words (word_rule l repl) its) tail.
Proof.
  intros Hl Htail. induction its as [| [g w] its IH]; intros first prev Hok Hprev.
  - simpl map_words. rewrite !flatten_nil. now apply sub_tail.
  - simpl in Hok. apply andb_prop in Hok as [Hit Hits].
    apply item_ok_inv in Hit as (Hg & Hw & Hf).
    simpl map_words. rewrite !flatten_cons.
    rewrite (sub_gap U HU); auto. f_equal.
    rewrite (sub_word U HU); auto.
    + f_equal. apply (IH false); auto. intros; discriminate.
    + now apply starts_nonword_flatten.
    + apply last_opt_gap; auto. destruct Hf as [-> | Hne]; auto.
Qed.

Lemma sub_match p repl x u rest prev :
  match_at U p prev (x :: u ++ rest) = Some (S (length u)) ->
  sub_from U p repl prev (x :: u ++ rest) 0
  = repl (x :: u) ++ sub_from U p repl (last_opt (Some x) u) rest 0.
Proof.
  intros Hm. rewrite sub_from_cons, Hm.
  change (x :: u ++ rest) with ((x :: u) ++ rest).
  replace (firstn (S (length u)) ((x :: u) ++ rest)) with (x :: u)
    by (symmetry; apply (take_app_length (x :: u))).
  now rewrite sub_skip.
Qed.

Lemma sub_nomatch p repl w rest prev :
  match_at U (Bound :: p) prev (w ++ rest) = None -> word_ok U w = true ->
  sub_from U (Bound :: p) repl prev (w ++ rest) 0
  = w ++ sub_from U (Bound :: p) repl (last_opt prev w) rest 0.
Proof.
  intros Hm Hw. destruct (word_ok_cons _ _ Hw) as (x & w' & -> & Hx & Hw').
  change ((x :: w') ++ rest) with (x :: (w' ++ rest)) in *.
  rewrite sub_from_cons, Hm. rewrite sub_inword; auto.
Qed.

Lemma sub_pair_items l1 l2 new tail :
  letters l1 = true -> letters l2 = true -> gap_ok U tail = true ->
  forall its first prev,
    items_ok U first its = true ->
    (first = true -> word_opt U prev = false) ->
    sub_from U (Bound :: map Lit l1 ++ SpacePlus :: map Lit l2 ++ [Bound])
      (fun _ => new) prev (flatten its tail) 0
    = flatten (merge_pairs l1 l2 new its) tail.
Proof.
  intros Hl1 Hl2 Htail.
  induction its as [| [g w] | [g1 w1] [g2 w2] its IH1 IH2] using list_pair_ind;
    intros first prev Hok Hprev.
  - simpl merge_pairs. rewrite !flatten_nil. now apply sub_tail.
  - simpl in Hok. rewrite andb_true_r in Hok.
    apply item_ok_inv in Hok as (Hg & Hw & Hf).
    simpl merge_pairs. rewrite !flatten_cons, !flatten_nil.
    rewrite (sub_gap U HU); auto. f_equal.
    rewrite sub_nomatch; auto.
    + f_equal. now apply sub_tail.
    + apply (match_pair_last U HU); auto.
      apply last_opt_gap; auto. destruct Hf as [-> | Hne]; auto.
  - simpl in Hok. apply andb_prop in Hok as [Hit1 Hok].
    apply andb_prop in Hok as [Hit2 Hits].
    apply item_ok_inv in Hit1 as (Hg1 & Hw1 & Hf1).
    apply item_ok_inv in Hit2 as (Hg2 & Hw2 & [Hf2 | Hne2]); [discriminate |].
    assert (Hp1 : word_opt U (last_opt prev g1) = false).
    { apply last_opt_gap; auto. destruct Hf1 as [-> | Hne]; auto. }
    assert (Hrest : starts_nonword U (flatten its tail))
      by now apply starts_nonword_flatten.
    pose proof (match_pair U HU l1 l2 w1 g2 w2 (flatten its tail) (last_opt prev g1)
                  Hl1 Hl2 Hw1 Hg2 Hne2 Hw2 Hrest Hp1) as Hm.
    rewrite !flatten_cons. rewrite (sub_gap U HU); auto.
    simpl merge_pairs. cbn [fst snd].
    destruct (pair_match l1 l2 w1 g2 w2).
    + rewrite flatten_cons. f_equal.
      destruct (word_ok_cons _ _ Hw1) as (x & w1' & -> & Hx & Hw1').
      replace ((x :: w1') ++ g2 ++ w2 ++ flatten its tail)
        with (x :: (w1' ++ g2 ++ w2) ++ flatten its tail) in *
        by (simpl; now rewrite <- !app_assoc).
      rewrite sub_match.
      * f_equal. apply (IH1 false); auto. intros; discriminate.
      * rewrite Hm. f_equal. simpl. rewrite !length_app. lia.
    + rewrite flatten_cons. f_equal.
      rewrite sub_nomatch; auto. f_equal.
      rewrite <- flatten_cons. apply (IH2 false).
      * simpl. rewrite Hits, andb_true_r.
        unfold item_ok. simpl. rewrite Hg2, Hw2. simpl.
        destruct g2; [congruence | reflexivity].
      * intros; discriminate.
Qed.

End Bridge.

(** ** Fixed points of the maps over words *)

Lemma map_words_fixed f its : fixed_by f its -> map_words f its = its.
Proof.
  induction 1 as [| [g w] its Hw _ IH]; simpl; [reflexivity |].
  simpl in Hw. now rewrite Hw, IH.
Qed.

Lemma word_rule_cases l repl w :
  word_rule l repl w = repl w \/ (lits_match l w = false /\ word_rule l repl w = w).
Proof. unfold word_rule. destruct (lits_match l w); auto. Qed.

Lemma fixed_rule_self l repl its :
  (forall w, word_rule l repl (repl w) = repl w) ->
  fixed_by (word_rule l repl) (map_words (word_rule l repl) its).
Proof.
  intros Hr. unfold fixed_by. induction its as [| [g w] its IH]; simpl; constructor; auto.
  simpl. destruct (word_rule_cases l repl w) as [-> | [Hm ->]]; [apply Hr |].
  unfold word_rule. now rewrite Hm.
Qed.

Lemma fixed_rule_other f l repl its :
  (forall w, f (repl w) = repl w) ->
  fixed_by f its -> fixed_by f (map_words (word_rule l repl) its).
Proof.
  intros Hr. unfold fixed_by. induction 1 as [| [g w] its Hw _ IH]; simpl; constructor; auto.
  simpl in *. destruct (word_rule_cases l repl w) as [-> | [_ ->]]; auto.
Qed.

Lemma fixed_merge f l1 l2 new : f new = new ->
  forall its, fixed_by f its -> fixed_by f (merge_pairs l1 l2 new its).
Proof.
  intros Hnew. unfold fixed_by.
  induction its as [| x | x y its IH1 IH2] using list_pair_ind; intros Hfix.
  - constructor.
  - exact Hfix.
  - simpl. inversion Hfix as [| ? ? Hx Hrest]; subst.
    inversion Hrest as [| ? ? Hy Hits]; subst.
    destruct (pair_match l1 l2 (snd x) (fst y) (snd y)).
    + constructor; [exact Hnew | now apply IH1].
    + constructor; [exact Hx | now apply IH2].
Qed.

Lemma merge_no_pair l1 l2 new its :
  no_pair l1 l2 its = true -> merge_pairs l1 l2 new its = its.
Proof.
  induction its as [| x its IH]; [reflexivity |].
  simpl. intros H. apply andb_prop in H as [Hxy Hrest].
  destruct its as [| y its]; [reflexivity |].
  apply negb_true_iff in Hxy. rewrite Hxy. f_equal. now apply IH.
Qed.

Lemma merge_head l1 l2 new y its :
  exists it r, merge_pairs l1 l2 new (y :: its) = it :: r
               /\ fst it = fst y /\ (snd it = snd y \/ snd it = new).
Proof.
  simpl. destruct its as [| z its].
  - exists y, []. auto.
  - destruct (pair_match l1 l2 (snd y) (fst z) (snd z)); eexists _, _; split; eauto.
Qed.

Lemma merge_pairs_cons l1 l2 new x y its :
  merge_pairs l1 l2 new (x :: y :: its)
  = if pair_match l1 l2 (snd x) (fst y) (snd y)
    then (fst x, new) :: merge_pairs l1 l2 new its
    else x :: merge_pairs l1 l2 new (y :: its).
Proof. reflexivity. Qed.

Lemma pair_match_left l1 l2 w1 g2 w2 :
  lits_match l1 w1 = false -> pair_match l1 l2 w1 g2 w2 = false.
Proof. unfold pair_match. now intros ->. Qed.

Lemma pair_match_right l1 l2 w1 g2 w2 :
  lits_match l2 w2 = false -> pair_match l1 l2 w1 g2 w2 = false.
Proof. unfold pair_match. intros ->. apply andb_false_r. Qed.

Lemma no_pair_cons l1 l2 x y its :
  no_pair l1 l2 (x :: y :: its)
  = negb (pair_match l1 l2 (snd x) (fst y) (snd y)) && no_pair l1 l2 (y :: its).
Proof. reflexivity. Qed.

(** After merging with a word that is neither half of the pattern [l1 l2],
    the text holds the pairs it held before, or fewer. *)
Lemma no_pair_merge l1 l2 l1' l2' new :
  lits_match l1 new = false -> lits_match l2 new = false ->
  forall its,
    (no_pair l1 l2 its = true \/ (l1' = l1 /\ l2' = l2)) ->
    no_pair l1 l2 (merge_pairs l1' l2' new its) = true.
Proof.
  intros Hn1 Hn2.
  induction its as [| x | x y its IH1 IH2] using list_pair_ind; intros Hor.
  - reflexivity.
  - reflexivity.
  - assert (Hrest : no_pair l1 l2 (y :: its) = true \/ (l1' = l1 /\ l2' = l2)).
    { destruct Hor as [H | H]; [left | now right].
      rewrite no_pair_cons in H. now apply andb_prop in H as [_ H]. }
    assert (Hrest' : no_pair l1 l2 its = true \/ (l1' = l1 /\ l2' = l2)).
    { destruct Hrest as [H | H]; [left | now right].
      simpl in H. now apply andb_prop in H as [_ H]. }
    rewrite merge_pairs_cons.
    destruct (pair_match l1' l2' (snd x) (fst y) (snd y)) eqn:Hpm.
    + specialize (IH1 Hrest').
      destruct (merge_pairs l1' l2' new its) as [| z r] eqn:Hmerge; [reflexivity |].
      rewrite no_pair_cons, IH1. cbn [fst snd].
      now rewrite pair_match_left.
    + specialize (IH2 Hrest).
      destruct (merge_head l1' l2' new y its) as (it & r & Heq & Hg & Hw).
      rewrite Heq in *. rewrite no_pair_cons, IH2, andb_true_r, Hg.
      apply negb_true_iff. destruct Hw as [-> | ->].
      * destruct Hor as [H | [-> ->]]; [| exact Hpm].
        rewrite no_pair_cons in H. apply andb_prop in H as [H _].
        now apply negb_true_iff in H.
      * now apply pair_match_right.
Qed.

Lemma no_pair_rule l1 l2 l repl :
  (forall w, lits_match l1 (repl w) = false) ->
  (forall w, lits_match l2 (repl w) = false) ->
  forall its, no_pair l1 l2 its = true ->
    no_pair l1 l2 (map_words (word_rule l repl) its) = true.
Proof.
  intros H1 H2.
  assert (Hkeep : forall w1 g w2,
    pair_match l1 l2 w1 g w2 = false ->
    pair_match l1 l2 (word_rule l repl w1) g (word_rule l repl w2) = false).
  { intros w1 g w2 Hpm.
    destruct (word_rule_cases l repl w1) as [-> | [_ ->]];
      [now apply pair_match_left |].
    destruct (word_rule_cases l repl w2) as [-> | [_ ->]];
      [now apply pair_match_right | exact Hpm]. }
  induction its as [| x its IH]; [reflexivity |].
  intros H. destruct its as [| y its]; [reflexivity |].
  rewrite no_pair_cons in H. apply andb_prop in H as [Hxy Hrest].
  change (map_words (word_rule l repl) (x :: y :: its))
    with ((fst x, word_rule l repl (snd x))
          :: (fst y, word_rule l repl (snd y)) :: map_words (word_rule l repl) its).
  rewrite no_pair_cons. cbn [fst snd].
  apply negb_true_iff in Hxy. rewrite (Hkeep _ _ _ Hxy). simpl negb.
  now apply IH.
Qed.

(** ** [_normalize_terms] on words and gaps *)

Section Normalizer.

Variable U : unicode_tables.
Hypothesis HU : tables_ok U = true.

Lemma case_aware_cli_cases token :
  _case_aware_cli U token = py "CLI"
  \/ _case_aware_cli U token = py "cli"
  \/ _case_aware_cli U token = py "Cli".
Proof.
  unfold _case_aware_cli.
  destruct (isupper U token); [auto |].
  destruct (islower U token); [auto |].
  destruct (isupper U (firstn 1 token) && islower U (skipn 1 token)); auto.
Qed.

Lemma items_ok_rule l repl :
  (forall w, word_ok U (repl w) = true) ->
  forall its first, items_ok U first its = true ->
    items_ok U first (map_words (word_rule l repl) its) = true.
Proof.
  intros Hr. induction its as [| [g w] its IH]; intros first Hok; [reflexivity |].
  simpl in Hok. apply andb_prop in Hok as [Hit Hits].
  simpl. rewrite (IH false Hits), andb_true_r.
  unfold item_ok in *. cbn [fst snd] in *.
  apply andb_prop in Hit as [Hit Hf]. apply andb_prop in Hit as [Hg Hw].
  rewrite Hg, Hf, andb_true_r. simpl.
  destruct (word_rule_cases l repl w) as [-> | [_ ->]]; auto.
Qed.

Lemma items_ok_merge l1 l2 new :
  word_ok U new = true ->
  forall its first, items_ok U first its = true ->
    items_ok U first (merge_pairs l1 l2 new its) = true.
Proof.
  intros Hnew.
  induction its as [| x | x y its IH1 IH2] using list_pair_ind; intros first Hok.
  - reflexivity.
  - exact Hok.
  - rewrite merge_pairs_cons.
    change (item_ok U first x && items_ok U false (y :: its) = true) in Hok.
    apply andb_prop in Hok as [Hx Hrest].
    destruct (pair_match l1 l2 (snd x) (fst y) (snd y)).
    + change (item_ok U first (fst x, new)
              && items_ok U false (merge_pairs l1 l2 new its) = true).
      rewrite IH1, andb_true_r.
      * unfold item_ok in *. cbn [fst snd].
        apply andb_prop in Hx as [Hx Hf]. apply andb_prop in Hx as [Hg _].
        now rewrite Hg, Hnew, Hf.
      * simpl in Hrest. now apply andb_prop in Hrest as [_ H].
    + change (item_ok U first x
              && items_ok U false (merge_pairs l1 l2 new (y :: its)) = true).
      now rewrite Hx, IH2.
Qed.

Lemma normalize_flatten its tail :
  items_ok U true its = true -> gap_ok U tail = true ->
  _normalize_terms U (flatten its tail) = flatten (normalize_items U its) tail
  /\ items_ok U true (normalize_items U its) = true.
Proof.
  intros Hok Htail.
  unfold _normalize_terms, normalize_items, re_sub, re_SubsiderAgent,
    re_Subsider_Agent, re_CLA, re_Fallback, re_Open_claw, lits. cbv zeta.
  assert (Hcli : forall w, word_ok U (_case_aware_cli U w) = true).
  { intros w. destruct (case_aware_cli_cases w) as [-> | [-> | ->]]; reflexivity. }
  assert (Hnone : true = true -> word_opt U None = false) by reflexivity.
  pose proof (items_ok_rule (py "SubsiderAgent") (fun _ => py "subagent")
                (fun _ => eq_refl) its true Hok) as H1.
  pose proof (items_ok_merge (py "Subsider") (py "Agent") (py "subagent")
                eq_refl _ true H1) as H2.
  pose proof (items_ok_rule (py "CLA") (_case_aware_cli U) Hcli _ true H2) as H3.
  pose proof (items_ok_rule (py "Fallback") (fun _ => py "fallback")
                (fun _ => eq_refl) _ true H3) as H4.
  pose proof (items_ok_merge (py "Open") (py "claw") (py "OpenClaw")
                eq_refl _ true H4) as H5.
  split; [| exact H5].
  rewrite (sub_word_items U HU (py "SubsiderAgent") _ tail eq_refl Htail its true None Hok Hnone).
  rewrite (sub_pair_items U HU (py "Subsider") (py "Agent") _ tail eq_refl eq_refl Htail
             _ true None H1 Hnone).
  rewrite (sub_word_items U HU (py "CLA") _ tail eq_refl Htail _ true None H2 Hnone).
  rewrite (sub_word_items U HU (py "Fallback") _ tail eq_refl Htail _ true None H3 Hnone).
  rewrite (sub_pair_items U HU (py "Open") (py "claw") _ tail eq_refl eq_refl Htail
             _ true None H4 Hnone).
  reflexivity.
Qed.

(** The words and gaps that come out of the five substitutions are left
    alone by each of them. *)
Lemma normalize_items_idem its :
  normalize_items U (normalize_items U its) = normalize_items U its.
Proof.
  assert (Hcli : forall (P : pystr -> Prop),
    P (py "CLI") -> P (py "cli") -> P (py "Cli") -> forall w, P (_case_aware_cli U w)).
  { intros P H1 H2 H3 w.
    destruct (case_aware_cli_cases w) as [-> | [-> | ->]]; assumption. }
  set (f1 := word_rule (py "SubsiderAgent") (fun _ => py "subagent")).
  set (f3 := word_rule (py "CLA") (_case_aware_cli U)).
  set (f4 := word_rule (py "Fallback") (fun _ => py "fallback")).
  set (m2 := merge_pairs (py "Subsider") (py "Agent") (py "subagent")).
  set (m5 := merge_pairs (py "Open") (py "claw") (py "OpenClaw")).
  assert (E : normalize_items U its
              = m5 (map_words f4 (map_words f3 (m2 (map_words f1 its)))))
    by reflexivity.
  set (I := normalize_items U its) in *.
  assert (F1 : fixed_by f1 I).
  { rewrite E. apply fixed_merge; [reflexivity |].
    apply fixed_rule_other; [reflexivity |].
    apply fixed_rule_other;
      [intros w; apply (Hcli (fun v => f1 v = v)); reflexivity |].
    apply fixed_merge; [reflexivity |].
    apply fixed_rule_self. reflexivity. }
  assert (P2 : no_pair (py "Subsider") (py "Agent") I = true).
  { rewrite E. apply no_pair_merge; [reflexivity | reflexivity | left].
    apply no_pair_rule; [reflexivity | reflexivity |].
    apply no_pair_rule;
      [intros w; apply (Hcli (fun v => lits_match (py "Subsider") v = false)); reflexivity
      |intros w; apply (Hcli (fun v => lits_match (py "Agent") v = false)); reflexivity |].
    apply no_pair_merge; [reflexivity | reflexivity | now right]. }
  assert (F3 : fixed_by f3 I).
  { rewrite E. apply fixed_merge; [reflexivity |].
    apply fixed_rule_other; [reflexivity |].
    apply fixed_rule_self.
    intros w; apply (Hcli (fun v => f3 v = v)); reflexivity. }
  assert (F4 : fixed_by f4 I).
  { rewrite E. apply fixed_merge; [reflexivity |].
    apply fixed_rule_self. reflexivity. }
  assert (P5 : no_pair (py "Open") (py "claw") I = true).
  { rewrite E. apply no_pair_merge; [reflexivity | reflexivity | now right]. }
  change (m5 (map_words f4 (map_words f3 (m2 (map_words f1 I)))) = I).
  rewrite (map_words_fixed f1 I F1).
  unfold m2. rewrite (merge_no_pair _ _ _ I P2).
  rewrite (map_words_fixed f3 I F3), (map_words_fixed f4 I F4).
  unfold m5. now rewrite (merge_no_pair _ _ _ I P5).
Qed.

(** Every text reads as words and gaps. *)
Lemma parse_exists s :
  exists its tail,
    s = flatten its tail /\ items_ok U true its = true /\ gap_ok U tail = true.
Proof.
  induction s as [| x s (its & tail & -> & Hok & Htail)].
  - exists [], []. auto.
  - destruct (is_word U x) eqn:Hx.
    + destruct its as [| [g w] its].
      * exists [([], [x])], tail. rewrite flatten_cons, flatten_nil.
        repeat split; auto. unfold items_ok, item_ok, word_ok. simpl. now rewrite Hx.
      * simpl in Hok. apply andb_prop in Hok as [Hit Hits].
        apply item_ok_inv in Hit as (Hg & Hw & _).
        destruct g as [| y g].
        -- exists (([], x :: w) :: its), tail. rewrite !flatten_cons.
           repeat split; auto. simpl. rewrite Hits, andb_true_r.
           unfold item_ok, word_ok. simpl. rewrite Hx. simpl.
           now rewrite (word_ok_all U w Hw).
        -- exists (([], [x]) :: (y :: g, w) :: its), tail. rewrite !flatten_cons.
           repeat split; auto. simpl. rewrite Hits, andb_true_r.
           unfold item_ok, word_ok. cbn [fst snd forallb]. rewrite Hx, Hg.
           unfold word_ok in Hw. now rewrite Hw.
    + destruct its as [| [g w] its].
      * exists [], (x :: tail). rewrite !flatten_nil.
        repeat split; auto. simpl. now rewrite Hx, Htail.
      * simpl in Hok. apply andb_prop in Hok as [Hit Hits].
        apply item_ok_inv in Hit as (Hg & Hw & _).
        exists ((x :: g, w) :: its), tail. rewrite !flatten_cons.
        repeat split; auto. simpl. rewrite Hits, andb_true_r.
        unfold item_ok. cbn [fst snd gap_ok forallb]. rewrite Hx.
        fold (gap_ok U g). now rewrite Hg, Hw.
Qed.

End Normalizer.

(** ** C1: the normalizer is idempotent *)

(** C1. For every text [s], normalizing the normalized text gives the
    normalized text again: a second run of the five substitutions changes
    nothing.  The tables beyond ASCII are any that keep white space and
    alphanumerics apart and count the four letters that fold onto ASCII as
    alphanumeric, as CPython's do. *)
Theorem normalize_idempotent (U : unicode_tables) (HU : tables_ok U = true) (s : pystr) :
  _normalize_terms U (_normalize_terms U s) = _normalize_terms U s.
Proof.
  destruct (parse_exists U s) as (its & tail & -> & Hok & Htail).
  destruct (normalize_flatten U HU its tail Hok Htail) as [E1 Hok1].
  rewrite E1.
  destruct (normalize_flatten U HU _ tail Hok1 Htail) as [E2 _].
  rewrite E2. now rewrite normalize_items_idem.
Qed.

Lemma normalize_idempotent_witness :
  tables_ok minimal_tables = true
  /\ _normalize_terms minimal_tables
       (_normalize_terms minimal_tables (py "Open  claw says CLA, Subsider Agent"))
     = _normalize_terms minimal_tables (py "Open  claw says CLA, Subsider Agent").
Proof.
  split; [reflexivity |].
  apply (normalize_idempotent minimal_tables). reflexivity.
Defined.

(** ** Case variants *)

Lemma case_variant_char_cases c x :
  ((x =? c)%N || (ascii_isupper c && (x =? c + 32)%N)
   || (ascii_islower c && (x =? c - 32)%N)) = true ->
  x = c \/ ((65 <= c <= 90)%N /\ x = (c + 32)%N)
  \/ ((97 <= c <= 122)%N /\ x = (c - 32)%N).
Proof.
  unfold ascii_isupper, ascii_islower.
  rewrite !orb_true_iff, !andb_true_iff, !between_spec, !N.eqb_eq. tauto.
Qed.

Lemma case_variant_char U c x :
  is_letter c = true ->
  ((x =? c)%N || (ascii_isupper c && (x =? c + 32)%N)
   || (ascii_islower c && (x =? c - 32)%N)) = true ->
  lit_match c x = true /\ is_word U x = true.
Proof.
  intros Hc Hx.
  assert (Hcases : x = c \/ ((65 <= c <= 90)%N /\ x = (c + 32)%N)
                   \/ ((97 <= c <= 122)%N /\ x = (c - 32)%N)).
  { unfold ascii_isupper, ascii_islower in Hx.
    rewrite !orb_true_iff, !andb_true_iff, !between_spec, !N.eqb_eq in Hx. tauto. }
  apply is_letter_spec in Hc.
  split.
  - apply lit_match_spec. left.
    destruct (sre_lower_cases c) as [H | [H | [H | H]]];
      destruct (sre_lower_cases x) as [H' | [H' | [H' | H']]]; lia.
  - apply is_word_letter, is_letter_spec. lia.
Qed.

Lemma case_variant_word U p : forall s,
  forallb is_letter p = true -> case_variant p s = true ->
  lits_match p s = true /\ forallb (is_word U) s = true.
Proof.
  induction p as [| c p IH]; intros [| x s] Hp Hs; try discriminate; [auto |].
  simpl in Hp, Hs. apply andb_prop in Hp as [Hc Hp]. apply andb_prop in Hs as [Hx Hs].
  destruct (case_variant_char U c x Hc Hx) as [Hm Hw].
  destruct (IH s Hp Hs) as [Hms Hws].
  simpl. now rewrite Hm, Hw, Hms, Hws.
Qed.

Lemma case_variant_letters U p s :
  letters p = true -> case_variant p s = true ->
  lits_match p s = true /\ word_ok U s = true.
Proof.
  unfold letters. intros Hp Hs. apply andb_prop in Hp as [Hp Hne].
  destruct (case_variant_word U p s Hp Hs) as [Hm Hw].
  split; [exact Hm |]. unfold word_ok. rewrite Hw.
  destruct s; [| reflexivity]. destruct p; discriminate.
Qed.

Lemma lits_match_length l : forall w, lits_match l w = true -> length l = length w.
Proof.
  induction l as [| c l IH]; intros [| x w] H; try discriminate; [reflexivity |].
  simpl in H. apply andb_prop in H as [_ H]. simpl. f_equal. now apply IH.
Qed.

Lemma case_variant_length p : forall s, case_variant p s = true -> length s = length p.
Proof.
  induction p as [| c p IH]; intros [| x s] H; try discriminate; [reflexivity |].
  simpl in H. apply andb_prop in H as [_ H]. simpl. f_equal. now apply IH.
Qed.

Lemma word_rule_length l repl w : length l <> length w -> word_rule l repl w = w.
Proof.
  intros Hne. unfold word_rule. destruct (lits_match l w) eqn:E; [| reflexivity].
  apply lits_match_length in E. contradiction.
Qed.

Lemma spaces_gap U (HU : tables_ok U = true) g :
  forallb is_space g = true -> gap_ok U g = true.
Proof.
  induction g as [| x g IH]; [reflexivity |].
  simpl. intros H. apply andb_prop in H as [Hx Hg].
  now rewrite (space_not_word U HU x Hx), IH.
Qed.

(** ** C4, C5: the abbreviation rule *)

Lemma re_CLA_atoms : re_CLA = Bound :: Lit 67 :: Lit 76 :: Lit 65 :: [Bound].
Proof. reflexivity. Qed.

Lemma cla_longer_word U prev x1 x2 x3 x4 r :
  is_word U x3 = true -> is_word U x4 = true ->
  match_at U re_CLA prev (x1 :: x2 :: x3 :: x4 :: r) = None.
Proof.
  intros H3 H4. rewrite re_CLA_atoms, match_at_bound.
  destruct (at_boundary U prev _); [| reflexivity].
  rewrite match_at_lit. destruct (lit_match 67 x1); [| reflexivity].
  rewrite match_at_lit. destruct (lit_match 76 x2); [| reflexivity].
  rewrite match_at_lit. destruct (lit_match 65 x3); [| reflexivity].
  rewrite match_at_bound. unfold at_boundary. simpl. now rewrite H3, H4.
Qed.

Lemma inside_word U : forall w j,
  forallb (is_word U) w = true -> (S j < length w)%nat ->
  exists y z r, nth_error w j = Some y /\ skipn (S j) w = z :: r
                /\ is_word U y = true /\ is_word U z = true.
Proof.
  induction w as [| x w IH]; intros j Hw Hj; [simpl in Hj; lia |].
  simpl in Hw. apply andb_prop in Hw as [Hx Hw].
  destruct j as [| j].
  - destruct w as [| z r]; [simpl in Hj; lia |].
    simpl in Hw. apply andb_prop in Hw as [Hz _].
    exists x, z, r. auto.
  - destruct (IH j Hw) as (y & z & r & Hy & Hz & Hwy & Hwz); [simpl in Hj; lia |].
    exists y, z, r. auto.
Qed.

(** C4. The abbreviation rule leaves the two protected words alone:
    [normalize("CLASS CLAUDE")] is the same text; and for every word of four
    or more word characters whose first three match [CLA], whatever stands
    before and after it, the pattern matches at no position of the word, and
    the rule returns the word unchanged. *)
Theorem abbreviation_protected_words (U : unicode_tables) :
  _normalize_terms U (py "CLASS CLAUDE") = py "CLASS CLAUDE"
  /\ forall w,
       forallb (is_word U) w = true -> (4 <= length w)%nat ->
       lits_match (py "CLA") (firstn 3 w) = true ->
       (forall prev post k, (k < length w)%nat ->
          match_at U re_CLA (match k with O => prev | S j => nth_error w j end)
            (skipn k w ++ post) = None)
       /\ re_sub U re_CLA (_case_aware_cli U) w = w.
Proof.
  split; [reflexivity |].
  intros w Hw Hlen _.
  destruct w as [| x1 [| x2 [| x3 [| x4 r]]]]; try (simpl in Hlen; lia).
  assert (H3 : is_word U x3 = true).
  { simpl in Hw. now repeat (apply andb_prop in Hw as [? Hw]). }
  assert (H4 : is_word U x4 = true).
  { simpl in Hw. now repeat (apply andb_prop in Hw as [? Hw]). }
  split.
  - intros prev post [| j] Hk.
    + now apply cla_longer_word.
    + destruct (inside_word U _ j Hw Hk) as (y & z & r' & -> & -> & Hy & Hz).
      rewrite re_CLA_atoms. now apply match_bound_inword.
  - unfold re_sub. rewrite sub_from_cons, cla_longer_word by assumption.
    rewrite re_CLA_atoms.
    rewrite <- (app_nil_r (x2 :: x3 :: x4 :: r)).
    rewrite sub_inword.
    + simpl. now rewrite !app_nil_r.
    + simpl in Hw. now apply andb_prop in Hw as [_ Hw].
    + simpl in Hw. now apply andb_prop in Hw as [Hx _].
Qed.

Lemma abbreviation_protected_words_witness :
  re_sub minimal_tables re_CLA (_case_aware_cli minimal_tables) (py "CLAUDE") = py "CLAUDE"
  /\ match_at minimal_tables re_CLA (Some 32%N) (py "CLASS CLA") = None.
Proof.
  destruct (abbreviation_protected_words minimal_tables) as [_ H].
  split.
  - apply (H (py "CLAUDE")); [reflexivity | simpl; lia | reflexivity].
  - destruct (H (py "CLASS") eq_refl) as [Hk _]; [simpl; lia | reflexivity |].
    apply (Hk (Some 32%N) (py " CLA") 0%nat). simpl; lia.
Defined.

(** C5. The abbreviation rule keeps the case pattern of a standalone token:
    ["CLA"] gives ["CLI"], ["cla"] gives ["cli"], ["Cla"] gives ["Cli"],
    ["cLa"] gives ["CLI"]; every case variant of the token is rewritten as
    the decision table says and does not survive; and the tokens of the
    repository's check sentence are rewritten in place, next to the two
    protected words. *)
Theorem abbreviation_case_table (U : unicode_tables) :
  _normalize_terms U (py "CLA") = py "CLI"
  /\ _normalize_terms U (py "cla") = py "cli"
  /\ _normalize_terms U (py "Cla") = py "Cli"
  /\ _normalize_terms U (py "cLa") = py "CLI"
  /\ (forall t, case_variant (py "CLA") t = true ->
        _normalize_terms U t = cli_table t
        /\ _case_aware_cli U t = cli_table t
        /\ _normalize_terms U t <> t)
  /\ _normalize_terms U (py "CLASS CLAUDE CLA cla Cla cLa")
     = py "CLASS CLAUDE CLI cli Cli CLI".
Proof.
  repeat (split; [reflexivity |]).
  split; [| reflexivity].
  intros t Ht. pose proof (case_variant_length _ _ Ht) as Hlen.
  destruct t as [| x1 [| x2 [| x3 [| ? ?]]]]; try (simpl in Hlen; discriminate).
  simpl in Ht. rewrite andb_true_r in Ht.
  apply andb_prop in Ht as [H1 Ht]. apply andb_prop in Ht as [H2 H3].
  apply case_variant_char_cases in H1, H2, H3.
  assert (E1 : x1 = 67%N \/ x1 = 99%N) by lia.
  assert (E2 : x2 = 76%N \/ x2 = 108%N) by lia.
  assert (E3 : x3 = 65%N \/ x3 = 97%N) by lia.
  clear H1 H2 H3 Hlen.
  destruct E1 as [-> | ->], E2 as [-> | ->], E3 as [-> | ->];
    (split; [reflexivity | split; [reflexivity | discriminate]]).
Qed.

Lemma abbreviation_case_table_witness :
  _normalize_terms minimal_tables (py "clA") = py "CLI"
  /\ _normalize_terms minimal_tables (py "clA") <> py "clA".
Proof.
  destruct (abbreviation_case_table minimal_tables) as (_ & _ & _ & _ & H & _).
  destruct (H (py "clA") eq_refl) as (H1 & _ & H2).
  split; [exact H1 | exact H2].
Defined.

(** ** ASCII texts do not depend on the Unicode tables *)

Section AsciiTables.

Variables U U' : unicode_tables.

Lemma is_word_ascii x : (x <? 128)%N = true -> is_word U x = is_word U' x.
Proof. intros H. unfold is_word. now rewrite H. Qed.

Lemma word_opt_ascii o : ascii_opt o = true -> word_opt U o = word_opt U' o.
Proof. destruct o as [x |]; [apply is_word_ascii | reflexivity]. Qed.

Lemma at_boundary_ascii prev s :
  ascii_opt prev = true -> is_ascii s = true ->
  at_boundary U prev s = at_boundary U' prev s.
Proof.
  intros Hp Hs. unfold at_boundary. rewrite (word_opt_ascii prev Hp).
  destruct s as [| x s]; [reflexivity |].
  simpl in Hs. apply andb_prop in Hs as [Hx _].
  simpl. now rewrite (is_word_ascii x Hx).
Qed.

Lemma match_at_ascii p : forall prev s,
  ascii_opt prev = true -> is_ascii s = true ->
  match_at U p prev s = match_at U' p prev s.
Proof.
  induction p as [| a p IH]; intros prev s Hp Hs; [reflexivity |].
  destruct a as [| c |].
  - rewrite !match_at_bound, (at_boundary_ascii prev s Hp Hs).
    destruct (at_boundary U' prev s); [now apply IH | reflexivity].
  - destruct s as [| x s]; [reflexivity |].
    simpl in Hs. apply andb_prop in Hs as [Hx Hs].
    rewrite !match_at_lit. destruct (lit_match c x); [| reflexivity].
    now rewrite (IH (Some x) s Hx Hs).
  - revert prev Hp. induction s as [| x s IHs]; intros prev Hp; [reflexivity |].
    simpl in Hs. apply andb_prop in Hs as [Hx Hs].
    rewrite !match_at_space. destruct (is_space x); [| reflexivity].
    now rewrite (IHs Hs (Some x) Hx), (IH (Some x) s Hx Hs).
Qed.

Lemma is_ascii_firstn n s : is_ascii s = true -> is_ascii (firstn n s) = true.
Proof.
  revert n. induction s as [| x s IH]; intros [| n] Hs; try reflexivity.
  simpl in *. apply andb_prop in Hs as [Hx Hs]. now rewrite Hx, IH.
Qed.

Lemma is_ascii_skipn n s : is_ascii s = true -> is_ascii (skipn n s) = true.
Proof.
  revert n. induction s as [| x s IH]; intros [| n] Hs; try reflexivity; try exact Hs.
  simpl in *. apply andb_prop in Hs as [_ Hs]. now apply IH.
Qed.

Lemma sub_from_is_ascii p repl :
  (forall t, is_ascii (repl t) = true) ->
  forall s prev skip,
    is_ascii s = true -> is_ascii (sub_from U p repl prev s skip) = true.
Proof.
  intros Hrepl. induction s as [| x s IH]; intros prev skip Hs; [reflexivity |].
  simpl in Hs. apply andb_prop in Hs as [Hx Hs].
  destruct skip as [| k]; [| now apply IH].
  rewrite sub_from_cons.
  destruct (match_at U p prev (x :: s)) as [[| n] |].
  - simpl. now rewrite Hx, IH.
  - unfold is_ascii. rewrite forallb_app. fold (is_ascii (repl (firstn (S n) (x :: s)))).
    rewrite Hrepl. now apply IH.
  - simpl. now rewrite Hx, IH.
Qed.

Lemma sub_from_ascii p repl repl' :
  (forall t, is_ascii t = true -> repl t = repl' t) ->
  forall s prev skip,
    ascii_opt prev = true -> is_ascii s = true ->
    sub_from U p repl prev s skip = sub_from U' p repl' prev s skip.
Proof.
  intros Hrepl. induction s as [| x s IH]; intros prev skip Hp Hs; [reflexivity |].
  pose proof Hs as Hxs. simpl in Hs. apply andb_prop in Hs as [Hx Hs].
  destruct skip as [| k]; [| now apply IH].
  rewrite !sub_from_cons, (match_at_ascii p prev (x :: s) Hp Hxs).
  destruct (match_at U' p prev (x :: s)) as [[| n] |].
  - now rewrite (IH (Some x) 0%nat Hx Hs).
  - rewrite (IH (Some x) n Hx Hs).
    now rewrite (Hrepl _ (is_ascii_firstn (S n) (x :: s) Hxs)).
  - now rewrite (IH (Some x) 0%nat Hx Hs).
Qed.

Lemma isupper_ascii t : is_ascii t = true -> isupper U t = isupper U' t.
Proof.
  intros Ht. unfold isupper. f_equal.
  - induction t as [| x t IH]; [reflexivity |].
    simpl in Ht. apply andb_prop in Ht as [Hx Ht].
    simpl. rewrite (IH Ht). unfold ch_islower, ch_istitle. now rewrite Hx.
  - induction t as [| x t IH]; [reflexivity |].
    simpl in Ht. apply andb_prop in Ht as [Hx Ht].
    simpl. rewrite (IH Ht). unfold ch_isupper. now rewrite Hx.
Qed.

Lemma islower_ascii t : is_ascii t = true -> islower U t = islower U' t.
Proof.
  intros Ht. unfold islower. f_equal.
  - induction t as [| x t IH]; [reflexivity |].
    simpl in Ht. apply andb_prop in Ht as [Hx Ht].
    simpl. rewrite (IH Ht). unfold ch_isupper, ch_istitle. now rewrite Hx.
  - induction t as [| x t IH]; [reflexivity |].
    simpl in Ht. apply andb_prop in Ht as [Hx Ht].
    simpl. rewrite (IH Ht). unfold ch_islower. now rewrite Hx.
Qed.

Lemma case_aware_cli_ascii t :
  is_ascii t = true -> _case_aware_cli U t = _case_aware_cli U' t.
Proof.
  intros Ht. unfold _case_aware_cli.
  rewrite (isupper_ascii t Ht), (islower_ascii t Ht).
  rewrite (isupper_ascii _ (is_ascii_firstn 1 t Ht)).
  now rewrite (islower_ascii _ (is_ascii_skipn 1 t Ht)).
Qed.

(** On an ASCII text the normalizer gives the same text whatever the tables
    say beyond ASCII, and the text it gives is ASCII. *)
Lemma normalize_ascii_both s :
  is_ascii s = true ->
  _normalize_terms U s = _normalize_terms U' s
  /\ is_ascii (_normalize_terms U s) = true.
Proof.
  intros Hs. unfold _normalize_terms, re_sub. cbv zeta.
  assert (Hconst : forall (r : pystr) p t,
    is_ascii r = true -> is_ascii t = true ->
    sub_from U p (fun _ => r) None t 0 = sub_from U' p (fun _ => r) None t 0
    /\ is_ascii (sub_from U p (fun _ => r) None t 0) = true).
  { intros r p t Hr Ht. split.
    - now apply sub_from_ascii.
    - now apply sub_from_is_ascii. }
  destruct (Hconst (py "subagent") (re_SubsiderAgent) s eq_refl Hs) as [<- H1].
  destruct (Hconst (py "subagent") (re_Subsider_Agent) _ eq_refl H1) as [<- H2].
  assert (H3 : is_ascii (sub_from U re_CLA (_case_aware_cli U) None
                           (sub_from U re_Subsider_Agent (fun _ => py "subagent") None
                              (sub_from U re_SubsiderAgent (fun _ => py "subagent") None s 0) 0) 0)
               = true).
  { apply sub_from_is_ascii; [| exact H2].
    intros t. destruct (case_aware_cli_cases U t) as [-> | [-> | ->]]; reflexivity. }
  rewrite <- (sub_from_ascii re_CLA (_case_aware_cli U) (_case_aware_cli U')
                case_aware_cli_ascii _ None 0%nat eq_refl H2).
  destruct (Hconst (py "fallback") (re_Fallback) _ eq_refl H3) as [<- H4].
  destruct (Hconst (py "OpenClaw") (re_Open_claw) _ eq_refl H4) as [<- H5].
  split; [reflexivity | exact H5].
Qed.

Lemma normalize_ascii s :
  is_ascii s = true -> _normalize_terms U s = _normalize_terms U' s.
Proof. intros Hs. now apply normalize_ascii_both. Qed.

End AsciiTables.

(** ** C9: the compound-term rules *)

Lemma case_variant_ascii p : forall s,
  is_ascii p = true -> case_variant p s = true -> is_ascii s = true.
Proof.
  induction p as [| c p IH]; intros [| x s] Hp Hs; try discriminate; [reflexivity |].
  simpl in Hp, Hs. apply andb_prop in Hp as [Hc Hp]. apply andb_prop in Hs as [Hx Hs].
  simpl. rewrite (IH s Hp Hs), andb_true_r.
  apply case_variant_char_cases in Hx. apply N.ltb_lt in Hc. apply N.ltb_lt. lia.
Qed.

Lemma case_variant_app p q : forall s,
  case_variant (p ++ q) s = true ->
  exists s1 s2, s = s1 ++ s2 /\ case_variant p s1 = true /\ case_variant q s2 = true.
Proof.
  induction p as [| c p IH]; intros s Hs.
  - exists [], s. auto.
  - destruct s as [| x s]; [discriminate |].
    simpl in Hs. apply andb_prop in Hs as [Hx Hs].
    destruct (IH s Hs) as (s1 & s2 & -> & H1 & H2).
    exists (x :: s1), s2. simpl. now rewrite Hx, H1.
Qed.

(** A case variant of two words with one blank between them. *)
Lemma case_variant_blank p q s :
  case_variant (p ++ 32%N :: q) s = true ->
  exists s1 s2, s = s1 ++ [32%N] ++ s2
                /\ case_variant p s1 = true /\ case_variant q s2 = true.
Proof.
  intros Hs. destruct (case_variant_app p (32%N :: q) s Hs) as (s1 & s2 & -> & H1 & H2).
  destruct s2 as [| x s2]; [discriminate |].
  simpl in H2. apply andb_prop in H2 as [Hx H2].
  apply case_variant_char_cases in Hx.
  assert (x = 32%N) by lia. subst x. exists s1, s2. auto.
Qed.

Section Compound.

Variable U : unicode_tables.
Hypothesis HU : tables_ok U = true.

Lemma spaced_pair_items l1 l2 w1 g w2 :
  letters l1 = true -> letters l2 = true ->
  case_variant l1 w1 = true -> forallb is_space g = true -> g <> [] ->
  case_variant l2 w2 = true ->
  _normalize_terms U (w1 ++ g ++ w2)
  = flatten (normalize_items U [([], w1); (g, w2)]) []
  /\ pair_match l1 l2 w1 g w2 = true.
Proof.
  intros Hl1 Hl2 H1 Hg Hne H2.
  destruct (case_variant_letters U l1 w1 Hl1 H1) as [Hm1 Hw1].
  destruct (case_variant_letters U l2 w2 Hl2 H2) as [Hm2 Hw2].
  assert (E : w1 ++ g ++ w2 = flatten [([], w1); (g, w2)] []).
  { rewrite !flatten_cons, flatten_nil. simpl. now rewrite app_nil_r. }
  assert (Hok : items_ok U true [([], w1); (g, w2)] = true).
  { simpl. unfold item_ok. cbn [fst snd]. rewrite Hw1, Hw2, (spaces_gap U HU g Hg).
    simpl. destruct g; [congruence | reflexivity]. }
  rewrite E. destruct (normalize_flatten U HU _ [] Hok eq_refl) as [-> _].
  split; [reflexivity |]. unfold pair_match. now rewrite Hm1, Hg, Hm2.
Qed.

Lemma spaced_subsider_agent w1 g w2 :
  case_variant (py "Subsider") w1 = true ->
  forallb is_space g = true -> g <> [] ->
  case_variant (py "Agent") w2 = true ->
  _normalize_terms U (w1 ++ g ++ w2) = py "subagent".
Proof.
  intros H1 Hg Hne H2.
  destruct (spaced_pair_items (py "Subsider") (py "Agent") w1 g w2
              eq_refl eq_refl H1 Hg Hne H2) as [-> Hpm].
  unfold normalize_items, map_words. cbn [map fst snd].
  rewrite !(word_rule_length (py "SubsiderAgent")).
  2:{ rewrite (case_variant_length _ _ H2). discriminate. }
  2:{ rewrite (case_variant_length _ _ H1). discriminate. }
  rewrite merge_pairs_cons. cbn [fst snd]. rewrite Hpm. reflexivity.
Qed.

Lemma spaced_open_claw w1 g w2 :
  case_variant (py "Open") w1 = true ->
  forallb is_space g = true -> g <> [] ->
  case_variant (py "claw") w2 = true ->
  _normalize_terms U (w1 ++ g ++ w2) = py "OpenClaw".
Proof.
  intros H1 Hg Hne H2.
  destruct (spaced_pair_items (py "Open") (py "claw") w1 g w2
              eq_refl eq_refl H1 Hg Hne H2) as [-> Hpm].
  unfold normalize_items, map_words. cbn [map fst snd].
  pose proof (case_variant_length _ _ H1) as Hlen1.
  pose proof (case_variant_length _ _ H2) as Hlen2.
  assert (Hw : forall l r w, length w = 4%nat -> length l <> 4%nat -> word_rule l r w = w).
  { intros l r w Hw Hl. apply word_rule_length. congruence. }
  rewrite !(Hw (py "SubsiderAgent")) by (assumption || discriminate).
  rewrite merge_pairs_cons.
  assert (Hnp : pair_match (py "Subsider") (py "Agent") w1 g w2 = false).
  { apply pair_match_left. destruct (lits_match (py "Subsider") w1) eqn:E; [| reflexivity].
    apply lits_match_length in E. rewrite Hlen1 in E. discriminate. }
  cbn [fst snd]. rewrite Hnp.
  change (merge_pairs (py "Subsider") (py "Agent") (py "subagent") [(g, w2)])
    with [(g, w2)].
  cbn [map fst snd].
  rewrite !(Hw (py "CLA")), !(Hw (py "Fallback")) by (assumption || discriminate).
  rewrite merge_pairs_cons. cbn [fst snd]. rewrite Hpm. reflexivity.
Qed.

Lemma single_subsideragent s :
  case_variant (py "SubsiderAgent") s = true -> _normalize_terms U s = py "subagent".
Proof.
  intros Hs.
  destruct (case_variant_letters U (py "SubsiderAgent") s eq_refl Hs) as [Hm Hw].
  assert (E : s = flatten [([], s)] []).
  { rewrite flatten_cons, flatten_nil. simpl. now rewrite app_nil_r. }
  rewrite E.
  destruct (normalize_flatten U HU [([], s)] []) as [-> _]; [| reflexivity |].
  - simpl. unfold item_ok. cbn [fst snd]. now rewrite Hw.
  - unfold normalize_items, map_words. cbn [map fst snd].
    replace (word_rule (py "SubsiderAgent") (fun _ => py "subagent") s)
      with (py "subagent") by (unfold word_rule; now rewrite Hm).
    reflexivity.
Qed.

End Compound.

(** C9. [normalize("Open claw")] is ["OpenClaw"]; every case variant of
    ["SubsiderAgent"] and every case variant of ["Subsider Agent"]
    normalizes to ["subagent"], and every case variant of ["Open claw"] to
    ["OpenClaw"], whatever the tables say beyond ASCII; and with tables that
    keep white space and alphanumerics apart the same holds with any
    non-empty run of white space between the two words. *)
Theorem compound_term_rules (U : unicode_tables) :
  _normalize_terms U (py "Open claw") = py "OpenClaw"
  /\ (forall s, case_variant (py "SubsiderAgent") s = true ->
        _normalize_terms U s = py "subagent")
  /\ (forall s, case_variant (py "Subsider Agent") s = true ->
        _normalize_terms U s = py "subagent")
  /\ (forall s, case_variant (py "Open claw") s = true ->
        _normalize_terms U s = py "OpenClaw")
  /\ (tables_ok U = true ->
      forall w1 g w2, forallb is_space g = true -> g <> [] ->
        (case_variant (py "Subsider") w1 = true -> case_variant (py "Agent") w2 = true ->
         _normalize_terms U (w1 ++ g ++ w2) = py "subagent")
        /\ (case_variant (py "Open") w1 = true -> case_variant (py "claw") w2 = true ->
            _normalize_terms U (w1 ++ g ++ w2) = py "OpenClaw")).
Proof.
  assert (Hmin : tables_ok minimal_tables = true) by reflexivity.
  split; [reflexivity |]. split; [| split; [| split]].
  - intros s Hs.
    rewrite (normalize_ascii U minimal_tables s
               (case_variant_ascii (py "SubsiderAgent") s eq_refl Hs)).
    now apply single_subsideragent.
  - intros s Hs.
    rewrite (normalize_ascii U minimal_tables s
               (case_variant_ascii (py "Subsider Agent") s eq_refl Hs)).
    destruct (case_variant_blank (py "Subsider") (py "Agent") s Hs) as (s1 & s2 & -> & H1 & H2).
    apply spaced_subsider_agent; auto; discriminate.
  - intros s Hs.
    rewrite (normalize_ascii U minimal_tables s
               (case_variant_ascii (py "Open claw") s eq_refl Hs)).
    destruct (case_variant_blank (py "Open") (py "claw") s Hs) as (s1 & s2 & -> & H1 & H2).
    apply spaced_open_claw; auto; discriminate.
  - intros HU w1 g w2 Hg Hne. split; intros H1 H2.
    + now apply spaced_subsider_agent.
    + now apply spaced_open_claw.
Qed.

Lemma compound_term_rules_witness :
  _normalize_terms minimal_tables (py "sUBSIDERaGENT") = py "subagent"
  /\ _normalize_terms minimal_tables (py "SUBSIDER agent") = py "subagent"
  /\ _normalize_terms minimal_tables (py "open" ++ [9; 160; 32]%N ++ py "CLAW") = py "OpenClaw".
Proof.
  destruct (compound_term_rules minimal_tables) as (_ & H1 & H2 & _ & H3).
  split; [apply H1; reflexivity |]. split; [apply H2; reflexivity |].
  apply (H3 eq_refl (py "open") [9; 160; 32]%N (py "CLAW")); [reflexivity | discriminate | reflexivity | reflexivity].
Defined.

(** ** The service *)

Section ServiceFacts.

Context {E : Type}.
Variable X : runtime E.

(** What [_transcribe] does, by the outcome of the language check. *)
Lemma _transcribe_eval audio_path language (w : world E) :
  _transcribe X audio_path language w
  = match _language_arg language with
    | Raise e => (Raise e, w)
    | Return lang =>
        let args := cap_request X audio_path lang w in
        let r := mlx_transcribe X args (cap_state w) (fs w) in
        (fst (fst r),
         {| fs := snd r; service := service w; cap_state := snd (fst r);
            cap_calls := cap_calls w ++ [args] |})
    end.
Proof.
  unfold _transcribe. destruct (_language_arg language); [| reflexivity].
  cbv zeta. now destruct (mlx_transcribe _ _ _ _) as [[r e'] f'].
Qed.

(** What the handler does once the temporary file is written: the outcome,
    and the world after the call. *)
Lemma transcribe_eval file language stem started finished (w : world E) :
  let p := temp_name stem (upload_suffix X file) in
  let w1 := set_fs (<[p := content file]> (fs w)) w in
  transcribe X file language stem started finished w
  = match _transcribe X p (Some language) w1 with
    | (Raise e, w2) => (Raise e, set_fs (delete p (fs w2)) w2)
    | (Return d, w2) =>
        (match py_strip (py_or (dict_get d "text") (PyStr (py ""))) with
         | Raise e => Raise e
         | Return v =>
             match normalize_value X v with
             | Raise e => Raise e
             | Return text =>
                 Return (transcribe_response text
                           (dict_get d "language") language
                           (elapsed_ms_of started finished)
                           (dict_get_default d "segments" (PyList []))
                           (model (service w2)))
             end
         end,
         set_fs (delete p (fs w2)) w2)
    end.
Proof.
  cbv zeta. unfold transcribe, transcribe_io, bind, try_finally, NamedTemporaryFile,
    upload_read, tmp_write, unlink_missing_ok, lift, ret, get_service.
  cbn [io_ok create_error read_error write_error fs set_fs].
  replace (set_fs _ (set_fs _ w))
    with (set_fs (<[temp_name stem (upload_suffix X file) := content file]> (fs w)) w)
    by (unfold set_fs; cbn [fs service cap_state cap_calls];
        now rewrite insert_insert_eq).
  destruct (_transcribe _ _ _ _) as [[d | e] w2]; [| reflexivity].
  destruct (py_strip _) as [v | e]; [| reflexivity].
  destruct (normalize_value X v); reflexivity.
Qed.

(** What the handler does, by the file steps: a step that raises ends the
    call before the [try]; with all three done it is [transcribe]. *)
Lemma transcribe_io_eval io file language stem started finished (w : world E) :
  let p := temp_name stem (upload_suffix X file) in
  transcribe_io X io file language stem started finished w
  = match create_error io with
    | Some e => (Raise e, w)
    | None =>
        match read_error io with
        | Some e => (Raise e, set_fs (<[p := []]> (fs w)) w)
        | None =>
            match write_error io with
            | Some (e, reached) => (Raise e, set_fs (<[p := reached]> (fs w)) w)
            | None => transcribe X file language stem started finished w
            end
        end
    end.
Proof.
  cbv zeta. destruct io as [[e1 |] [e2 |] [[e3 reached] |]];
    cbn [create_error read_error write_error]; try reflexivity.
  unfold transcribe_io, bind, NamedTemporaryFile, upload_read, tmp_write.
  cbn [create_error read_error write_error fs set_fs service cap_state cap_calls].
  unfold set_fs. cbn [fs service cap_state cap_calls]. now rewrite insert_insert_eq.
Qed.

(** What [warmup] does: the outcome is that of [_transcribe] on the clip;
    the flag is set exactly when it returns. *)
Lemma warmup_eval stem (w : world E) :
  let p := temp_name stem (py ".wav") in
  let w1 := set_fs (<[p := warmup_audio X]> (<[p := []]> (fs w))) w in
  warmup X stem w
  = match _transcribe X p (Some (py "auto")) w1 with
    | (Raise e, w2) => (Raise e, set_fs (delete p (fs w2)) w2)
    | (Return _, w2) =>
        (Return tt,
         set_fs (delete p (fs w2))
           (set_service {| model := model (service w2); warmed := true;
                           startup_ts := startup_ts (service w2) |} w2))
    end.
Proof.
  cbv zeta. unfold warmup, warmup_with, bind, try_finally, NamedTemporaryFile,
    write_wave, set_warmed, unlink_missing_ok.
  cbn [fs set_fs service cap_state cap_calls].
  destruct (_transcribe _ _ _ _) as [[d | e] w2]; reflexivity.
Qed.

(** What [warmup] does, by its file steps: when the file cannot be made
    nothing else happens; when the clip cannot be built the capability is
    not called and the file is removed; otherwise the capability is called
    on the clip. *)
Lemma warmup_with_eval created built stem (w : world E) :
  let p := temp_name stem (py ".wav") in
  warmup_with X created built stem w
  = match created with
    | Some e => (Raise e, w)
    | None =>
        match built with
        | Raise e => (Raise e, set_fs (delete p (<[p := []]> (fs w))) w)
        | Return clip =>
            match _transcribe X p (Some (py "auto"))
                    (set_fs (<[p := clip]> (<[p := []]> (fs w))) w) with
            | (Raise e, w2) => (Raise e, set_fs (delete p (fs w2)) w2)
            | (Return _, w2) =>
                (Return tt,
                 set_fs (delete p (fs w2))
                   (set_service {| model := model (service w2); warmed := true;
                                   startup_ts := startup_ts (service w2) |} w2))
            end
        end
    end.
Proof.
  cbv zeta. unfold warmup_with, bind, try_finally, NamedTemporaryFile,
    write_wave, set_warmed, unlink_missing_ok.
  destruct created as [e |]; [reflexivity |].
  destruct built as [clip | e]; cbn [fs set_fs service cap_state cap_calls];
    [| reflexivity].
  destruct (_transcribe _ _ _ _) as [[d | e] w2]; reflexivity.
Qed.

Lemma _transcribe_service audio_path language (w : world E) :
  service (snd (_transcribe X audio_path language w)) = service w.
Proof.
  rewrite _transcribe_eval. destruct (_language_arg language); reflexivity.
Qed.

Lemma transcribe_service file language stem started finished (w : world E) :
  service (snd (transcribe X file language stem started finished w)) = service w.
Proof.
  rewrite transcribe_eval. cbv zeta.
  match goal with |- context [_transcribe X ?p ?l ?w1] =>
    pose proof (_transcribe_service p l w1) as H;
    destruct (_transcribe X p l w1) as [[d | e] w2] end; exact H.
Qed.

Lemma warmup_service stem (w : world E) :
  service (snd (warmup X stem w))
  = match fst (warmup X stem w) with
    | Return _ => {| model := model (service w); warmed := true;
                     startup_ts := startup_ts (service w) |}
    | Raise _ => service w
    end.
Proof.
  rewrite warmup_eval. cbv zeta.
  match goal with |- context [_transcribe X ?p ?l ?w1] =>
    pose proof (_transcribe_service p l w1) as H;
    destruct (_transcribe X p l w1) as [[d | e] w2] end; simpl in *.
  - now rewrite H.
  - exact H.
Qed.

End ServiceFacts.

(** ** C6: language validation *)

Lemma _language_arg_invalid l :
  l <> py "" -> l <> py "auto" -> l <> py "zh" -> l <> py "en" ->
  _language_arg (Some l) = Raise invalid_language_error.
Proof.
  intros H1 H2 H3 H4. unfold _language_arg.
  now rewrite !bool_decide_eq_false_2 by assumption.
Qed.

(** C6. [None], the empty string and ["auto"] all give the sentinel [None];
    ["zh"] and ["en"] pass unchanged; every other value (["fr"] among them)
    raises [HTTPException] with status 400, a client error, and a message;
    and then nothing of the transcription happens: [_transcribe] raises
    without a call to the capability and leaves the world as it was, and the
    handler raises the same error with no call to the capability either. *)
Theorem language_validation {E : Type} (X : runtime E) :
  _language_arg None = Return None
  /\ _language_arg (Some (py "")) = Return None
  /\ _language_arg (Some (py "auto")) = Return None
  /\ _language_arg (Some (py "zh")) = Return (Some (py "zh"))
  /\ _language_arg (Some (py "en")) = Return (Some (py "en"))
  /\ _language_arg (Some (py "fr")) = Raise invalid_language_error
  /\ (exists detail, invalid_language_error = HTTPException 400 detail
                      /\ (400 <= 400 < 500)%Z /\ detail <> [])
  /\ (forall l, l <> py "" -> l <> py "auto" -> l <> py "zh" -> l <> py "en" ->
        _language_arg (Some l) = Raise invalid_language_error
        /\ (forall audio_path w,
              _transcribe X audio_path (Some l) w = (Raise invalid_language_error, w))
        /\ (forall file stem started finished w,
              let r := transcribe X file l stem started finished w in
              fst r = Raise invalid_language_error
              /\ cap_calls (snd r) = cap_calls w
              /\ cap_state (snd r) = cap_state w)).
Proof.
  repeat (split; [reflexivity |]).
  split.
  { eexists. split; [reflexivity |]. split; [lia | discriminate]. }
  intros l H1 H2 H3 H4.
  pose proof (_language_arg_invalid l H1 H2 H3 H4) as Hl.
  split; [exact Hl |]. split.
  - intros audio_path w. now rewrite _transcribe_eval, Hl.
  - intros file stem started finished w. cbv zeta.
    rewrite transcribe_eval. cbv zeta. rewrite _transcribe_eval, Hl.
    repeat split.
Qed.

Lemma language_validation_witness :
  _language_arg (Some (py "de")) = Raise invalid_language_error
  /\ _transcribe sample_runtime (py "/tmp/a.wav") (Some (py "de")) world0
     = (Raise invalid_language_error, world0).
Proof.
  destruct (language_validation sample_runtime) as (_ & _ & _ & _ & _ & _ & _ & H).
  destruct (H (py "de")) as (H1 & H2 & _); try discriminate.
  split; [exact H1 | apply H2].
Defined.

(** ** [str.strip] *)

Lemma lstrip_spaces a t : forallb is_space a = true -> lstrip (a ++ t) = lstrip t.
Proof.
  induction a as [| x a IH]; [reflexivity |].
  simpl. intros H. apply andb_prop in H as [Hx Ha]. rewrite Hx. now apply IH.
Qed.

Lemma lstrip_head t : nonspace_opt (head t) -> lstrip t = t.
Proof. destruct t as [| x t]; [reflexivity |]. simpl. now intros ->. Qed.

Lemma lstrip_split s :
  exists a, s = a ++ lstrip s /\ forallb is_space a = true
            /\ nonspace_opt (head (lstrip s)).
Proof.
  induction s as [| x s (a & Hs & Ha & Hh)].
  - exists []. repeat split.
  - simpl. destruct (is_space x) eqn:Hx.
    + exists (x :: a). simpl. rewrite Hx, Ha. repeat split; auto. now f_equal.
    + exists []. repeat split. exact Hx.
Qed.

Lemma last_opt_rev c : forall p,
  last_opt p c = match rev c with x :: _ => Some x | [] => p end.
Proof.
  induction c as [| x c IH]; intros p; [reflexivity |].
  simpl. rewrite IH. now destruct (rev c).
Qed.

Lemma forallb_rev {A : Type} (f : A -> bool) l : forallb f (rev l) = forallb f l.
Proof.
  induction l as [| x l IH]; [reflexivity |].
  simpl. rewrite forallb_app, IH. simpl. rewrite andb_true_r. apply andb_comm.
Qed.

Lemma strip_unique a c b :
  forallb is_space a = true -> forallb is_space b = true -> trimmed c ->
  strip (a ++ c ++ b) = c.
Proof.
  intros Ha Hb [Hh Hl]. unfold strip, rstrip. rewrite (lstrip_spaces a _ Ha).
  destruct c as [| x c].
  - simpl. replace (lstrip b) with (@nil N); [reflexivity |].
    rewrite <- (app_nil_r b). now rewrite (lstrip_spaces b [] Hb).
  - rewrite (lstrip_head ((x :: c) ++ b)) by exact Hh.
    rewrite rev_app_distr, lstrip_spaces by now rewrite forallb_rev.
    rewrite lstrip_head; [apply rev_involutive |].
    rewrite last_opt_rev in Hl. now destruct (rev (x :: c)).
Qed.

Lemma strip_split s :
  exists a b, s = a ++ strip s ++ b
              /\ forallb is_space a = true /\ forallb is_space b = true
              /\ trimmed (strip s).
Proof.
  destruct (lstrip_split s) as (a & Hs & Ha & Hh).
  destruct (lstrip_split (rev (lstrip s))) as (b' & Hr & Hb & Hh').
  assert (Ht : lstrip s = strip s ++ rev b').
  { unfold strip, rstrip. rewrite <- rev_app_distr, <- Hr. symmetry.
    apply rev_involutive. }
  exists a, (rev b'). repeat split.
  - now rewrite <- Ht.
  - exact Ha.
  - now rewrite forallb_rev.
  - rewrite Ht in Hh. destruct (strip s); [exact I | exact Hh].
  - rewrite last_opt_rev. unfold strip, rstrip. rewrite rev_involutive.
    now destruct (lstrip (rev (lstrip s))).
Qed.

Lemma last_opt_indep u : u <> [] -> forall p q, last_opt p u = last_opt q u.
Proof. destruct u; [congruence | reflexivity]. Qed.

(** ** C3: the temporary file of a request *)

(** C3. The temporary file of a request, by what happens at the file steps
    of the handler.  When the upload is read and written, the file is gone
    when the handler exits, whatever the capability does (return, raise,
    remove the file itself), and what the capability raises the handler
    raises.  When making the file raises, nothing was made.  But when
    reading the upload or writing it raises, inside the [with] block and
    before the [try], the handler exits with that exception, the capability
    was not called, and the file is still on disk. *)
Theorem transcribe_temp_file_fate {E : Type} (X : runtime E) (io : upload_io)
    (file : UploadFile) (language stem : pystr) (started finished : Q) (w : world E) :
  let p := temp_name stem (upload_suffix X file) in
  let r := transcribe_io X io file language stem started finished w in
  match create_error io, read_error io, write_error io with
  | Some e, _, _ => r = (Raise e, w)
  | None, Some e, _ =>
      fst r = Raise e /\ fs (snd r) !! p = Some [] /\ cap_calls (snd r) = cap_calls w
  | None, None, Some (e, reached) =>
      fst r = Raise e /\ fs (snd r) !! p = Some reached
      /\ cap_calls (snd r) = cap_calls w
  | None, None, None =>
      fs (snd r) !! p = None
      /\ match _transcribe X p (Some language)
                (set_fs (<[p := content file]> (fs w)) w) with
         | (Raise e, _) => fst r = Raise e
         | (Return _, _) => True
         end
  end.
Proof.
  cbv zeta. rewrite transcribe_io_eval. cbv zeta.
  destruct (create_error io) as [e1 |]; [reflexivity |].
  destruct (read_error io) as [e2 |].
  { repeat split. apply lookup_insert_eq. }
  destruct (write_error io) as [[e3 reached] |].
  { repeat split. apply lookup_insert_eq. }
  rewrite transcribe_eval. cbv zeta.
  destruct (_transcribe X _ _ _) as [[d | e] w2]; simpl; split; auto;
    apply lookup_delete_eq.
Qed.

(** The disk is full: the write of the upload raises after two bytes.  The
    handler raises, and the file of the request stays behind. *)
Lemma transcribe_temp_file_fate_witness :
  let io := {| create_error := None; read_error := None;
               write_error := Some (OSError 28, [82; 73]%N) |} in
  let r := transcribe_io sample_runtime io sample_upload (py "auto") (py "a1b2")
             0 (1 # 2) world0 in
  fst r = Raise (OSError 28)
  /\ fs (snd r) !! py "/tmp/tmpa1b2.wav" = Some [82; 73]%N
  /\ cap_calls (snd r) = [].
Proof.
  exact (transcribe_temp_file_fate sample_runtime
           {| create_error := None; read_error := None;
              write_error := Some (OSError 28, [82; 73]%N) |}
           sample_upload (py "auto") (py "a1b2") 0 (1 # 2) world0).
Defined.

(** ** C10 and C7: the response *)

Lemma transcribe_response_lookup text lang requested ms segments mdl :
  let r := transcribe_response text lang requested ms segments mdl in
  r !! "text" = Some (PyStr text)
  /\ r !! "language" = Some lang
  /\ r !! "requested_language" = Some (PyStr requested)
  /\ r !! "elapsed_ms" = Some ms
  /\ r !! "segments" = Some segments
  /\ r !! "model" = Some (PyStr mdl).
Proof. cbv zeta. repeat split. Qed.

Lemma text_field_strip d t :
  text_field d t ->
  py_strip (py_or (dict_get d "text") (PyStr (py ""))) = Return (PyStr (strip t)).
Proof.
  unfold text_field, dict_get. intros [H | [[H | H] ->]]; rewrite H; simpl.
  - destruct t; reflexivity.
  - reflexivity.
  - reflexivity.
Qed.

(** C10. When the capability returns a result, the [text] of the response
    is the normalizer applied to the result's text with the white space
    stripped from both ends first: the text of the result is white space,
    then a text that neither starts nor ends with white space, then white
    space, and the normalizer is applied to the text in the middle; when the
    result has no [text], or [None] there, the text counts as empty and the
    response text is empty: the handler returns, it does not raise. *)
Theorem response_text_is_normalized_stripped_text {E : Type} (X : runtime E)
    (file : UploadFile) (language stem : pystr) (started finished : Q) (w : world E)
    (d : pydict) (w2 : world E) :
  let p := temp_name stem (upload_suffix X file) in
  _transcribe X p (Some language) (set_fs (<[p := content file]> (fs w)) w)
    = (Return d, w2) ->
  (forall t, text_field d t ->
     exists resp a c b,
       fst (transcribe_io X io_ok file language stem started finished w) = Return resp
       /\ t = a ++ c ++ b
       /\ forallb is_space a = true /\ forallb is_space b = true
       /\ trimmed c
       /\ c = strip t
       /\ resp !! "text" = Some (PyStr (_normalize_terms (tables X) c)))
  /\ (d !! "text" = None \/ d !! "text" = Some PyNone ->
      exists resp,
        fst (transcribe_io X io_ok file language stem started finished w) = Return resp
        /\ resp !! "text" = Some (PyStr [])).
Proof.
  cbv zeta. intros Hcap.
  assert (Hmain : forall t, text_field d t ->
     exists resp,
       fst (transcribe_io X io_ok file language stem started finished w) = Return resp
       /\ resp !! "text" = Some (PyStr (_normalize_terms (tables X) (strip t)))).
  { intros t Ht. rewrite transcribe_io_eval. cbv zeta.
    cbn [io_ok create_error read_error write_error].
    rewrite transcribe_eval. cbv zeta. rewrite Hcap.
    rewrite (text_field_strip d t Ht). cbn [normalize_value fst].
    eexists. split; [reflexivity |]. apply transcribe_response_lookup. }
  split.
  - intros t Ht. destruct (Hmain t Ht) as (resp & Hr & Htext).
    destruct (strip_split t) as (a & b & Hs & Ha & Hb & Htrim).
    exists resp, a, (strip t), b. repeat split; try assumption; apply Htrim.
  - intros Hnone. destruct (Hmain []) as (resp & Hr & Ht).
    + right. auto.
    + exists resp. split; [exact Hr | exact Ht].
Qed.

Lemma response_text_is_normalized_stripped_text_witness :
  exists resp,
    fst (transcribe_io sample_runtime io_ok sample_upload (py "auto") (py "a1b2")
           0 (1 # 2) world0) = Return resp
    /\ sample_result !! "text" = Some (PyStr (py " Open claw "))
    /\ resp !! "text" = Some (PyStr (py "OpenClaw")).
Proof.
  destruct (response_text_is_normalized_stripped_text sample_runtime sample_upload
              (py "auto") (py "a1b2") 0 (1 # 2) world0 sample_result
              (snd (_transcribe sample_runtime (temp_name (py "a1b2") (py ".wav"))
                      (Some (py "auto"))
                      (set_fs (<[temp_name (py "a1b2") (py ".wav") := content sample_upload]>
                                 (fs world0)) world0)))
              eq_refl) as [H _].
  destruct (H (py " Open claw ")) as (resp & a & c & b & Hr & _ & _ & _ & _ & Hc & Ht).
  - left. reflexivity.
  - exists resp. split; [exact Hr |]. split; [reflexivity |].
    rewrite Ht, Hc. reflexivity.
Defined.

Lemma round_half_even_nonneg x : (0 <= x)%Q -> (0 <= round_half_even x)%Z.
Proof.
  intros Hx. unfold round_half_even.
  assert (Hn : (0 <= Qnum x)%Z) by (unfold Qle in Hx; simpl in Hx; lia).
  assert (Hq : (0 <= Qnum x / Zpos (Qden x))%Z) by (apply Z.div_pos; lia).
  cbv zeta. destruct (_ ?= _)%Z; [destruct (Z.even _) | |]; lia.
Qed.

(** The rounded value is the nearest whole number: at most a half away. *)
Lemma round_half_even_close x :
  (2 * Z.abs (Qnum x - round_half_even x * Zpos (Qden x)) <= Zpos (Qden x))%Z.
Proof.
  unfold round_half_even. cbv zeta.
  pose proof (Z.div_mod (Qnum x) (Zpos (Qden x)) ltac:(lia)) as Hdm.
  pose proof (Z.mod_pos_bound (Qnum x) (Zpos (Qden x)) ltac:(lia)) as Hb.
  destruct (2 * (Qnum x mod Zpos (Qden x)) ?= Zpos (Qden x))%Z eqn:Hc.
  - apply Z.compare_eq in Hc. destruct (Z.even _); nia.
  - rewrite Z.compare_lt_iff in Hc. nia.
  - rewrite Z.compare_gt_iff in Hc. nia.
Qed.

Lemma round_half_even_half x :
  (Qabs (x - inject_Z (round_half_even x)) <= 1 # 2)%Q.
Proof.
  pose proof (round_half_even_close x) as H.
  destruct x as [a b]. cbn [Qnum Qden] in H.
  unfold Qle, Qabs, Qminus, Qplus, Qopp, inject_Z. cbn [Qnum Qden].
  rewrite Pos.mul_1_r.
  replace (a * 1 + - round_half_even (a # b) * Z.pos b)%Z
    with (a - round_half_even (a # b) * Z.pos b)%Z by lia.
  lia.
Qed.

Lemma Qshift_nonneg q k : (0 <= q)%Q -> (0 <= Qshift q k)%Q.
Proof.
  unfold Qle. simpl. intros H. destruct k as [| k | k]; simpl; nia.
Qed.

(** The float nearest to a rational that is not negative is not negative. *)
Lemma to_double_nonneg q r : (0 <= q)%Q -> to_double q = Finite r -> (0 <= r)%Q.
Proof.
  intros Hq. unfold to_double. destruct (Qeq_bool q 0).
  { intros [= <-]. apply Qle_refl. }
  cbv zeta. destruct (_ || _); [discriminate |]. intros [= <-].
  rewrite Qred_correct. apply Qshift_nonneg.
  match goal with |- (0 <= inject_Z (round_half_even ?x))%Q =>
    pose proof (round_half_even_nonneg x (Qshift_nonneg q _ Hq)) as Hm end.
  unfold Qle. simpl. lia.
Qed.

(** The elapsed time, a product of floats, is not negative when the clock
    has not gone back. *)
Lemma elapsed_nonneg started finished ms :
  (started <= finished)%Q ->
  float_mul (float_sub (Finite finished) (Finite started)) (Finite (inject_Z 1000))
    = Finite ms ->
  (0 <= ms)%Q.
Proof.
  intros Hclock. cbn [float_sub].
  destruct (to_double (finished - started)) as [d1 | s |] eqn:H1; cbn [float_mul].
  - apply to_double_nonneg. apply Qmult_le_0_compat; [| discriminate].
    apply (to_double_nonneg (finished - started)); [| exact H1].
    unfold Qminus. rewrite <- (Qplus_opp_r started).
    apply Qplus_le_compat; [exact Hclock | apply Qle_refl].
  - destruct (Qeq_bool _ _); discriminate.
  - discriminate.
Qed.

(** C7, as the specification words it, fails: the text of the response is
    not the normalizer applied to the capability's text as returned.  The
    capability returns [" Open claw "]; the normalizer on it gives
    [" OpenClaw "]; the response holds ["OpenClaw"]. *)
Lemma response_text_not_normalizer_alone_cex :
  exists resp,
    fst (transcribe sample_runtime sample_upload (py "auto") (py "a1b2") 0 (1 # 2) world0)
      = Return resp
    /\ sample_result !! "text" = Some (PyStr (py " Open claw "))
    /\ _normalize_terms minimal_tables (py " Open claw ") = py " OpenClaw "
    /\ resp !! "text" = Some (PyStr (py "OpenClaw"))
    /\ resp !! "text" <> Some (PyStr (_normalize_terms minimal_tables (py " Open claw "))).
Proof.
  eexists. split; [reflexivity |]. repeat split. discriminate.
Qed.

(** C7, amended. Every request that succeeds, that is every call of the
    handler that returns a response, whatever the operating system did at
    the file steps: the capability was called on the temporary file and
    returned a result; the text of that result is a string, or counts as
    false and is taken as the empty string; and the response holds the text
    with the white space stripped from both ends and then the normalizer
    applied; the detected language; the requested language as given; the
    elapsed time, the float product of the difference of the two clock
    readings and 1000, rounded to hundredths (the nearest, at most half a
    hundredth away, a tie going to the even one), and not negative when the
    clock has not gone back; the segments of the result as they are (the
    empty list when the result has none); and the model of the service. *)
Theorem successful_response_fields {E : Type} (X : runtime E) (io : upload_io)
    (file : UploadFile) (language stem : pystr) (started finished : Q) (w : world E)
    (resp : pydict) :
  let p := temp_name stem (upload_suffix X file) in
  fst (transcribe_io X io file language stem started finished w) = Return resp ->
  exists d w2 t,
    _transcribe X p (Some language) (set_fs (<[p := content file]> (fs w)) w)
      = (Return d, w2)
    /\ (dict_get d "text" = PyStr t \/ (truthy (dict_get d "text") = false /\ t = []))
    /\ (exists a b, t = a ++ strip t ++ b
                    /\ forallb is_space a = true /\ forallb is_space b = true
                    /\ trimmed (strip t))
    /\ resp !! "text" = Some (PyStr (_normalize_terms (tables X) (strip t)))
    /\ resp !! "language" = Some (dict_get d "language")
    /\ resp !! "requested_language" = Some (PyStr language)
    /\ resp !! "elapsed_ms" = Some (elapsed_ms_of started finished)
    /\ (forall ms,
          float_mul (float_sub (Finite finished) (Finite started))
            (Finite (inject_Z 1000)) = Finite ms ->
          exists n : Z,
            resp !! "elapsed_ms" = Some (PyFloat (Qmake n 100))
            /\ n = round_half_even (ms * inject_Z 100)
            /\ (Qabs (ms * inject_Z 100 - inject_Z n) <= 1 # 2)%Q
            /\ ((started <= finished)%Q -> (0 <= n)%Z))
    /\ resp !! "segments" = Some (dict_get_default d "segments" (PyList []))
    /\ (forall v, d !! "segments" = Some v -> resp !! "segments" = Some v)
    /\ resp !! "model" = Some (PyStr (model (service w))).
Proof.
  cbv zeta. rewrite transcribe_io_eval. cbv zeta.
  destruct (create_error io) as [e1 |]; [discriminate |].
  destruct (read_error io) as [e2 |]; [discriminate |].
  destruct (write_error io) as [[e3 reached] |]; [discriminate |].
  rewrite transcribe_eval. cbv zeta.
  pose proof (_transcribe_service X (temp_name stem (upload_suffix X file))
                (Some language)
                (set_fs (<[temp_name stem (upload_suffix X file) := content file]> (fs w)) w))
    as Hsvc.
  destruct (_transcribe X _ _ _) as [[d | e] w2]; [| discriminate].
  cbn [fst snd] in *. intros Hresp.
  assert (Ht : exists t,
    (dict_get d "text" = PyStr t \/ (truthy (dict_get d "text") = false /\ t = []))
    /\ py_strip (py_or (dict_get d "text") (PyStr (py ""))) = Return (PyStr (strip t))).
  { unfold py_or in *. destruct (truthy (dict_get d "text")) eqn:Htruthy.
    - destruct (dict_get d "text") as [| b | z | q | t | l | kv | bs | s |];
        try discriminate Hresp.
      exists t. split; [now left | reflexivity].
    - exists []. split; [right; auto | reflexivity]. }
  destruct Ht as (t & Hcase & Hstrip). rewrite Hstrip in Hresp.
  cbn [normalize_value] in Hresp. injection Hresp as <-.
  exists d, w2, t. split; [reflexivity |]. split; [exact Hcase |].
  split.
  { destruct (strip_split t) as (a & b & Hs & Ha & Hb & Htrim). now exists a, b. }
  repeat split.
  - intros ms Hms. unfold elapsed_ms_of. rewrite Hms. cbn [py_round_float].
    exists (round_half_even (ms * inject_Z 100)).
    split; [reflexivity |]. split; [reflexivity |].
    split; [apply round_half_even_half |].
    intros Hclock. apply round_half_even_nonneg.
    apply Qmult_le_0_compat; [| discriminate].
    now apply (elapsed_nonneg started finished).
  - intros v Hv. unfold dict_get_default. rewrite Hv. reflexivity.
  - rewrite Hsvc. reflexivity.
Qed.

(** A request that takes 0.000165 seconds by the clock: the float product
    with 1000 is the float written 0.165, which lies above the decimal, and
    the response holds 0.17. *)
Lemma successful_response_fields_witness :
  exists resp,
    fst (transcribe_io sample_runtime io_ok sample_upload (py "auto") (py "a1b2")
           0 (Qmake 760928193040519 4611686018427387904) world0) = Return resp
    /\ resp !! "text" = Some (PyStr (py "OpenClaw"))
    /\ resp !! "requested_language" = Some (PyStr (py "auto"))
    /\ resp !! "elapsed_ms" = Some (PyFloat (Qmake 17 100)).
Proof.
  pose (r := fst (transcribe_io sample_runtime io_ok sample_upload (py "auto")
                    (py "a1b2") 0 (Qmake 760928193040519 4611686018427387904) world0)).
  pose (resp := match r with Return x => x | Raise _ => ∅ end).
  destruct (successful_response_fields sample_runtime io_ok sample_upload (py "auto")
              (py "a1b2") 0 (Qmake 760928193040519 4611686018427387904) world0 resp)
    as (d & w2 & t & _ & _ & _ & _ & _ & Hl & _ & Hms & _).
  - reflexivity.
  - destruct (Hms _ eq_refl) as (n & Hn & Hval & _ & _).
    exists resp. split; [reflexivity |]. split; [reflexivity |].
    split; [exact Hl |]. rewrite Hn, Hval. reflexivity.
Defined.

(** ** C2: a failing warmup *)

(** C2, as the specification words it, fails: when the capability raises
    inside [warmup], the failure is not recorded by the flag alone.  The
    exception leaves [warmup] and [startup_event]; the startup hook does not
    return. *)
Lemma startup_failure_escapes_cex :
  fst (startup_event failing_runtime (py "a1b2") world0) = Raise (CapabilityError 1)
  /\ fst (startup_event failing_runtime (py "a1b2") world0) <> Return tt
  /\ warmed (service (snd (startup_event failing_runtime (py "a1b2") world0))) = false.
Proof.
  split; [reflexivity |]. split; [discriminate | reflexivity].
Qed.

(** C2, amended. When the capability raises inside [warmup], the exception
    is raised again by [warmup] and by [startup_event], to the framework
    that called the hook; the service is as it was, so the flag stays false
    if it was false; the clip is removed; and [health], when it is called on
    that state, returns with the flag as it was. *)
Theorem warmup_failure_propagates {E : Type} (X : runtime E)
    (stem : pystr) (w : world E) (e : exn) (w2 : world E) :
  let p := temp_name stem (py ".wav") in
  _transcribe X p (Some (py "auto"))
    (set_fs (<[p := warmup_audio X]> (<[p := []]> (fs w))) w) = (Raise e, w2) ->
  let r := startup_event X stem w in
  fst r = Raise e
  /\ service (snd r) = service w
  /\ fs (snd r) !! p = None
  /\ forall now, exists h,
       health X now (snd r) = (Return h, snd r)
       /\ h !! "warmed" = Some (PyBool (warmed (service w)))
       /\ h !! "ok" = Some (PyBool true).
Proof.
  cbv zeta. intros Hcap. unfold startup_event.
  pose proof (_transcribe_service X (temp_name stem (py ".wav")) (Some (py "auto"))
                (set_fs (<[temp_name stem (py ".wav") := warmup_audio X]>
                           (<[temp_name stem (py ".wav") := []]> (fs w))) w)) as Hsvc.
  rewrite warmup_eval. cbv zeta. rewrite Hcap in *. simpl in Hsvc. simpl.
  repeat split; auto.
  - apply lookup_delete_eq.
  - intros now. eexists. split; [reflexivity |]. simpl. rewrite Hsvc. split; reflexivity.
Qed.

Lemma warmup_failure_propagates_witness :
  fst (startup_event failing_runtime (py "a1b2") world0) = Raise (CapabilityError 1)
  /\ service (snd (startup_event failing_runtime (py "a1b2") world0)) = service world0.
Proof.
  destruct (warmup_failure_propagates failing_runtime (py "a1b2") world0
              (CapabilityError 1)
              (snd (_transcribe failing_runtime (temp_name (py "a1b2") (py ".wav"))
                      (Some (py "auto"))
                      (set_fs (<[temp_name (py "a1b2") (py ".wav") := warmup_audio failing_runtime]>
                                 (<[temp_name (py "a1b2") (py ".wav") := []]> (fs world0)))
                              world0))))
    as (H1 & H2 & _).
  - reflexivity.
  - split; [exact H1 | exact H2].
Defined.

(** ** C8: the warmed flag *)

Lemma falls_cons a b t :
  falls (a :: b :: t) = ((if a && negb b then 1 else 0) + falls (b :: t))%nat.
Proof. reflexivity. Qed.

Lemma rises_cons a b t :
  rises (a :: b :: t) = ((if negb a && b then 1 else 0) + rises (b :: t))%nat.
Proof. reflexivity. Qed.

Section Flag.

Context {E : Type}.
Variable X : runtime E.

Lemma run_op_warmed op (w : world E) :
  warmed (service (run_op X op w))
  = match op with
    | OpStartup stem =>
        match fst (startup_event X stem w) with
        | Return _ => true
        | Raise _ => warmed (service w)
        end
    | _ => warmed (service w)
    end.
Proof.
  destruct op as [stem | now | file language stem started finished | audio_path language];
    simpl.
  - unfold startup_event. rewrite warmup_service. now destruct (fst (warmup X stem w)).
  - reflexivity.
  - now rewrite transcribe_service.
  - now rewrite _transcribe_service.
Qed.

Lemma run_op_monotone op (w : world E) :
  warmed (service w) = true -> warmed (service (run_op X op w)) = true.
Proof.
  intros H. rewrite run_op_warmed, H. destruct op; auto.
  now destruct (fst (startup_event X stem w)).
Qed.

Lemma run_trace_head ops (w : world E) :
  exists tl, run_trace X ops w = w :: tl.
Proof. destruct ops; simpl; eauto. Qed.

Lemma run_trace_flag ops : forall w : world E,
  falls (map (fun w' => warmed (service w')) (run_trace X ops w)) = 0%nat
  /\ (rises (map (fun w' => warmed (service w')) (run_trace X ops w))
      <= if warmed (service w) then 0 else 1)%nat.
Proof.
  induction ops as [| op ops IH]; intros w.
  - simpl. destruct (warmed (service w)); lia.
  - destruct (IH (run_op X op w)) as [Hf Hr].
    pose proof (run_op_monotone op w) as Hmono.
    change (run_trace X (op :: ops) w) with (w :: run_trace X ops (run_op X op w)).
    destruct (run_trace_head ops (run_op X op w)) as [tl Htl].
    rewrite Htl in *. cbn [map] in *.
    rewrite falls_cons, rises_cons.
    remember (falls (_ :: _)) as F. remember (rises (_ :: _)) as R.
    destruct (warmed (service w)).
    + rewrite (Hmono eq_refl) in *. simpl. lia.
    + destruct (warmed (service (run_op X op w))); simpl; lia.
Qed.

End Flag.

(** C8. The flag is false when the service is made; an operation never
    takes it from true to false; every operation other than the startup
    warmup leaves it as it is, and the warmup sets it exactly when it
    returns (when the capability does not raise); so along any sequence of
    operations the flag never falls and rises at most once. *)
Theorem warmed_flag_lifecycle {E : Type} (X : runtime E) :
  (forall model now, warmed (HotWhisperService_init model now) = false)
  /\ (forall cfg files (e : E) now,
        warmed (service (initial_world cfg files e now)) = false)
  /\ (forall op (w : world E),
        warmed (service w) = true -> warmed (service (run_op X op w)) = true)
  /\ (forall op (w : world E),
        (forall stem, op <> OpStartup stem) ->
        warmed (service (run_op X op w)) = warmed (service w))
  /\ (forall stem (w : world E),
        warmed (service (run_op X (OpStartup stem) w))
        = match fst (warmup X stem w) with
          | Return _ => true
          | Raise _ => warmed (service w)
          end)
  /\ (forall ops (w : world E),
        falls (map (fun w' => warmed (service w')) (run_trace X ops w)) = 0%nat
        /\ (rises (map (fun w' => warmed (service w')) (run_trace X ops w)) <= 1)%nat).
Proof.
  split; [reflexivity |]. split; [reflexivity |].
  split; [apply run_op_monotone |].
  split; [| split].
  - intros op w Hop. rewrite run_op_warmed. destruct op; auto.
    now destruct (Hop stem).
  - intros stem w. now rewrite run_op_warmed.
  - intros ops w. destruct (run_trace_flag X ops w) as [Hf Hr].
    split; [exact Hf |]. destruct (warmed (service w)); lia.
Qed.

Lemma warmed_flag_lifecycle_witness :
  warmed (service (run_op sample_runtime (OpHealth 1)
                     (run_op sample_runtime (OpStartup (py "a1b2")) world0))) = true
  /\ warmed (service (run_op sample_runtime
                        (OpTranscribe sample_upload (py "auto") (py "c3d4") 0 (1 # 2))
                        world0)) = warmed (service world0).
Proof.
  destruct (warmed_flag_lifecycle sample_runtime) as (_ & _ & Hmono & Hother & _).
  split.
  - apply Hmono. reflexivity.
  - apply Hother. discriminate.
Defined.

(** * More of the code: properties *)

(** ** The normalizer never makes a text longer *)

Section Lengths.

Variable U : unicode_tables.

Lemma match_at_bounds p : forall prev s n,
  match_at U p prev s = Some n -> (min_len p <= n <= length s)%nat.
Proof.
  induction p as [| a p IH]; intros prev s n H.
  - injection H as <-. simpl. lia.
  - destruct a as [| c |].
    + rewrite match_at_bound in H. destruct (at_boundary U prev s); [| discriminate].
      simpl. eauto.
    + destruct s as [| x s]; [discriminate |].
      rewrite match_at_lit in H. destruct (lit_match c x); [| discriminate].
      destruct (match_at U p (Some x) s) as [m |] eqn:Hm; [| discriminate].
      injection H as <-. apply IH in Hm. simpl. lia.
    + revert prev n H. induction s as [| x s IHs]; intros prev n H; [discriminate |].
      rewrite match_at_space in H. destruct (is_space x); [| discriminate].
      destruct (match_at U (SpacePlus :: p) (Some x) s) as [m |] eqn:Hm.
      * injection H as <-. apply IHs in Hm. simpl in *. lia.
      * destruct (match_at U p (Some x) s) as [m |] eqn:Hm'; [| discriminate].
        injection H as <-. apply IH in Hm'. simpl. lia.
Qed.

Lemma sub_from_length p repl :
  (forall t, (min_len p <= length t)%nat -> (length (repl t) <= length t)%nat) ->
  forall s prev skip,
    (length (sub_from U p repl prev s skip) <= length s - skip)%nat.
Proof.
  intros Hrepl. induction s as [| x s IH]; intros prev skip; [simpl; lia |].
  destruct skip as [| k].
  - rewrite sub_from_cons.
    destruct (match_at U p prev (x :: s)) as [[| n] |] eqn:Hm.
    + specialize (IH (Some x) 0%nat). simpl. lia.
    + apply match_at_bounds in Hm. destruct Hm as [Hmin Hle].
      assert (Hlen : length (firstn (S n) (x :: s)) = S n).
      { rewrite length_firstn. lia. }
      specialize (Hrepl (firstn (S n) (x :: s))). rewrite Hlen in Hrepl.
      specialize (IH (Some x) n). rewrite length_app. simpl in *. lia.
    + specialize (IH (Some x) 0%nat). simpl. lia.
  - specialize (IH (Some x) k). simpl. lia.
Qed.

Lemma re_sub_length p repl s :
  (forall t, (min_len p <= length t)%nat -> (length (repl t) <= length t)%nat) ->
  (length (re_sub U p repl s) <= length s)%nat.
Proof.
  intros H. unfold re_sub. pose proof (sub_from_length p repl H s None 0%nat). lia.
Qed.

End Lengths.

(** X1. For every text and whatever the tables, the normalized text is at
    most as long as the text: each of the five substitutions writes a
    replacement no longer than what it matched. *)
Theorem normalize_never_longer (U : unicode_tables) (s : pystr) :
  (length (_normalize_terms U s) <= length s)%nat.
Proof.
  unfold _normalize_terms. cbv zeta.
  assert (Hcli : forall t, length (_case_aware_cli U t) = 3%nat).
  { intros t. destruct (case_aware_cli_cases U t) as [-> | [-> | ->]]; reflexivity. }
  repeat match goal with
  | |- (length (re_sub U ?p ?r ?t) <= _)%nat =>
      etransitivity; [apply (re_sub_length U p r t) |]
  end; try (intros t Ht; try rewrite Hcli; simpl in *; lia).
  lia.
Qed.
(** ** What is left to match in a normalized text *)

Section Findall.

Variable U : unicode_tables.
Hypothesis HU : tables_ok U = true.

Lemma findall_from_cons p prev x s :
  findall_from U p prev (x :: s) 0
  = match match_at U p prev (x :: s) with
    | Some (S n) => firstn (S n) (x :: s) :: findall_from U p (Some x) s n
    | _ => findall_from U p (Some x) s 0
    end.
Proof. reflexivity. Qed.

Lemma findall_skip p : forall u prev rest,
  findall_from U p prev (u ++ rest) (length u)
  = findall_from U p (last_opt prev u) rest 0.
Proof.
  induction u as [| x u IH]; intros prev rest.
  - reflexivity.
  - simpl. destruct rest; apply IH.
Qed.

Lemma findall_gap l q : letters l = true -> forall g prev rest,
  gap_ok U g = true ->
  findall_from U (Bound :: map Lit l ++ q) prev (g ++ rest) 0
  = findall_from U (Bound :: map Lit l ++ q) (last_opt prev g) rest 0.
Proof.
  intros Hl. induction g as [| x g IH]; intros prev rest Hg.
  - reflexivity.
  - simpl in Hg. apply andb_prop in Hg as [Hx Hg].
    change ((x :: g) ++ rest) with (x :: (g ++ rest)).
    rewrite findall_from_cons, (anchored_nonword U HU); auto.
    apply negb_true_iff in Hx. exact Hx.
Qed.

Lemma findall_inword p : forall u prev rest,
  forallb (is_word U) u = true -> word_opt U prev = true ->
  findall_from U (Bound :: p) prev (u ++ rest) 0
  = findall_from U (Bound :: p) (last_opt prev u) rest 0.
Proof.
  induction u as [| x u IH]; intros prev rest Hu Hprev.
  - reflexivity.
  - simpl in Hu. apply andb_prop in Hu as [Hx Hu].
    change ((x :: u) ++ rest) with (x :: (u ++ rest)).
    rewrite findall_from_cons, match_bound_inword; auto.
Qed.

Lemma findall_tail l q tail prev :
  letters l = true -> gap_ok U tail = true ->
  findall_from U (Bound :: map Lit l ++ q) prev tail 0 = [].
Proof.
  intros Hl Htail. rewrite <- (app_nil_r tail).
  now rewrite findall_gap.
Qed.

Lemma findall_match p x u rest prev :
  match_at U p prev (x :: u ++ rest) = Some (S (length u)) ->
  findall_from U p prev (x :: u ++ rest) 0
  = (x :: u) :: findall_from U p (last_opt (Some x) u) rest 0.
Proof.
  intros Hm. rewrite findall_from_cons, Hm.
  change (x :: u ++ rest) with ((x :: u) ++ rest).
  replace (firstn (S (length u)) ((x :: u) ++ rest)) with (x :: u)
    by (symmetry; apply (take_app_length (x :: u))).
  now rewrite findall_skip.
Qed.

Lemma findall_nomatch p w rest prev :
  match_at U (Bound :: p) prev (w ++ rest) = None -> word_ok U w = true ->
  findall_from U (Bound :: p) prev (w ++ rest) 0
  = findall_from U (Bound :: p) (last_opt prev w) rest 0.
Proof.
  intros Hm Hw. destruct (word_ok_cons U _ Hw) as (x & w' & -> & Hx & Hw').
  change ((x :: w') ++ rest) with (x :: (w' ++ rest)) in *.
  rewrite findall_from_cons, Hm. now rewrite findall_inword.
Qed.

(** The matches of a one-word pattern are the words it matches. *)
Lemma findall_word_items l tail :
  letters l = true -> gap_ok U tail = true ->
  forall its first prev,
    items_ok U first its = true ->
    (first = true -> word_opt U prev = false) ->
    findall_from U (Bound :: map Lit l ++ [Bound]) prev (flatten its tail) 0
    = List.filter (lits_match l) (map snd its).
Proof.
  intros Hl Htail. induction its as [| [g w] its IH]; intros first prev Hok Hprev.
  - rewrite flatten_nil. now apply findall_tail.
  - simpl in Hok. apply andb_prop in Hok as [Hit Hits].
    apply (item_ok_inv U) in Hit as (Hg & Hw & Hf).
    rewrite flatten_cons, findall_gap by assumption.
    assert (Hp : word_opt U (last_opt prev g) = false).
    { apply last_opt_gap; auto. destruct Hf as [-> | Hne]; auto. }
    assert (Hrest : starts_nonword U (flatten its tail))
      by now apply starts_nonword_flatten.
    pose proof (match_word U HU l w (last_opt prev g) _ Hl Hw Hrest Hp) as Hm.
    simpl map. simpl List.filter.
    destruct (lits_match l w).
    + destruct (word_ok_cons U _ Hw) as (x & w' & -> & Hx & Hw').
      change ((x :: w') ++ flatten its tail) with (x :: w' ++ flatten its tail) in *.
      rewrite findall_match by exact Hm. f_equal.
      apply (IH false); auto. intros; discriminate.
    + rewrite findall_nomatch by assumption.
      apply (IH false); auto. intros; discriminate.
Qed.

(** The matches of a two-word pattern are the neighbour pairs it matches. *)
Lemma findall_pair_items l1 l2 tail :
  letters l1 = true -> letters l2 = true -> gap_ok U tail = true ->
  forall its first prev,
    items_ok U first its = true ->
    (first = true -> word_opt U prev = false) ->
    findall_from U (Bound :: map Lit l1 ++ SpacePlus :: map Lit l2 ++ [Bound])
      prev (flatten its tail) 0
    = pair_texts l1 l2 its.
Proof.
  intros Hl1 Hl2 Htail.
  induction its as [| [g w] | [g1 w1] [g2 w2] its IH1 IH2] using list_pair_ind;
    intros first prev Hok Hprev.
  - rewrite flatten_nil. now apply findall_tail.
  - simpl in Hok. rewrite andb_true_r in Hok.
    apply (item_ok_inv U) in Hok as (Hg & Hw & Hf).
    rewrite flatten_cons, flatten_nil, findall_gap by assumption.
    rewrite findall_nomatch; auto.
    + now apply findall_tail.
    + apply (match_pair_last U HU); auto.
      apply last_opt_gap; auto. destruct Hf as [-> | Hne]; auto.
  - simpl in Hok. apply andb_prop in Hok as [Hit1 Hok].
    apply andb_prop in Hok as [Hit2 Hits].
    apply (item_ok_inv U) in Hit1 as (Hg1 & Hw1 & Hf1).
    apply (item_ok_inv U) in Hit2 as (Hg2 & Hw2 & [Hf2 | Hne2]); [discriminate |].
    assert (Hp1 : word_opt U (last_opt prev g1) = false).
    { apply last_opt_gap; auto. destruct Hf1 as [-> | Hne]; auto. }
    assert (Hrest : starts_nonword U (flatten its tail))
      by now apply starts_nonword_flatten.
    pose proof (match_pair U HU l1 l2 w1 g2 w2 (flatten its tail) (last_opt prev g1)
                  Hl1 Hl2 Hw1 Hg2 Hne2 Hw2 Hrest Hp1) as Hm.
    rewrite !flatten_cons, findall_gap by assumption.
    change (pair_texts l1 l2 ((g1, w1) :: (g2, w2) :: its))
      with (if pair_match l1 l2 w1 g2 w2
            then (w1 ++ g2 ++ w2) :: pair_texts l1 l2 its
            else pair_texts l1 l2 ((g2, w2) :: its)).
    destruct (pair_match l1 l2 w1 g2 w2).
    + destruct (word_ok_cons U _ Hw1) as (x & w1' & -> & Hx & Hw1').
      replace ((x :: w1') ++ g2 ++ w2 ++ flatten its tail)
        with (x :: (w1' ++ g2 ++ w2) ++ flatten its tail) in *
        by (simpl; now rewrite <- !app_assoc).
      rewrite findall_match.
      * f_equal. apply (IH1 false); auto. intros; discriminate.
      * rewrite Hm. f_equal. simpl. rewrite !length_app. lia.
    + rewrite findall_nomatch by assumption.
      rewrite <- flatten_cons. apply (IH2 false).
      * simpl. rewrite Hits, andb_true_r.
        unfold item_ok. simpl. rewrite Hg2, Hw2. simpl.
        destruct g2; [congruence | reflexivity].
      * intros; discriminate.
Qed.

Lemma pair_texts_no_pair l1 l2 its :
  no_pair l1 l2 its = true -> pair_texts l1 l2 its = [].
Proof.
  induction its as [| x its IH]; [reflexivity |].
  simpl. intros H. apply andb_prop in H as [Hxy Hrest].
  destruct its as [| y its]; [reflexivity |].
  apply negb_true_iff in Hxy. rewrite Hxy. now apply IH.
Qed.

(** What the words and gaps of a normalized text are fixed by. *)
Lemma normalize_items_clean its :
  let I := normalize_items U its in
  fixed_by (word_rule (py "SubsiderAgent") (fun _ => py "subagent")) I
  /\ no_pair (py "Subsider") (py "Agent") I = true
  /\ fixed_by (word_rule (py "CLA") (_case_aware_cli U)) I
  /\ fixed_by (word_rule (py "Fallback") (fun _ => py "fallback")) I
  /\ no_pair (py "Open") (py "claw") I = true.
Proof.
  assert (Hcli : forall (P : pystr -> Prop),
    P (py "CLI") -> P (py "cli") -> P (py "Cli") -> forall w, P (_case_aware_cli U w)).
  { intros P H1 H2 H3 w.
    destruct (case_aware_cli_cases U w) as [-> | [-> | ->]]; assumption. }
  cbv zeta. unfold normalize_items. cbv zeta.
  set (f1 := word_rule (py "SubsiderAgent") (fun _ => py "subagent")).
  set (f3 := word_rule (py "CLA") (_case_aware_cli U)).
  set (f4 := word_rule (py "Fallback") (fun _ => py "fallback")).
  repeat split.
  - apply fixed_merge; [reflexivity |].
    apply fixed_rule_other; [reflexivity |].
    apply fixed_rule_other;
      [intros w; apply (Hcli (fun v => f1 v = v)); reflexivity |].
    apply fixed_merge; [reflexivity |].
    apply fixed_rule_self. reflexivity.
  - apply no_pair_merge; [reflexivity | reflexivity | left].
    apply no_pair_rule; [reflexivity | reflexivity |].
    apply no_pair_rule;
      [intros w; apply (Hcli (fun v => lits_match (py "Subsider") v = false)); reflexivity
      |intros w; apply (Hcli (fun v => lits_match (py "Agent") v = false)); reflexivity |].
    apply no_pair_merge; [reflexivity | reflexivity | now right].
  - apply fixed_merge; [reflexivity |].
    apply fixed_rule_other; [reflexivity |].
    apply fixed_rule_self.
    intros w; apply (Hcli (fun v => f3 v = v)); reflexivity.
  - apply fixed_merge; [reflexivity |].
    apply fixed_rule_self. reflexivity.
  - apply no_pair_merge; [reflexivity | reflexivity | now right].
Qed.

Lemma fixed_filter l repl its :
  fixed_by (word_rule l repl) its ->
  Forall (fun w => repl w = w) (List.filter (lits_match l) (map snd its)).
Proof.
  induction 1 as [| [g w] its Hw _ IH]; simpl; [constructor |].
  simpl in Hw. unfold word_rule in Hw.
  destruct (lits_match l w); [constructor |]; assumption.
Qed.

Lemma fixed_filter_nil l repl its :
  (forall w, lits_match l (repl w) = false) ->
  fixed_by (word_rule l repl) its ->
  List.filter (lits_match l) (map snd its) = [].
Proof.
  intros Hr Hfix. apply fixed_filter in Hfix.
  induction (map snd its) as [| w ws IH]; [reflexivity |].
  simpl in *. destruct (lits_match l w) eqn:Hm.
  - inversion Hfix as [| ? ? Hw _]; subst. rewrite <- Hw, Hr in Hm. discriminate.
  - now apply IH.
Qed.

End Findall.

(** What the patterns find in the words and gaps the rules leave. *)
Lemma nothing_left_items (U : unicode_tables) (HU : tables_ok U = true)
    (its : list item) (tail : pystr) :
  items_ok U true (normalize_items U its) = true -> gap_ok U tail = true ->
  let out := flatten (normalize_items U its) tail in
  re_findall U re_SubsiderAgent out = []
  /\ re_findall U re_Subsider_Agent out = []
  /\ re_findall U re_CLA out = []
  /\ re_findall U re_Open_claw out = []
  /\ Forall (fun t => t = py "fallback") (re_findall U re_Fallback out).
Proof.
  intros Hok1 Htail. cbv zeta.
  destruct (normalize_items_clean U its) as (F1 & P2 & F3 & F4 & P5).
  assert (Hnone : true = true -> word_opt U None = false) by reflexivity.
  unfold re_findall, re_SubsiderAgent, re_Subsider_Agent, re_CLA, re_Fallback,
    re_Open_claw, lits.
  rewrite !(findall_word_items U HU _ tail) with (first := true) by auto.
  rewrite !(findall_pair_items U HU _ _ tail) with (first := true) by auto.
  repeat split.
  - apply (fixed_filter_nil (py "SubsiderAgent") (fun _ => py "subagent"));
      [reflexivity | exact F1].
  - now apply pair_texts_no_pair.
  - apply (fixed_filter_nil _ (_case_aware_cli U)); [| exact F3].
    intros w. destruct (case_aware_cli_cases U w) as [-> | [-> | ->]]; reflexivity.
  - now apply pair_texts_no_pair.
  - apply fixed_filter in F4. eapply Forall_impl; [exact F4 |].
    intros t Ht. symmetry. exact Ht.
Qed.

(** X2. In a normalized text none of the four misheard spellings is left:
    [\bSubsiderAgent\b], [\bSubsider\s+Agent\b], [\bCLA\b] and
    [\bOpen\s+claw\b] match nowhere in it, in any case, and every match of
    [\bFallback\b] is the text ["fallback"] itself. *)
Theorem normalized_text_has_no_match (U : unicode_tables) (HU : tables_ok U = true)
    (s : pystr) :
  re_findall U re_SubsiderAgent (_normalize_terms U s) = []
  /\ re_findall U re_Subsider_Agent (_normalize_terms U s) = []
  /\ re_findall U re_CLA (_normalize_terms U s) = []
  /\ re_findall U re_Open_claw (_normalize_terms U s) = []
  /\ Forall (fun t => t = py "fallback")
       (re_findall U re_Fallback (_normalize_terms U s)).
Proof.
  destruct (parse_exists U s) as (its & tail & -> & Hok & Htail).
  destruct (normalize_flatten U HU its tail Hok Htail) as [-> Hok1].
  now apply nothing_left_items.
Qed.

Lemma normalized_text_has_no_match_witness :
  re_findall minimal_tables re_CLA
    (_normalize_terms minimal_tables (py "cla, CLA and Subsider  Agent")) = [].
Proof.
  apply (normalized_text_has_no_match minimal_tables eq_refl).
Defined.

(** X3. The normalizer works on whole words: any text reads as words (runs
    of word characters) with the gaps between them, and the normalized text
    is that reading with the five rules applied to the words, a rule of two
    words merging two neighbours and dropping the white space between them;
    every other gap is returned as it is. *)
Theorem normalize_acts_on_words (U : unicode_tables) (HU : tables_ok U = true)
    (s : pystr) :
  exists its tail,
    s = flatten its tail
    /\ items_ok U true its = true /\ gap_ok U tail = true
    /\ _normalize_terms U s = flatten (normalize_items U its) tail
    /\ items_ok U true (normalize_items U its) = true.
Proof.
  destruct (parse_exists U s) as (its & tail & -> & Hok & Htail).
  destruct (normalize_flatten U HU its tail Hok Htail) as [E Hok1].
  exists its, tail. repeat split; auto.
Qed.

Lemma normalize_acts_on_words_witness :
  exists its tail,
    py "Open claw!" = flatten its tail
    /\ _normalize_terms minimal_tables (py "Open claw!")
       = flatten (normalize_items minimal_tables its) tail.
Proof.
  destruct (normalize_acts_on_words minimal_tables eq_refl (py "Open claw!"))
    as (its & tail & H1 & _ & _ & H2 & _).
  exists its, tail. split; assumption.
Defined.

(** ** Text around and between words *)

Lemma flatten_tail_app its tail b : flatten its (tail ++ b) = flatten its tail ++ b.
Proof. unfold flatten. now rewrite app_assoc. Qed.

Lemma flatten_split its tail : flatten its tail = flatten its [] ++ tail.
Proof. apply (flatten_tail_app its [] tail). Qed.

Lemma flatten_app its1 its2 tail :
  flatten (its1 ++ its2) tail = flatten its1 [] ++ flatten its2 tail.
Proof.
  induction its1 as [| [g w] its1 IH]; [reflexivity |].
  change (((g, w) :: its1) ++ its2) with ((g, w) :: (its1 ++ its2)).
  rewrite !flatten_cons, IH. now rewrite <- !app_assoc.
Qed.

Lemma flatten_prepend a it its tail :
  flatten (prepend_gap a (it :: its)) tail = a ++ flatten (it :: its) tail.
Proof.
  destruct it as [g w]. unfold prepend_gap. cbn [fst snd].
  rewrite !flatten_cons. now rewrite <- !app_assoc.
Qed.

Lemma map_words_prepend f a its :
  map_words f (prepend_gap a its) = prepend_gap a (map_words f its).
Proof. destruct its; reflexivity. Qed.

Lemma merge_pairs_prepend l1 l2 new a its :
  merge_pairs l1 l2 new (prepend_gap a its) = prepend_gap a (merge_pairs l1 l2 new its).
Proof.
  destruct its as [| x [| y r]]; try reflexivity.
  unfold prepend_gap. rewrite !merge_pairs_cons. cbn [fst snd].
  now destruct (pair_match l1 l2 (snd x) (fst y) (snd y)).
Qed.

Lemma merge_pairs_nonempty l1 l2 new its :
  its <> [] -> merge_pairs l1 l2 new its <> [].
Proof.
  destruct its as [| y its]; [congruence |]. intros _.
  destruct (merge_head l1 l2 new y its) as (it & r & -> & _). discriminate.
Qed.

Lemma map_words_app f its1 its2 :
  map_words f (its1 ++ its2) = map_words f its1 ++ map_words f its2.
Proof. apply map_app. Qed.

Lemma merge_pairs_app l1 l2 new its2 :
  first_gap_blocks its2 ->
  forall its1,
    merge_pairs l1 l2 new (its1 ++ its2)
    = merge_pairs l1 l2 new its1 ++ merge_pairs l1 l2 new its2.
Proof.
  intros Hb.
  induction its1 as [| x | x y its1 IH1 IH2] using list_pair_ind.
  - reflexivity.
  - destruct its2 as [| y its2]; [reflexivity |].
    change ([x] ++ y :: its2) with (x :: y :: its2).
    rewrite merge_pairs_cons. unfold pair_match. simpl in Hb. rewrite Hb.
    now rewrite andb_false_r.
  - change ((x :: y :: its1) ++ its2) with (x :: y :: (its1 ++ its2)).
    rewrite !merge_pairs_cons.
    destruct (pair_match l1 l2 (snd x) (fst y) (snd y)).
    + now rewrite IH1.
    + change (y :: its1 ++ its2) with ((y :: its1) ++ its2). now rewrite IH2.
Qed.

Lemma first_gap_blocks_map f its :
  first_gap_blocks its -> first_gap_blocks (map_words f its).
Proof. destruct its; auto. Qed.

Lemma first_gap_blocks_merge l1 l2 new its :
  first_gap_blocks its -> first_gap_blocks (merge_pairs l1 l2 new its).
Proof.
  destruct its as [| y its]; [auto |]. intros H.
  destruct (merge_head l1 l2 new y its) as (it & r & -> & Hg & _).
  simpl in *. now rewrite Hg.
Qed.

Section Around.

Variable U : unicode_tables.
Hypothesis HU : tables_ok U = true.

Lemma normalize_items_prepend a its :
  normalize_items U (prepend_gap a its) = prepend_gap a (normalize_items U its).
Proof.
  unfold normalize_items. cbv zeta.
  now rewrite !map_words_prepend, !merge_pairs_prepend, !map_words_prepend,
    !merge_pairs_prepend.
Qed.

Lemma normalize_items_nonempty its : its <> [] -> normalize_items U its <> [].
Proof.
  intros H. unfold normalize_items. cbv zeta.
  assert (Hmap : forall f (l : list item), l <> [] -> map_words f l <> []).
  { intros f [| x l] Hl; [congruence | discriminate]. }
  apply merge_pairs_nonempty, Hmap, Hmap, merge_pairs_nonempty, Hmap, H.
Qed.

Lemma normalize_items_app its1 its2 :
  first_gap_blocks its2 ->
  normalize_items U (its1 ++ its2) = normalize_items U its1 ++ normalize_items U its2.
Proof.
  intros Hb. unfold normalize_items. cbv zeta.
  rewrite map_words_app, merge_pairs_app by now apply first_gap_blocks_map.
  rewrite !map_words_app, merge_pairs_app; [reflexivity |].
  repeat (apply first_gap_blocks_map || apply first_gap_blocks_merge). exact Hb.
Qed.

Lemma gap_ok_app a b : gap_ok U (a ++ b) = gap_ok U a && gap_ok U b.
Proof. apply forallb_app. Qed.

Lemma items_ok_prepend a its :
  gap_ok U a = true -> items_ok U true its = true ->
  items_ok U true (prepend_gap a its) = true.
Proof.
  intros Ha Hok. destruct its as [| [g w] its]; [reflexivity |].
  simpl in *. apply andb_prop in Hok as [Hit Hits]. rewrite Hits, andb_true_r.
  unfold item_ok in *. cbn [fst snd] in *.
  apply andb_prop in Hit as [Hit _]. apply andb_prop in Hit as [Hg Hw].
  now rewrite gap_ok_app, Ha, Hg, Hw.
Qed.

Lemma items_ok_weaken its : items_ok U false its = true -> items_ok U true its = true.
Proof.
  destruct its as [| it its]; [reflexivity |]. simpl.
  intros H. apply andb_prop in H as [Hit Hits]. rewrite Hits, andb_true_r.
  unfold item_ok in *. apply andb_prop in Hit as [Hit _]. now rewrite Hit.
Qed.

Lemma items_ok_app first its1 its2 :
  items_ok U first its1 = true -> items_ok U false its2 = true ->
  items_ok U first (its1 ++ its2) = true.
Proof.
  revert first. induction its1 as [| it its1 IH]; intros first H1 H2.
  - destruct first; [now apply items_ok_weaken | exact H2].
  - simpl in *. apply andb_prop in H1 as [Hit H1]. now rewrite Hit, IH.
Qed.

End Around.

Lemma outer_gaps (U : unicode_tables) (HU : tables_ok U = true)
    (a s b : pystr) :
  gap_ok U a = true -> gap_ok U b = true ->
  _normalize_terms U (a ++ s ++ b) = a ++ _normalize_terms U s ++ b.
Proof.
  intros Ha Hb.
  destruct (parse_exists U s) as (its & tail & -> & Hok & Htail).
  destruct (normalize_flatten U HU its tail Hok Htail) as [-> _].
  destruct its as [| it its].
  - rewrite !flatten_nil.
    assert (Hg : gap_ok U (a ++ tail ++ b) = true)
      by now rewrite !gap_ok_app, Ha, Htail, Hb.
    destruct (normalize_flatten U HU [] (a ++ tail ++ b) eq_refl Hg) as [E _].
    rewrite !flatten_nil in E. exact E.
  - rewrite <- flatten_tail_app, <- flatten_prepend.
    assert (Hg : gap_ok U (tail ++ b) = true) by now rewrite gap_ok_app, Htail, Hb.
    destruct (normalize_flatten U HU _ (tail ++ b)
                (items_ok_prepend U a _ Ha Hok) Hg) as [-> _].
    rewrite normalize_items_prepend.
    destruct (normalize_items U (it :: its)) as [| it' its'] eqn:E.
    + exfalso. apply (normalize_items_nonempty U (it :: its)); [discriminate | exact E].
    + now rewrite flatten_prepend, flatten_tail_app.
Qed.

(** X4. Text that holds no word character (white space, punctuation) before
    and after a text stays where it is: normalizing with it around is
    normalizing without it and putting it back; the same with such text on
    one side only. *)
Theorem normalize_keeps_outer_gaps (U : unicode_tables) (HU : tables_ok U = true)
    (a s b : pystr) :
  gap_ok U a = true -> gap_ok U b = true ->
  _normalize_terms U (a ++ s ++ b) = a ++ _normalize_terms U s ++ b
  /\ _normalize_terms U (a ++ s) = a ++ _normalize_terms U s
  /\ _normalize_terms U (s ++ b) = _normalize_terms U s ++ b.
Proof.
  intros Ha Hb. split; [now apply outer_gaps |]. split.
  - pose proof (outer_gaps U HU a s [] Ha eq_refl) as H.
    now rewrite !app_nil_r in H.
  - exact (outer_gaps U HU [] s b eq_refl Hb).
Qed.

Lemma normalize_keeps_outer_gaps_witness :
  _normalize_terms minimal_tables (py "  (" ++ py "Open claw" ++ py ")! ")
  = py "  (" ++ _normalize_terms minimal_tables (py "Open claw") ++ py ")! ".
Proof.
  apply (normalize_keeps_outer_gaps minimal_tables eq_refl); reflexivity.
Defined.

(** X5. A gap that holds a character which is neither a word character nor
    white space (a comma, a full stop) separates: the text before it and the
    text after it are normalized each on its own. *)
Theorem normalize_splits_at_punctuation (U : unicode_tables) (HU : tables_ok U = true)
    (s1 g s2 : pystr) :
  gap_ok U g = true -> forallb is_space g = false ->
  _normalize_terms U (s1 ++ g ++ s2)
  = _normalize_terms U s1 ++ g ++ _normalize_terms U s2.
Proof.
  intros Hg Hns.
  destruct (parse_exists U s1) as (its1 & tail1 & -> & Hok1 & Htail1).
  destruct (parse_exists U s2) as (its2 & tail2 & -> & Hok2 & Htail2).
  destruct (normalize_flatten U HU its1 tail1 Hok1 Htail1) as [-> _].
  destruct (normalize_flatten U HU its2 tail2 Hok2 Htail2) as [-> _].
  destruct its2 as [| it2 its2].
  - rewrite !flatten_nil, <- flatten_tail_app.
    assert (Ht : gap_ok U (tail1 ++ g ++ tail2) = true)
      by now rewrite !gap_ok_app, Htail1, Hg, Htail2.
    destruct (normalize_flatten U HU its1 _ Hok1 Ht) as [-> _].
    now rewrite flatten_tail_app.
  - assert (Hgne : tail1 ++ g <> []).
    { destruct g; [discriminate |]. now destruct tail1. }
    assert (Hsp : forallb is_space (tail1 ++ g ++ fst it2) = false).
    { rewrite !forallb_app, Hns. now rewrite andb_false_r. }
    set (B := prepend_gap (tail1 ++ g) (it2 :: its2)).
    assert (E : flatten its1 tail1 ++ g ++ flatten (it2 :: its2) tail2
                = flatten (its1 ++ B) tail2).
    { unfold B. rewrite flatten_app, flatten_prepend, (flatten_split its1 tail1).
      now rewrite <- !app_assoc. }
    assert (HokB : items_ok U false B = true).
    { unfold B. destruct it2 as [g2 w2]. simpl in *.
      apply andb_prop in Hok2 as [Hit Hits]. rewrite Hits, andb_true_r.
      unfold item_ok in *. cbn [fst snd] in *.
      apply andb_prop in Hit as [Hit _]. apply andb_prop in Hit as [Hg2 Hw2].
      rewrite !gap_ok_app, Htail1, Hg, Hg2, Hw2. simpl.
      destruct (tail1 ++ g) eqn:Eg; [congruence | reflexivity]. }
    rewrite E.
    destruct (normalize_flatten U HU _ tail2 (items_ok_app U true _ _ Hok1 HokB) Htail2)
      as [-> _].
    assert (Hblocks : first_gap_blocks B).
    { unfold B. destruct it2 as [g2 w2]. simpl. simpl in Hsp.
      now rewrite <- app_assoc. }
    rewrite (normalize_items_app U its1 B Hblocks), flatten_app.
    unfold B. rewrite normalize_items_prepend.
    destruct (normalize_items U (it2 :: its2)) as [| it' its'] eqn:EN.
    + exfalso. apply (normalize_items_nonempty U (it2 :: its2)); [discriminate | exact EN].
    + rewrite flatten_prepend, (flatten_split _ tail1).
      now rewrite <- !app_assoc.
Qed.

Lemma normalize_splits_at_punctuation_witness :
  _normalize_terms minimal_tables (py "Subsider" ++ py ", " ++ py "Agent cla")
  = _normalize_terms minimal_tables (py "Subsider") ++ py ", "
    ++ _normalize_terms minimal_tables (py "Agent cla").
Proof.
  apply (normalize_splits_at_punctuation minimal_tables eq_refl); reflexivity.
Defined.
(** ** Stripping and normalizing *)

Section Strip.

Variable U : unicode_tables.
Hypothesis HU : tables_ok U = true.

Lemma word_not_space o : word_opt U o = true -> nonspace_opt o.
Proof.
  destruct o as [x |]; [| discriminate]. simpl. intros Hw.
  destruct (is_space x) eqn:Hs; [| reflexivity].
  apply (space_not_word U HU) in Hs. congruence.
Qed.

Lemma first_gap_normalize it its :
  exists w' r', normalize_items U (it :: its) = (fst it, w') :: r'.
Proof.
  set (P := fun (g : pystr) (l : list item) => exists w r, l = (g, w) :: r).
  assert (Hmap : forall f g l, P g l -> P g (map_words f l)).
  { intros f g l (w & r & ->). simpl. red. eauto. }
  assert (Hmerge : forall l1 l2 new g l, P g l -> P g (merge_pairs l1 l2 new l)).
  { intros l1 l2 new g l (w & r & ->).
    destruct (merge_head l1 l2 new (g, w) r) as ([g' w'] & r' & E & Hg & _).
    simpl in Hg. subst g'. exists w', r'. exact E. }
  change (P (fst it) (normalize_items U (it :: its))).
  unfold normalize_items. cbv zeta.
  apply Hmerge, Hmap, Hmap, Hmerge, Hmap.
  exists (snd it), its. now destruct it.
Qed.

Lemma last_flatten_word its : forall first prev,
  items_ok U first its = true -> its <> [] ->
  word_opt U (last_opt prev (flatten its [])) = true.
Proof.
  induction its as [| [g w] its IH]; intros first prev Hok Hne; [congruence |].
  simpl in Hok. apply andb_prop in Hok as [Hit Hits].
  apply (item_ok_inv U) in Hit as (Hg & Hw & _).
  rewrite flatten_cons, !last_opt_app.
  destruct its as [| it its].
  - rewrite flatten_nil. simpl. now apply last_opt_word.
  - apply (IH false); [exact Hits | discriminate].
Qed.

Lemma normalize_trimmed c : trimmed c -> trimmed (_normalize_terms U c).
Proof.
  intros [Hh Hl].
  destruct (parse_exists U c) as (its & tail & -> & Hok & Htail).
  destruct (normalize_flatten U HU its tail Hok Htail) as [-> Hok'].
  split.
  - destruct its as [| [g w] its]; [exact Hh |].
    destruct (first_gap_normalize (g, w) its) as (w' & r' & E).
    rewrite E in *. cbn [fst] in *. rewrite flatten_cons in *.
    destruct g as [| x g]; [| exact Hh].
    simpl in Hok'. apply andb_prop in Hok' as [Hit _].
    apply (item_ok_inv U) in Hit as (_ & Hw' & _).
    destruct (word_ok_cons U _ Hw') as (y & w'' & -> & Hy & _).
    simpl. apply (word_not_space (Some y)). exact Hy.
  - rewrite flatten_split, last_opt_app in *.
    destruct tail as [| t tail].
    + simpl. destruct its as [| it its]; [exact I |].
      apply word_not_space. apply (last_flatten_word _ true); [exact Hok' |].
      now apply normalize_items_nonempty.
    + rewrite (last_opt_indep (t :: tail) ltac:(discriminate) _
                 (last_opt None (flatten its []))).
      exact Hl.
Qed.

End Strip.

(** X6. Stripping and normalizing commute: the handler strips the white
    space from both ends and then normalizes; normalizing first and
    stripping then gives the same text. *)
Theorem normalize_commutes_with_strip (U : unicode_tables) (HU : tables_ok U = true)
    (s : pystr) :
  _normalize_terms U (strip s) = strip (_normalize_terms U s).
Proof.
  destruct (strip_split s) as (a & b & Hs & Ha & Hb & Ht).
  rewrite Hs at 2.
  rewrite (outer_gaps U HU a (strip s) b
             (spaces_gap U HU a Ha) (spaces_gap U HU b Hb)).
  symmetry. apply strip_unique; auto. now apply normalize_trimmed.
Qed.

Lemma normalize_commutes_with_strip_witness :
  _normalize_terms minimal_tables (strip (py "  Subsider Agent used CLA  "))
  = strip (_normalize_terms minimal_tables (py "  Subsider Agent used CLA  ")).
Proof.
  apply (normalize_commutes_with_strip minimal_tables). reflexivity.
Defined.

Lemma single_word (U : unicode_tables) (HU : tables_ok U = true)
    (w : pystr) :
  word_ok U w = true ->
  _normalize_terms U w
  = if lits_match (py "SubsiderAgent") w then py "subagent"
    else if lits_match (py "CLA") w then _case_aware_cli U w
    else if lits_match (py "Fallback") w then py "fallback"
    else w.
Proof.
  intros Hw.
  assert (E : w = flatten [([], w)] []).
  { rewrite flatten_cons, flatten_nil. simpl. now rewrite app_nil_r. }
  rewrite E at 1.
  destruct (normalize_flatten U HU [([], w)] []) as [-> _]; [| reflexivity |].
  { simpl. unfold item_ok. cbn [fst snd]. now rewrite Hw. }
  unfold normalize_items, map_words. cbn [map fst snd merge_pairs].
  rewrite flatten_cons, flatten_nil. cbn [app]. rewrite app_nil_r.
  unfold word_rule at 3.
  destruct (lits_match (py "SubsiderAgent") w) eqn:H1; [reflexivity |].
  unfold word_rule at 2.
  destruct (lits_match (py "CLA") w) eqn:H3.
  - destruct (case_aware_cli_cases U w) as [-> | [-> | ->]]; reflexivity.
  - unfold word_rule. reflexivity.
Qed.

(** X7. A text that is one word (word characters only) is normalized by
    the three one-word rules in their order: a spelling of [SubsiderAgent]
    becomes ["subagent"], else a spelling of [CLA] is rewritten by
    [_case_aware_cli], else a spelling of [Fallback] becomes ["fallback"],
    and any other word is returned as it is; and so is the word with text
    that holds no word character before and after it. *)
Theorem normalize_single_word (U : unicode_tables) (HU : tables_ok U = true)
    (a w b : pystr) :
  word_ok U w = true -> gap_ok U a = true -> gap_ok U b = true ->
  let w' := if lits_match (py "SubsiderAgent") w then py "subagent"
            else if lits_match (py "CLA") w then _case_aware_cli U w
            else if lits_match (py "Fallback") w then py "fallback"
            else w in
  _normalize_terms U w = w'
  /\ _normalize_terms U (a ++ w ++ b) = a ++ w' ++ b.
Proof.
  intros Hw Ha Hb. cbv zeta. split.
  - now apply single_word.
  - now rewrite (outer_gaps U HU a w b Ha Hb), (single_word U HU w Hw).
Qed.

Lemma normalize_single_word_witness :
  _normalize_terms minimal_tables (py "FALLBACK") = py "fallback"
  /\ _normalize_terms minimal_tables (py "(" ++ py "fallbacks" ++ py ")")
     = py "(" ++ py "fallbacks" ++ py ")".
Proof.
  split.
  - apply (normalize_single_word minimal_tables eq_refl [] (py "FALLBACK") []);
      reflexivity.
  - apply (normalize_single_word minimal_tables eq_refl (py "(") (py "fallbacks")
             (py ")")); reflexivity.
Defined.

(** X8. The rule for [Fallback], which no other rule touches: every case
    variant of the word, alone, becomes ["fallback"], whatever the tables;
    and with text that holds no word character before and after it, that
    text is kept and the word becomes ["fallback"]. *)
Theorem fallback_rule (U : unicode_tables) :
  (forall s, case_variant (py "Fallback") s = true ->
     _normalize_terms U s = py "fallback")
  /\ (tables_ok U = true ->
      forall a s b, gap_ok U a = true -> gap_ok U b = true ->
        case_variant (py "Fallback") s = true ->
        _normalize_terms U (a ++ s ++ b) = a ++ py "fallback" ++ b).
Proof.
  assert (H : forall V, tables_ok V = true -> forall s,
    case_variant (py "Fallback") s = true -> _normalize_terms V s = py "fallback").
  { intros V HV s Hs.
    destruct (case_variant_letters V (py "Fallback") s eq_refl Hs) as [Hm Hw].
    rewrite (single_word V HV s Hw), Hm.
    pose proof (case_variant_length _ _ Hs) as Hlen.
    destruct (lits_match (py "SubsiderAgent") s) eqn:E1.
    { apply lits_match_length in E1. rewrite Hlen in E1. discriminate. }
    destruct (lits_match (py "CLA") s) eqn:E3.
    { apply lits_match_length in E3. rewrite Hlen in E3. discriminate. }
    reflexivity. }
  split.
  - intros s Hs.
    rewrite (normalize_ascii U minimal_tables s
               (case_variant_ascii (py "Fallback") s eq_refl Hs)).
    now apply H.
  - intros HU a s b Ha Hb Hs.
    now rewrite (outer_gaps U HU a s b Ha Hb), (H U HU s Hs).
Qed.

Lemma fallback_rule_witness :
  _normalize_terms minimal_tables (py "fALLbACK") = py "fallback"
  /\ _normalize_terms minimal_tables (py "(" ++ py "FallBack" ++ py "), ")
     = py "(" ++ py "fallback" ++ py "), ".
Proof.
  destruct (fallback_rule minimal_tables) as [H1 H2].
  split; [apply H1; reflexivity | apply (H2 eq_refl); reflexivity].
Defined.
(** ** The calls a process makes to the capability *)

Section Calls.

Context {E : Type}.
Variable X : runtime E.

Lemma language_arg_range language lang :
  _language_arg language = Return lang ->
  lang = None \/ lang = Some (py "zh") \/ lang = Some (py "en").
Proof.
  destruct language as [l |]; simpl; [| intros [= <-]; auto].
  destruct (bool_decide (l = py "") || bool_decide (l = py "auto")).
  { intros [= <-]. auto. }
  destruct (bool_decide (l = py "zh")) eqn:Hzh.
  { apply bool_decide_eq_true_1 in Hzh. subst l. intros [= <-]. auto. }
  destruct (bool_decide (l = py "en")) eqn:Hen; [| discriminate].
  apply bool_decide_eq_true_1 in Hen. subst l. intros [= <-]. auto.
Qed.

Lemma cap_request_ok audio_path language lang (w : world E) :
  _language_arg language = Return lang ->
  call_ok X (model (service w)) (cap_request X audio_path lang w).
Proof.
  intros H. repeat split. now apply language_arg_range with language.
Qed.

(** The calls after [_transcribe]: one more when the language is accepted,
    none when it is refused. *)
Lemma _transcribe_calls audio_path language (w : world E) :
  cap_calls (snd (_transcribe X audio_path language w))
  = cap_calls w ++ match _language_arg language with
                   | Return lang => [cap_request X audio_path lang w]
                   | Raise _ => []
                   end.
Proof.
  rewrite _transcribe_eval. destruct (_language_arg language); simpl.
  - reflexivity.
  - now rewrite app_nil_r.
Qed.

Lemma transcribe_calls file language stem started finished (w : world E) :
  cap_calls (snd (transcribe X file language stem started finished w))
  = cap_calls w ++ match _language_arg (Some language) with
                   | Return lang =>
                       [cap_request X (temp_name stem (upload_suffix X file)) lang w]
                   | Raise _ => []
                   end.
Proof.
  rewrite transcribe_eval. cbv zeta.
  match goal with |- context [_transcribe X ?p ?l ?w1] =>
    pose proof (_transcribe_calls p l w1) as H;
    destruct (_transcribe X p l w1) as [[d | e] w2] end; exact H.
Qed.

Lemma warmup_calls stem (w : world E) :
  cap_calls (snd (warmup X stem w))
  = cap_calls w ++ [cap_request X (temp_name stem (py ".wav")) None w].
Proof.
  rewrite warmup_eval. cbv zeta.
  match goal with |- context [_transcribe X ?p ?l ?w1] =>
    pose proof (_transcribe_calls p l w1) as H;
    destruct (_transcribe X p l w1) as [[d | e] w2] end; exact H.
Qed.

Lemma run_op_service op (w : world E) :
  model (service (run_op X op w)) = model (service w)
  /\ startup_ts (service (run_op X op w)) = startup_ts (service w).
Proof.
  destruct op as [stem | now | file language stem started finished | audio_path language];
    simpl.
  - unfold startup_event. rewrite warmup_service. now destruct (fst (warmup X stem w)).
  - auto.
  - now rewrite transcribe_service.
  - now rewrite _transcribe_service.
Qed.

Lemma run_op_calls op (w : world E) :
  exists new, cap_calls (run_op X op w) = cap_calls w ++ new
              /\ Forall (call_ok X (model (service w))) new
              /\ (length new <= 1)%nat.
Proof.
  destruct op as [stem | now | file language stem started finished | audio_path language];
    simpl.
  - unfold startup_event. rewrite warmup_calls. eexists. split; [reflexivity |].
    split; [| simpl; lia]. constructor; [| constructor].
    now apply (cap_request_ok _ (Some (py "auto"))).
  - exists []. rewrite app_nil_r. repeat split; [constructor | simpl; lia].
  - rewrite transcribe_calls. eexists. split; [reflexivity |].
    destruct (_language_arg (Some language)) as [lang |] eqn:Hl;
      (split; [| simpl; lia]); [| constructor].
    constructor; [| constructor]. now apply (cap_request_ok _ (Some language)).
  - rewrite _transcribe_calls. eexists. split; [reflexivity |].
    destruct (_language_arg language) as [lang |] eqn:Hl;
      (split; [| simpl; lia]); [| constructor].
    constructor; [| constructor]. now apply (cap_request_ok _ language).
Qed.

End Calls.

(** X10. Along any sequence of operations (startup, health checks,
    requests, direct calls of [_transcribe]), from any state: the model of
    the service and its start time never change; the record of calls to the
    capability only grows, by at most one call for each operation; and every
    call made names the model of the service, asks for no word time stamps,
    passes the configured prompt, and asks for the language [None]
    (detect), ["zh"] or ["en"], never anything else. *)
Theorem capability_calls_discipline {E : Type} (X : runtime E)
    (ops : list operation) (w : world E) :
  Forall (fun w' =>
            model (service w') = model (service w)
            /\ startup_ts (service w') = startup_ts (service w)
            /\ exists new, cap_calls w' = cap_calls w ++ new
                           /\ Forall (call_ok X (model (service w))) new
                           /\ (length new <= length ops)%nat)
         (run_trace X ops w).
Proof.
  revert w. induction ops as [| op ops IH]; intros w.
  - simpl. constructor; [| constructor]. repeat split.
    exists []. rewrite app_nil_r. repeat split; [constructor | simpl; lia].
  - change (run_trace X (op :: ops) w) with (w :: run_trace X ops (run_op X op w)).
    constructor.
    + repeat split. exists []. rewrite app_nil_r.
      repeat split; [constructor | simpl; lia].
    + destruct (run_op_service X op w) as [Hm Ht].
      destruct (run_op_calls X op w) as (new1 & Hc1 & Hok1 & Hlen1).
      eapply Forall_impl; [apply IH |].
      intros w' (Hm' & Ht' & new2 & Hc2 & Hok2 & Hlen2). cbv beta.
      rewrite Hm', Ht', Hm, Ht. repeat split.
      exists (new1 ++ new2). rewrite Hc2, Hc1, <- app_assoc.
      repeat split.
      * apply Forall_app. split; [exact Hok1 |]. now rewrite <- Hm.
      * rewrite length_app. simpl. lia.
Qed.

(** ** What the capability sees, and what is left on disk *)

Section Disk.

Context {E : Type}.
Variable X : runtime E.

Lemma warmup_with_run created built stem (w : world E) :
  let p := temp_name stem (py ".wav") in
  warmup_with X created built stem w
  = match created with
    | Some e => (Raise e, w)
    | None =>
        match built with
        | Raise e => (Raise e, set_fs (delete p (fs w)) w)
        | Return clip =>
            let a := cap_request X p None w in
            let r := mlx_transcribe X a (cap_state w) (<[p := clip]> (fs w)) in
            (match fst (fst r) with Return _ => Return tt | Raise e => Raise e end,
             {| fs := delete p (snd r);
                service := match fst (fst r) with
                           | Return _ => {| model := model (service w); warmed := true;
                                            startup_ts := startup_ts (service w) |}
                           | Raise _ => service w
                           end;
                cap_state := snd (fst r);
                cap_calls := cap_calls w ++ [a] |})
        end
    end.
Proof.
  assert (Hauto : _language_arg (Some (py "auto")) = Return None) by reflexivity.
  cbv zeta. rewrite warmup_with_eval. cbv zeta.
  destruct created as [e |]; [reflexivity |].
  destruct built as [clip | e].
  - rewrite _transcribe_eval, Hauto. cbv zeta.
    cbn [fs set_fs service cap_state cap_calls]. rewrite insert_insert_eq.
    unfold cap_request at 1 3. cbn [service set_fs].
    fold (cap_request X (temp_name stem (py ".wav")) None w).
    destruct (mlx_transcribe X _ _ _) as [[[d | e] e'] f']; reflexivity.
  - now rewrite delete_insert_eq.
Qed.

Lemma transcribe_run file language lang stem started finished (w : world E) :
  _language_arg (Some language) = Return lang ->
  let p := temp_name stem (upload_suffix X file) in
  let a := cap_request X p lang w in
  let r := mlx_transcribe X a (cap_state w) (<[p := content file]> (fs w)) in
  snd (transcribe X file language stem started finished w)
  = {| fs := delete p (snd r); service := service w;
       cap_state := snd (fst r); cap_calls := cap_calls w ++ [a] |}
  /\ forall e, fst (fst r) = Raise e ->
       fst (transcribe X file language stem started finished w) = Raise e.
Proof.
  intros Hl. cbv zeta. rewrite transcribe_eval. cbv zeta. rewrite _transcribe_eval, Hl.
  cbv zeta. cbn [fs set_fs service cap_state cap_calls].
  unfold cap_request at 1 3 5. cbn [service set_fs].
  fold (cap_request X (temp_name stem (upload_suffix X file)) lang w).
  destruct (mlx_transcribe X _ _ _) as [[[d | e] e'] f']; split; try reflexivity.
  - intros e0 [=].
  - intros e0 [= <-]. reflexivity.
Qed.

End Disk.



(** X12. A request with an accepted language.  When one of the three file
    steps raises, the handler raises and the capability is not called.
    When they succeed, the handler calls the capability once, on the path of
    the temporary file with the language [_language_arg] gives, on a disk
    where that path holds the bytes of the upload; when the capability
    raises the handler raises the same; the service is untouched;
    afterwards the temporary file is gone, every other file is as the
    capability left it, and the state of the capability is the one the call
    left. *)
Theorem transcribe_contract {E : Type} (X : runtime E) (io : upload_io)
    (file : UploadFile) (language : pystr) (lang : option pystr) (stem : pystr)
    (started finished : Q) (w : world E) :
  _language_arg (Some language) = Return lang ->
  let p := temp_name stem (upload_suffix X file) in
  let a := cap_request X p lang w in
  let disk := <[p := content file]> (fs w) in
  let r := mlx_transcribe X a (cap_state w) disk in
  let out := transcribe_io X io file language stem started finished w in
  match create_error io, read_error io, write_error io with
  | None, None, None =>
      audio_path a = p /\ cap_language a = lang
      /\ disk !! p = Some (content file)
      /\ cap_calls (snd out) = cap_calls w ++ [a]
      /\ (forall e, fst (fst r) = Raise e -> fst out = Raise e)
      /\ service (snd out) = service w
      /\ cap_state (snd out) = snd (fst r)
      /\ fs (snd out) !! p = None
      /\ (forall q, q <> p -> fs (snd out) !! q = snd r !! q)
  | _, _, _ =>
      (exists e, fst out = Raise e)
      /\ cap_calls (snd out) = cap_calls w
      /\ cap_state (snd out) = cap_state w
      /\ service (snd out) = service w
  end.
Proof.
  intros Hl. cbv zeta. rewrite transcribe_io_eval. cbv zeta.
  destruct (create_error io) as [e1 |]; [repeat split; eauto |].
  destruct (read_error io) as [e2 |]; [repeat split; eauto |].
  destruct (write_error io) as [[e3 reached] |]; [repeat split; eauto |].
  destruct (transcribe_run X file language lang stem started finished w Hl) as [Hw Ho].
  cbv zeta in Hw, Ho. rewrite Hw. cbn [fst snd fs service cap_state cap_calls].
  repeat split.
  - apply lookup_insert_eq.
  - exact Ho.
  - apply lookup_delete_eq.
  - intros q Hq. now apply lookup_delete_ne.
Qed.

Lemma transcribe_contract_witness :
  cap_calls (snd (transcribe_io sample_runtime io_ok sample_upload (py "auto")
                    (py "a1b2") 0 (1 # 2) world0))
  = [cap_request sample_runtime (temp_name (py "a1b2") (py ".wav")) None world0].
Proof.
  pose proof (transcribe_contract sample_runtime io_ok sample_upload (py "auto") None
                (py "a1b2") 0 (1 # 2) world0 eq_refl) as H.
  cbv zeta in H. cbn [io_ok create_error read_error write_error] in H.
  destruct H as (_ & _ & _ & H & _). exact H.
Defined.

Section Neutral.

Context {E : Type}.
Variable X : runtime E.
Hypothesis Hkeep : keeps_files X.

Lemma _transcribe_fs audio_path language (w : world E) :
  fs (snd (_transcribe X audio_path language w)) = fs w.
Proof.
  rewrite _transcribe_eval. destruct (_language_arg language); [| reflexivity].
  cbv zeta. cbn [snd fs]. apply Hkeep.
Qed.

Lemma transcribe_fs file language stem started finished (w : world E) :
  fs w !! temp_name stem (upload_suffix X file) = None ->
  fs (snd (transcribe X file language stem started finished w)) = fs w.
Proof.
  intros Hfresh. rewrite transcribe_eval. cbv zeta.
  match goal with |- context [_transcribe X ?p ?l ?w1] =>
    pose proof (_transcribe_fs p l w1) as H;
    destruct (_transcribe X p l w1) as [[d | e] w2] end;
    cbn [snd fs set_fs] in *; rewrite H; now apply delete_insert_id.
Qed.

Lemma warmup_io_fs io stem (w : world E) :
  fs w !! temp_name stem (py ".wav") = None ->
  fs (snd (warmup_io X io stem w)) = fs w.
Proof.
  intros Hfresh. unfold warmup_io. rewrite warmup_with_run. cbv zeta.
  destruct (tmp_error io) as [e |]; [reflexivity |].
  destruct (build_clip X (clip_errors io)) as [clip | e]; cbn [snd fs set_fs].
  - rewrite Hkeep. now apply delete_insert_id.
  - now apply delete_id.
Qed.

End Neutral.

(** X13. With a capability that leaves the files as they are, and a
    temporary name that is not in use: [warmup] leaves the disk as it was,
    whatever happens; the handler leaves the disk as it was when its file
    steps succeed, whatever the capability does then, and when making the
    file raises; when reading the upload or writing it raises, the disk is
    as it was with the temporary file added (empty, or with the bytes that
    reached it); [_transcribe] and [health] leave the disk as it was. *)
Theorem disk_after_handlers {E : Type} (X : runtime E) :
  keeps_files X ->
  (forall io file language stem started finished (w : world E),
     let p := temp_name stem (upload_suffix X file) in
     fs w !! p = None ->
     fs (snd (transcribe_io X io file language stem started finished w))
     = match create_error io, read_error io, write_error io with
       | None, Some _, _ => <[p := []]> (fs w)
       | None, None, Some (_, reached) => <[p := reached]> (fs w)
       | _, _, _ => fs w
       end)
  /\ (forall io stem (w : world E),
        fs w !! temp_name stem (py ".wav") = None ->
        fs (snd (warmup_io X io stem w)) = fs w)
  /\ (forall audio_path language (w : world E),
        fs (snd (_transcribe X audio_path language w)) = fs w)
  /\ (forall now (w : world E), fs (snd (health X now w)) = fs w).
Proof.
  intros Hkeep. split; [| split; [| split]].
  - intros io file language stem started finished w. cbv zeta. intros Hfresh.
    rewrite transcribe_io_eval. cbv zeta.
    destruct (create_error io) as [e1 |]; [reflexivity |].
    destruct (read_error io) as [e2 |]; [reflexivity |].
    destruct (write_error io) as [[e3 reached] |]; [reflexivity |].
    now apply transcribe_fs.
  - intros io stem w. now apply warmup_io_fs.
  - intros audio_path language w. now apply _transcribe_fs.
  - reflexivity.
Qed.

Lemma disk_after_handlers_witness :
  fs (snd (transcribe_io sample_runtime io_ok sample_upload (py "auto") (py "a1b2")
             0 (1 # 2) world0)) = fs world0
  /\ fs (snd (warmup_io sample_runtime warmup_ok (py "c3d4") world0)) = fs world0.
Proof.
  destruct (disk_after_handlers sample_runtime) as (H1 & H2 & _).
  - intros a e f. reflexivity.
  - split.
    + apply (H1 io_ok sample_upload (py "auto") (py "a1b2") 0%Q (1 # 2)%Q world0).
      reflexivity.
    + apply (H2 warmup_ok (py "c3d4") world0). reflexivity.
Defined.

(** ** [health] *)

Lemma py_round_3 x : py_round x 3 = Qmake (round_half_even (x * inject_Z 1000)) 1000.
Proof. reflexivity. Qed.



(** ** A result whose text is not a string *)

(** X15. When the capability returns a result whose [text] is not a string
    but another value of [pyval] ([None], a [bool], an [int], a [float], a
    [list], a [dict], [bytes]): if the value counts as false the handler
    returns a response with the empty text; if it counts as true the
    handler raises, [TypeError] for [bytes] (which have [strip], and which
    [re.sub] refuses) and [AttributeError] for the others (which have no
    [strip]); in both cases the temporary file is removed. *)
Theorem text_not_a_string {E : Type} (X : runtime E)
    (file : UploadFile) (language stem : pystr) (started finished : Q) (w : world E)
    (d : pydict) (w2 : world E) (v : pyval) :
  let p := temp_name stem (upload_suffix X file) in
  let out := transcribe_io X io_ok file language stem started finished w in
  _transcribe X p (Some language) (set_fs (<[p := content file]> (fs w)) w)
    = (Return d, w2) ->
  d !! "text" = Some v ->
  (forall s, v <> PyStr s) ->
  (if truthy v
   then fst out = Raise (match v with PyBytes _ => TypeError | _ => AttributeError end)
   else exists resp, fst out = Return resp /\ resp !! "text" = Some (PyStr []))
  /\ fs (snd out) !! p = None.
Proof.
  cbv zeta. intros Hcap Hv Hns. rewrite transcribe_io_eval. cbv zeta.
  cbn [io_ok create_error read_error write_error].
  rewrite transcribe_eval. cbv zeta. rewrite Hcap.
  assert (Hget : dict_get d "text" = v) by (unfold dict_get; now rewrite Hv).
  rewrite Hget. unfold py_or.
  split; [| apply lookup_delete_eq].
  destruct (truthy v) eqn:Ht.
  - destruct v as [| b | z | q | s | l | kv | bs | s |]; try reflexivity.
    now destruct (Hns s).
  - cbn [py_strip normalize_value fst]. eexists. split; [reflexivity |]. reflexivity.
Qed.

Lemma text_not_a_string_witness :
  fst (transcribe_io bytes_runtime io_ok sample_upload (py "auto") (py "a1b2")
         0 (1 # 2) world0)
  = Raise TypeError.
Proof.
  destruct (text_not_a_string bytes_runtime sample_upload (py "auto") (py "a1b2")
              0 (1 # 2) world0 (<["text" := PyBytes [111; 107]%N]> ∅)
              (snd (_transcribe bytes_runtime (temp_name (py "a1b2") (py ".wav"))
                      (Some (py "auto"))
                      (set_fs (<[temp_name (py "a1b2") (py ".wav") := content sample_upload]>
                                 (fs world0)) world0)))
              (PyBytes [111; 107]%N)) as [H _].
  - reflexivity.
  - reflexivity.
  - discriminate.
  - exact H.
Defined.

(** ** Texts the normalizer returns as they are *)

Section Fixed.

Variable U : unicode_tables.

Lemma sub_from_fixed p repl : forall s prev skip,
  Forall (fun m => repl m = m) (findall_from U p prev s skip) ->
  sub_from U p repl prev s skip = skipn skip s.
Proof.
  induction s as [| x s IH]; intros prev skip H; [now destruct skip |].
  destruct skip as [| k].
  - rewrite sub_from_cons. rewrite findall_from_cons in H.
    destruct (match_at U p prev (x :: s)) as [[| n] |] eqn:Hm.
    + rewrite (IH _ _ H). reflexivity.
    + apply Forall_cons in H as [Hm1 Hms]. rewrite Hm1, (IH _ _ Hms).
      simpl. now rewrite firstn_skipn.
    + rewrite (IH _ _ H). reflexivity.
  - simpl in *. now apply IH.
Qed.

Lemma re_sub_fixed p repl s :
  Forall (fun m => repl m = m) (re_findall U p s) -> re_sub U p repl s = s.
Proof. intros H. unfold re_sub. now rewrite (sub_from_fixed p repl s None 0%nat H). Qed.

Lemma re_sub_nomatch p repl s : re_findall U p s = [] -> re_sub U p repl s = s.
Proof. intros H. apply re_sub_fixed. rewrite H. constructor. Qed.

End Fixed.

(** X9. The texts the normalizer returns as they are, are exactly the texts
    with nothing to correct: a text is a fixed point when, and only when,
    [\bSubsiderAgent\b], [\bSubsider\s+Agent\b], [\bCLA\b] and
    [\bOpen\s+claw\b] match nowhere in it and every match of [\bFallback\b]
    is the text ["fallback"] itself. *)
Theorem normalize_fixed_point_iff (U : unicode_tables) (HU : tables_ok U = true)
    (s : pystr) :
  _normalize_terms U s = s
  <-> (re_findall U re_SubsiderAgent s = []
       /\ re_findall U re_Subsider_Agent s = []
       /\ re_findall U re_CLA s = []
       /\ re_findall U re_Open_claw s = []
       /\ Forall (fun t => t = py "fallback") (re_findall U re_Fallback s)).
Proof.
  split.
  - intros H.
    destruct (parse_exists U s) as (its & tail & Hs & Hok & Htail).
    destruct (normalize_flatten U HU its tail Hok Htail) as [E Hok1].
    rewrite <- Hs, H in E.
    pose proof (nothing_left_items U HU its tail Hok1 Htail) as P. cbv zeta in P.
    now rewrite <- E in P.
  - intros (H1 & H2 & H3 & H5 & H4). unfold _normalize_terms. cbv zeta.
    rewrite (re_sub_nomatch U _ _ s H1), (re_sub_nomatch U _ _ s H2),
      (re_sub_nomatch U _ _ s H3), (re_sub_fixed U re_Fallback _ s).
    + apply (re_sub_nomatch U _ _ s H5).
    + eapply Forall_impl; [exact H4 |]. intros t ->. reflexivity.
Qed.

Lemma normalize_fixed_point_iff_witness :
  _normalize_terms minimal_tables (py "the cli has a fallback, CLASS") 
  = py "the cli has a fallback, CLASS".
Proof.
  apply (normalize_fixed_point_iff minimal_tables eq_refl).
  repeat split; repeat constructor.
Defined.
(** ** The text of a response is clean *)

(** X19. The text of a successful response is clean: it has no white
    space at either end, stripping it changes nothing, and the normalizer
    returns it as it is. *)
Theorem response_text_is_clean {E : Type} (X : runtime E)
    (file : UploadFile) (language stem : pystr) (started finished : Q) (w : world E)
    (d : pydict) (w2 : world E) (t : pystr) :
  tables_ok (tables X) = true ->
  let p := temp_name stem (upload_suffix X file) in
  _transcribe X p (Some language) (set_fs (<[p := content file]> (fs w)) w)
    = (Return d, w2) ->
  text_field d t ->
  exists resp txt,
    fst (transcribe X file language stem started finished w) = Return resp
    /\ resp !! "text" = Some (PyStr txt)
    /\ trimmed txt
    /\ strip txt = txt
    /\ _normalize_terms (tables X) txt = txt.
Proof.
  cbv zeta. intros HU Hcap Ht.
  rewrite transcribe_eval. cbv zeta. rewrite Hcap, (text_field_strip d t Ht).
  eexists. exists (_normalize_terms (tables X) (strip t)).
  split; [reflexivity |]. split; [apply transcribe_response_lookup |].
  assert (Htrim : trimmed (_normalize_terms (tables X) (strip t))).
  { apply normalize_trimmed; [exact HU |].
    destruct (strip_split t) as (a & b & _ & _ & _ & H). exact H. }
  split; [exact Htrim |]. split.
  - pose proof (strip_unique [] (_normalize_terms (tables X) (strip t)) []
                  eq_refl eq_refl Htrim) as H.
    now rewrite app_nil_r in H.
  - destruct (parse_exists (tables X) (strip t)) as (its & tail & -> & Hok & Htail).
    destruct (normalize_flatten (tables X) HU its tail Hok Htail) as [-> Hok1].
    destruct (normalize_flatten (tables X) HU _ tail Hok1 Htail) as [-> _].
    now rewrite normalize_items_idem.
Qed.

Lemma response_text_is_clean_witness :
  exists resp txt,
    fst (transcribe sample_runtime sample_upload (py "auto") (py "a1b2") 0 (1 # 2) world0)
      = Return resp
    /\ resp !! "text" = Some (PyStr txt)
    /\ _normalize_terms minimal_tables txt = txt.
Proof.
  destruct (response_text_is_clean sample_runtime sample_upload (py "auto") (py "a1b2")
              0 (1 # 2) world0 sample_result
              (snd (_transcribe sample_runtime (temp_name (py "a1b2") (py ".wav"))
                      (Some (py "auto"))
                      (set_fs (<[temp_name (py "a1b2") (py ".wav") := content sample_upload]>
                                 (fs world0)) world0)))
              (py " Open claw "))
    as (resp & txt & H1 & H2 & _ & _ & H3).
  - reflexivity.
  - reflexivity.
  - left. reflexivity.
  - exists resp, txt. repeat split; assumption.
Defined.

(** ** The benchmark client *)

(** A run against a server that answers 200 to every request: three
    clips, each posted under its own name with the wave header and the
    frames, a row for each, and no file left. *)
Example main_sample :
  let r := main (counting_client 200) sample_args client_world0 in
  fst r = Return tt
  /\ stdout (snd r)
     = [Banner (py "http://127.0.0.1:8099") (py "auto"); Header;
        Row 2 (Finite 1000); Row 3 (Finite 1000); Row 4 (Finite 1000)]
  /\ map file_name (posts (snd r))
     = [py "tmpa1b2_2s.wav"; py "tmpa1b2_3s.wav"; py "tmpa1b2_4s.wav"]
  /\ map (fun q => Z.of_nat (length (file_bytes q))) (posts (snd r))
     = [64044; 96044; 128044]%Z
  /\ cfs (snd r) = ∅.
Proof. vm_compute. repeat split. Qed.

(** The frame count of [warmup] is taken from the float product: for
    [WARMUP_SECONDS = 0.7807499999999999] the product is the float 12492.0
    though the exact product lies below it. *)
Example warmup_frames_float :
  py_int_float (float_mul (Finite 16000) (to_double (Qmake 78074999999999990 100000000000000000)))
  = Return 12492%Z
  /\ py_int (16000 * (Qmake 78074999999999990 100000000000000000)) = 12491%Z
  /\ warmup_frames sample_runtime = Return 9600%Z.
Proof. vm_compute. repeat split. Qed.





Ltac norm :=
  cbv beta iota zeta delta [set_cfs set_net cfs net posts stdout]; cbn [fst snd].

Section ClientFacts.

Context {S : Type}.
Variable R : client_runtime S.
Variable args : Namespace.

Lemma clip_exception_cases path d n e :
  clip_exception (client_faults R path (SAMPLE_RATE * d) n) (SAMPLE_RATE * d) = Some e ->
  fails_before_post R d e.
Proof.
  unfold clip_exception, client_faults. cbn [open_error alloc_error wave_error].
  destruct (c_os_error R (OpenWrite path) n) as [e1 |] eqn:H1.
  { intros [= <-]. left. eauto. }
  destruct (2 ^ 62 <=? SAMPLE_RATE * d)%Z eqn:Hbig.
  { intros [= <-]. right. left. split; [reflexivity |]. now apply Z.leb_le. }
  destruct (c_os_error R (Allocate _) n) as [e2 |] eqn:H2.
  { intros [= <-]. left. eauto. }
  destruct (4294967295 <? 36 + 2 * Z.max 0 (SAMPLE_RATE * d))%Z eqn:Hlen.
  { intros [= <-]. right. right. split; [reflexivity |].
    apply Z.ltb_lt in Hlen. lia. }
  intros H3. left. eauto.
Qed.

(** One turn of the loop: what it leaves, by how it ends. *)
Lemma iteration_spec d (w : client_world S) :
  let r := iteration R args d w in
  (cfs (snd r) = cfs w
   \/ exists n, cfs (snd r)
                = delete (temp_name (fst (c_temp_stem R n)) (clip_suffix d)) (cfs w))
  /\ match fst r with
     | Return _ =>
         exists req latency,
           posts (snd r) = posts w ++ [req] /\ sent R args req d
           /\ stdout (snd r) = stdout w ++ [Row d latency]
     | Raise e =>
         stdout (snd r) = stdout w
         /\ ((posts (snd r) = posts w /\ fails_before_post R d e)
             \/ (exists req, posts (snd r) = posts w ++ [req] /\ sent R args req d
                             /\ fails_at_post R e))
     end.
Proof.
  cbv zeta. unfold iteration, cbind, client_tempfile.
  destruct (c_os_error R (CreateTemp (clip_suffix d)) (net w)) as [e0 |] eqn:Hcreate.
  { cbn [fst snd]. split; [now left |]. split; [reflexivity |].
    left. split; [reflexivity |]. left. eauto. }
  destruct (c_temp_stem R (net w)) as [stem n0] eqn:Hstem.
  assert (Hstem' : stem = fst (c_temp_stem R (net w))) by now rewrite Hstem.
  unfold ctry_finally, cbind, make_silent_wav, client_unlink. norm.
  destruct (clip_exception _ _) as [e1 |] eqn:Hclip.
  { norm. split.
    - right. exists (net w). rewrite <- Hstem'. now rewrite delete_insert_eq.
    - split; [reflexivity |]. left. split; [reflexivity |].
      now apply (clip_exception_cases _ _ _ _ Hclip). }
  unfold run_once, cbind, perf_counter, open_rb, requests_post, raise_for_status,
    py_print, cret. norm.
  destruct (c_perf_counter R n0) as [started n1]. norm.
  destruct (c_os_error R (OpenRead _) n1) as [e2 |] eqn:Hread.
  { norm. split.
    - right. exists (net w). rewrite <- Hstem'. now rewrite !delete_insert_eq.
    - split; [reflexivity |]. left. split; [reflexivity |]. left. eauto. }
  rewrite lookup_insert_eq. norm.
  match goal with |- context [c_post R ?q ?n] =>
    set (req := q) in *;
    assert (Hsent : sent R args req d)
      by (repeat split; cbn [file_name]; eauto);
    destruct (c_post R req n) as [[status | e3] n2] eqn:Hpost end; norm.
  - destruct ((400 <=? status)%Z && (status <? 600)%Z) eqn:Hst; norm.
    + split.
      * right. exists (net w). rewrite <- Hstem'. now rewrite !delete_insert_eq.
      * split; [reflexivity |]. right. eexists. split; [reflexivity |].
        split; [exact Hsent |]. right. exists status. split; [reflexivity | lia].
    + destruct (c_perf_counter R n2) as [finished n3]. norm. split.
      * right. exists (net w). rewrite <- Hstem'. now rewrite !delete_insert_eq.
      * eexists _, _. split; [reflexivity |]. split; [exact Hsent | reflexivity].
  - split.
    + right. exists (net w). rewrite <- Hstem'. now rewrite !delete_insert_eq.
    + split; [reflexivity |]. right. eexists. split; [reflexivity |].
      split; [exact Hsent |]. left. exists req, n1. now rewrite Hpost.
Qed.

Lemma for_each_cons d ds (w : client_world S) :
  for_each (d :: ds) (iteration R args) w
  = match fst (iteration R args d w) with
    | Return _ => for_each ds (iteration R args) (snd (iteration R args d w))
    | Raise e => (Raise e, snd (iteration R args d w))
    end.
Proof.
  simpl. unfold cbind. now destruct (iteration R args d w) as [[[] | e] w1].
Qed.


Lemma for_each_files ds : forall (w : client_world S) q,
  let r := for_each ds (iteration R args) w in
  cfs (snd r) !! q = cfs w !! q \/ cfs (snd r) !! q = None.
Proof.
  induction ds as [| d ds IH]; intros w q; cbv zeta; [now left |].
  rewrite for_each_cons.
  destruct (iteration_spec d w) as (Hfs & _). cbv zeta in *.
  assert (H1 : cfs (snd (iteration R args d w)) !! q = cfs w !! q
               \/ cfs (snd (iteration R args d w)) !! q = None).
  { destruct Hfs as [-> | [n ->]]; [now left |].
    destruct (decide (temp_name (fst (c_temp_stem R n)) (clip_suffix d) = q))
      as [<- | Hne].
    - right. apply lookup_delete_eq.
    - left. now apply lookup_delete_ne. }
  destruct (fst (iteration R args d w)) as [u | e]; [| exact H1].
  destruct (IH (snd (iteration R args d w)) q) as [H2 | H2]; cbv zeta in *.
  - rewrite H2. exact H1.
  - now right.
Qed.

Lemma for_each_files_fresh ds : forall w : client_world S,
  (forall n d, cfs w !! temp_name (fst (c_temp_stem R n)) (clip_suffix d) = None) ->
  cfs (snd (for_each ds (iteration R args) w)) = cfs w.
Proof.
  induction ds as [| d ds IH]; intros w Hfresh; [reflexivity |].
  rewrite for_each_cons.
  assert (H1 : cfs (snd (iteration R args d w)) = cfs w).
  { destruct (iteration_spec d w) as (Hfs & _). cbv zeta in Hfs.
    destruct Hfs as [-> | [n ->]]; [reflexivity |]. apply delete_id, Hfresh. }
  destruct (fst (iteration R args d w)) as [u | e]; [| exact H1].
  rewrite IH; [exact H1 |]. intros n d'. rewrite H1. apply Hfresh.
Qed.

Lemma main_eval (w : client_world S) :
  main R args w
  = for_each (py_range (args_min_sec args) (args_max_sec args + 1)) (iteration R args)
      {| cfs := cfs w; net := net w; posts := posts w;
         stdout := (stdout w ++ [Banner (args_base_url args) (args_language args)])
                   ++ [Header] |}.
Proof. reflexivity. Qed.

End ClientFacts.


(** X17. The benchmark leaves no file behind: after [main], whether it
    returned or raised, every path holds what it held before or nothing, so
    no clip is left; and when the temporary names are not in use before, the
    files are exactly those from before. *)
Theorem benchmark_leaves_no_file {S : Type} (R : client_runtime S)
    (args : Namespace) (w : client_world S) :
  (forall q, cfs (snd (main R args w)) !! q = cfs w !! q
             \/ cfs (snd (main R args w)) !! q = None)
  /\ ((forall n d, cfs w !! temp_name (fst (c_temp_stem R n)) (clip_suffix d) = None) ->
      cfs (snd (main R args w)) = cfs w).
Proof.
  rewrite main_eval. split.
  - intros q.
    match goal with |- context [for_each ?ds ?f ?w1] =>
      apply (for_each_files R args ds w1 q) end.
  - intros Hfresh.
    match goal with |- context [for_each ?ds ?f ?w1] =>
      apply (for_each_files_fresh R args ds w1) end.
    exact Hfresh.
Qed.

Lemma benchmark_leaves_no_file_witness :
  cfs (snd (main (counting_client 500) sample_args client_world0)) = cfs client_world0.
Proof.
  apply (benchmark_leaves_no_file (counting_client 500) sample_args client_world0).
  intros n d. reflexivity.
Defined.


